(** * Bracket matching of the pyzo code editor

    A shallow embedding of the bracket-matching part of
    [pyzo/codeeditor/extensions/appearance.py]: the two parenthesis iterators
    ([_ParenIterator], [_PlainTextParenIterator]), the stack scan of
    [HighlightMatchingBracket._findMatchingBracket] and the highlight
    decisions of [HighlightMatchingBracket.paintEvent].

    Python values are modelled as follows.
    - A one-character [str] is an [ascii]; a text is a [list ascii].
    - An [int] is a [Z] (positions do become negative in the plain-text
      iterator, see [PlainTextParenIterator.__next__]).
    - An exception is a constructor of [PyExc]; a computation that may raise
      is a value of [py A].  [OutOfFuel] is never produced by Python: it is
      the answer of a loop of the model whose fuel ran out, and the theorems
      show that the fuel the model supplies is always enough.

    The model also has the start of [paintEvent], which picks the character
    to query, and the breakpoint methods of the class [BreakPoints].

    The file has four parts: the model, class by class; the lemmas on the
    iterators, the loop and the texts; the properties of the specification,
    C1 to C10; and more properties of the code, X1 to X25. *)

From Stdlib Require Import Ascii String.
From Stdlib Require Import List ZArith Bool Lia Sorted.
Import ListNotations.
Open Scope Z_scope.

(** * The model *)

(** ** Python values *)

Module Py.

Definition str := list ascii.

Definition lit (s : string) : str := list_ascii_of_string s.

Definition len {A : Type} (l : list A) : Z := Z.of_nat (length l).

(** [l[i]] with Python's negative indices; [None] stands for IndexError. *)
Definition getitem {A : Type} (l : list A) (i : Z) : option A :=
  if 0 <=? i then nth_error l (Z.to_nat i)
  else if - len l <=? i then nth_error l (Z.to_nat (len l + i))
  else None.

(** [c in s] for a one-character string [c]. *)
Definition isin (c : ascii) (s : str) : bool := existsb (Ascii.eqb c) s.

(** [dict(zip(ks, vs))] as an association list and [d[k]]. *)
Definition dict_zip (ks vs : str) : list (ascii * ascii) := combine ks vs.

Fixpoint dict_get (d : list (ascii * ascii)) (k : ascii) : option ascii :=
  match d with
  | [] => None
  | (k', v) :: d' => if Ascii.eqb k k' then Some v else dict_get d' k
  end.

Inductive PyExc : Type :=
| ValueError
| IndexError
| KeyError
| TypeError
| StopIteration
| _ParenNotFound.

Inductive py (A : Type) : Type :=
| Ok (a : A)
| Raise (e : PyExc)
| OutOfFuel.

Arguments Ok {A} a.
Arguments Raise {A} e.
Arguments OutOfFuel {A}.

Definition bind {A B : Type} (m : py A) (k : A -> py B) : py B :=
  match m with
  | Ok a => k a
  | Raise e => Raise e
  | OutOfFuel => OutOfFuel
  end.

(** Using a value that may be [None] where an [int] is needed. *)
Definition the_int (o : option Z) : py Z :=
  match o with
  | Some z => Ok z
  | None => Raise TypeError
  end.

End Py.

Import Py.

Notation "x <- m ;; k" := (bind m (fun x => k))
  (at level 61, m at next level, right associativity).

(** An iterator event: a parenthesis and its global position. *)
Definition event : Type := ascii * Z.

(** ** The document, as the iterators read it

    The text document is Qt's, not pyzo's: the model keeps what the
    iterators read of it.  A document is its list of blocks (lines); a block
    has its text and the user data the highlighter attached to it (the token
    list of the line), if any.  A token carries whether it is an instance of
    [ParenthesisToken], its [_style] (for a parenthesis token the lexer
    stores the bracket glyph there) and its [end] offset in the line. *)

Module Qt.

Record Token : Type := mkToken {
  isParenthesisToken : bool;
  _style : ascii;
  tok_end : Z
}.

Record Block : Type := mkBlock {
  text : str;
  userData : option (list Token)
}.

Definition Document : Type := list Block.

(** [block.position()]: the blocks before it, each with its separator. *)
Fixpoint position_of_block (doc : Document) (n : nat) : Z :=
  match n, doc with
  | S n', b :: doc' => len (text b) + 1 + position_of_block doc' n'
  | _, _ => 0
  end.

Definition block_position (doc : Document) (n : Z) : Z :=
  position_of_block doc (Z.to_nat n).

(** [block.isValid()] for the block of number [n]. *)
Definition isValid (doc : Document) (n : Z) : bool :=
  (0 <=? n) && (n <? len doc).

Definition block_at (doc : Document) (n : Z) : option Block :=
  if isValid doc n then nth_error doc (Z.to_nat n) else None.

Definition newline : ascii := ascii_of_nat 10.

(** [document.toPlainText()]. *)
Fixpoint toPlainText (doc : Document) : str :=
  match doc with
  | [] => []
  | [b] => text b
  | b :: doc' => text b ++ newline :: toPlainText doc'
  end.

(** A text cursor without a selection. *)
Record Cursor : Type := mkCursor {
  document : Document;
  position : Z
}.

(** The block of a position and the offset in it: a position belongs to
    the block it is in or at the end of. *)
Fixpoint locate (doc : Document) (p : Z) : Z * Z :=
  match doc with
  | [] => (-1, p)
  | [b] => (0, p)
  | b :: doc' =>
      if p <=? len (text b) then (0, p)
      else let '(n, off) := locate doc' (p - len (text b) - 1) in
           (n + 1, off)
  end.

(** [cursor.block()] as a block number, and [cursor.positionInBlock()]. *)
Definition block (c : Cursor) : Z := fst (locate (document c) (position c)).
Definition positionInBlock (c : Cursor) : Z :=
  snd (locate (document c) (position c)).

End Qt.

(** ** class _ParenIterator *)

Module ParenIterator.

Record t : Type := mk {
  doc : Qt.Document;
  cur_block : Z;
  cur_tokens : list Qt.Token;
  direction : Z;
  cur_pos : Z
}.

(** [_getParenTokens]: the parenthesis tokens of the block, or [[]] when
    the block has no user data. *)
Definition _getParenTokens (d : Qt.Document) (blk : Z) : list Qt.Token :=
  match Qt.block_at d blk with
  | Some b =>
      match Qt.userData b with
      | Some tokens => filter Qt.isParenthesisToken tokens
      | None => []
      end
  | None => []
  end.

(** The search of [__init__]:
    [while self.cur_tokens[k].end != cursor.positionInBlock(): k += 1],
    where running off the list raises IndexError. *)
Fixpoint find_start (tokens : list Qt.Token) (off k : Z) : option Z :=
  match tokens with
  | [] => None
  | tok :: tokens' =>
      if Qt.tok_end tok =? off then Some k
      else find_start tokens' off (k + 1)
  end.

Definition __init__ (cursor : Qt.Cursor) (direction : Z) : py t :=
  let cur_block := Qt.block cursor in
  let cur_tokens := _getParenTokens (Qt.document cursor) cur_block in
  match find_start cur_tokens (Qt.positionInBlock cursor) 0 with
  | Some k => Ok (mk (Qt.document cursor) cur_block cur_tokens direction k)
  | None => Raise _ParenNotFound
  end.

(** The [while] loop of [__next__]; one unit of fuel per block visited. *)
Fixpoint next_block (fuel : nat) (self : t) : py t :=
  if (len (cur_tokens self) <=? cur_pos self) || (cur_pos self <? 0) then
    match fuel with
    | O => OutOfFuel
    | S fuel' =>
        let blk :=
          if direction self =? 1 then cur_block self + 1
          else cur_block self - 1 in
        if negb (Qt.isValid (doc self) blk) then Raise StopIteration
        else
          let tokens := _getParenTokens (doc self) blk in
          let pos := if direction self =? 1 then 0 else len tokens - 1 in
          next_block fuel' (mk (doc self) blk tokens (direction self) pos)
    end
  else Ok self.

Definition __next__ (self : t) : py (event * t) :=
  let self := mk (doc self) (cur_block self) (cur_tokens self)
                 (direction self) (cur_pos self + direction self) in
  self <- next_block (S (length (doc self))) self ;;
  match getitem (cur_tokens self) (cur_pos self) with
  | Some tok =>
      Ok ((Qt._style tok,
           Qt.block_position (doc self) (cur_block self) + Qt.tok_end tok),
          self)
  | None => Raise IndexError
  end.

End ParenIterator.

(** ** class _PlainTextParenIterator *)

Module PlainTextParenIterator.

Record t : Type := mk {
  fulltext : str;
  position : Z;
  direction : Z
}.

Definition __init__ (cursor : Qt.Cursor) (direction : Z) : py t :=
  Ok (mk (Qt.toPlainText (Qt.document cursor)) (Qt.position cursor - 1)
         direction).

(** The [while] loop of [__next__], inside its [try]: an IndexError of
    [self.fulltext[self.position]] becomes StopIteration.  The answer is
    the position the loop stops at. *)
Fixpoint skip (fuel : nat) (fulltext : str) (direction position : Z)
  : py Z :=
  match getitem fulltext position with
  | None => Raise StopIteration
  | Some c =>
      if negb (isin c (lit "([{)]}")) then
        let position := position + direction in
        if position <? 0 then Raise StopIteration
        else
          match fuel with
          | O => OutOfFuel
          | S fuel' => skip fuel' fulltext direction position
          end
      else Ok position
  end.

Definition __next__ (self : t) : py (event * t) :=
  let position := position self + direction self in
  position <- skip (2 * length (fulltext self) + 1) (fulltext self)
                   (direction self) position ;;
  match getitem (fulltext self) position with
  | Some c =>
      Ok ((c, position + 1), mk (fulltext self) position (direction self))
  | None => Raise IndexError
  end.

End PlainTextParenIterator.

(** ** class HighlightMatchingBracket *)

Module HighlightMatchingBracket.

Inductive _MatchStatus : Type := NoMatch | Match | MisMatch.

Record _MatchResult : Type := mkResult {
  status : _MatchStatus;
  corresponding : option Z;
  offending : option Z
}.

(** What the methods read of the editor: the name of the parser in use
    ([None] when [parser()] is None) and the two options. *)
Record Editor : Type := mkEditor {
  parser : option string;
  highlightMatchingBracket : bool;
  highlightMisMatchingBracket : bool
}.

Definition _BRACKS_OPEN : str := lit "([{".
Definition _BRACKS_CLOSE : str := lit ")]}".
Definition _BRACKS : str := _BRACKS_OPEN ++ _BRACKS_CLOSE.
Definition _matchingBrackets : list (ascii * ascii) :=
  dict_zip (_BRACKS_OPEN ++ _BRACKS_CLOSE) (_BRACKS_CLOSE ++ _BRACKS_OPEN).

(** The iterator class chosen by [_findMatchingBracket]. *)
Inductive Iterator : Type :=
| Tokenized (it : ParenIterator.t)
| PlainText (it : PlainTextParenIterator.t).

Definition uses_parser (self : Editor) : bool :=
  match parser self with
  | Some name => negb (String.eqb name "")
  | None => false
  end.

Definition our_iterator (self : Editor) (cursor : Qt.Cursor) (direction : Z)
  : py Iterator :=
  if uses_parser self then
    it <- ParenIterator.__init__ cursor direction ;; Ok (Tokenized it)
  else
    it <- PlainTextParenIterator.__init__ cursor direction ;;
    Ok (PlainText it).

Definition next (it : Iterator) : py (event * Iterator) :=
  match it with
  | Tokenized it =>
      r <- ParenIterator.__next__ it ;; Ok (fst r, Tokenized (snd r))
  | PlainText it =>
      r <- PlainTextParenIterator.__next__ it ;; Ok (fst r, PlainText (snd r))
  end.

(** One pass through the body of the [for] loop.  [stacked_paren] is the
    Python list used as a stack: its head is [stacked_paren[-1]]. *)
Inductive LoopStep : Type :=
| Continue (stacked_paren : list event)
| Return (r : _MatchResult)
| Throw (e : PyExc).

Definition conclude (stacked_paren : list event) (pos : Z) : LoopStep :=
  match stacked_paren with
  | [] => Return (mkResult Match (Some pos) None)
  | _ => Continue stacked_paren
  end.

Definition loop_body (stacking unstacking : str)
    (stacked_paren : list event) (paren : ascii) (pos : Z) : LoopStep :=
  if isin paren stacking then
    conclude ((paren, pos) :: stacked_paren) pos
  else if isin paren unstacking then
    match stacked_paren with
    | [] => Throw IndexError
    | (top, top_pos) :: rest =>
        match dict_get _matchingBrackets top with
        | None => Throw KeyError
        | Some partner =>
            if negb (Ascii.eqb partner paren) then
              Return (mkResult MisMatch (Some pos) (Some top_pos))
            else conclude rest pos
        end
    end
  else conclude stacked_paren pos.

(** The [for] loop over an iterator of state [St]; the answer carries the
    iterator as the loop leaves it.  One unit of fuel per call of
    [__next__]. *)
Section ForLoop.

Context {St : Type} (nxt : St -> py (event * St)).
Variables stacking unstacking : str.

Fixpoint for_loop (fuel : nat) (stacked_paren : list event) (it : St)
  : py (_MatchResult * St) :=
  match fuel with
  | O => OutOfFuel
  | S fuel' =>
      match nxt it with
      | Ok ((paren, pos), it') =>
          match loop_body stacking unstacking stacked_paren paren pos with
          | Continue stacked_paren' => for_loop fuel' stacked_paren' it'
          | Return r => Ok (r, it')
          | Throw e => Raise e
          end
      | Raise StopIteration => Ok (mkResult NoMatch None None, it)
      | Raise e => Raise e
      | OutOfFuel => OutOfFuel
      end
  end.

End ForLoop.

(** Fuel for the loop: more than the number of events an iterator has. *)
Definition paren_count (d : Qt.Document) : nat :=
  length (flat_map (fun n => ParenIterator._getParenTokens d (Z.of_nat n))
                   (seq 0 (length d))).

Definition scan_fuel (it : Iterator) : nat :=
  match it with
  | Tokenized it => S (paren_count (ParenIterator.doc it))
  | PlainText it => 2 * length (PlainTextParenIterator.fulltext it) + 2
  end.

(** [(direction, stacking, unstacking)] for the start character. *)
Definition roles (char : ascii) : py (Z * str * str) :=
  if isin char _BRACKS_CLOSE then Ok (-1, _BRACKS_CLOSE, _BRACKS_OPEN)
  else if isin char _BRACKS_OPEN then Ok (1, _BRACKS_OPEN, _BRACKS_CLOSE)
  else Raise ValueError.

(** [_findMatchingBracket], with the iterator as the loop leaves it. *)
Definition scan (self : Editor) (char : ascii) (cursor : Qt.Cursor)
  : py (_MatchResult * Iterator) :=
  r <- roles char ;;
  let '(direction, stacking, unstacking) := r in
  let stacked_paren := [(char, Qt.position cursor)] in
  it <- our_iterator self cursor direction ;;
  for_loop next stacking unstacking (scan_fuel it) stacked_paren it.

Definition _findMatchingBracket (self : Editor) (char : ascii)
    (cursor : Qt.Cursor) : py _MatchResult :=
  r <- scan self char cursor ;; Ok (fst r).

(** *** paintEvent

    A call of [_highlightSingleChar] is kept as the position of the cursor
    it is given and the name of the style element. *)
Definition highlight : Type := Z * string.

Definition Unmatched : string := "editor.highlightUnmatchedBracket".
Definition MatchedPair : string := "editor.highlightMatchingBracket".
Definition MismatchedPair : string := "editor.highlightMisMatchingBracket".

Definition int_neq_opt (a : Z) (b : option Z) : bool :=
  match b with
  | Some b => negb (a =? b)
  | None => true
  end.

(** The branches on [match_res.status] (lines 374 to 411); [pos] is
    [cursor.position()]. *)
Definition paint_result (self : Editor) (pos : Z) (match_res : _MatchResult)
  : py (list highlight) :=
  match status match_res with
  | NoMatch => Ok [(pos, Unmatched)]
  | Match =>
      c <- the_int (corresponding match_res) ;;
      Ok [(pos, MatchedPair); (c, MatchedPair)]
  | MisMatch =>
      let first :=
        if int_neq_opt pos (offending match_res)
           || negb (highlightMisMatchingBracket self)
        then [(pos, Unmatched)] else [] in
      if highlightMisMatchingBracket self then
        c <- the_int (corresponding match_res) ;;
        o <- the_int (offending match_res) ;;
        Ok (first ++ [(c, MismatchedPair); (o, MismatchedPair)])
      else Ok first
  end.

(** The part of [paintEvent] from [if char in self._BRACKS:] on, with its
    [try] and [except _ParenNotFound: pass]; [cursor] is the cursor as
    [paintEvent] has placed it, to the right of [char]. *)
Definition paint_bracket (self : Editor) (char : ascii) (cursor : Qt.Cursor)
  : py (list highlight) :=
  if negb (highlightMatchingBracket self) then Ok []
  else if isin char _BRACKS then
    match _findMatchingBracket self char cursor with
    | Ok match_res => paint_result self (Qt.position cursor) match_res
    | Raise _ParenNotFound => Ok []
    | Raise e => Raise e
    | OutOfFuel => OutOfFuel
    end
  else Ok [].

End HighlightMatchingBracket.

Import HighlightMatchingBracket.

(** ** HighlightMatchingBracket.paintEvent, from its start

    The part of [paintEvent] before [if char in self._BRACKS:] moves a copy
    of the text cursor and picks the character to query.  It uses three more
    operations of Qt's text cursor, on a cursor without a selection (the
    method clears the selection of its copy first). *)

Module QtCursor.

(** [cursor.atBlockStart()]. *)
Definition atBlockStart (c : Qt.Cursor) : bool := Qt.positionInBlock c =? 0.

(** [cursor.movePosition(cursor.MoveOperation.Right)]: one character to the
    right, and no move at the end of the document. *)
Definition moveRight (c : Qt.Cursor) : Qt.Cursor :=
  if Qt.position c <? len (Qt.toPlainText (Qt.document c)) then
    Qt.mkCursor (Qt.document c) (Qt.position c + 1)
  else c.

(** [cursor.block().text()]; an invalid block has the empty text. *)
Definition blockText (c : Qt.Cursor) : str :=
  match Qt.block_at (Qt.document c) (Qt.block c) with
  | Some b => Qt.text b
  | None => []
  end.

End QtCursor.

Module MatchingBracketPaint.

(** The character and the cursor [paintEvent] queries, if any: lines 341 to
    362.  [text[pos]] is Python's indexing, [pos] being -1 for a cursor at
    the start of its block. *)
Definition query (textCursor : Qt.Cursor) : py (option (ascii * Qt.Cursor)) :=
  let movedRight := QtCursor.atBlockStart textCursor in
  let cursor :=
    if movedRight then QtCursor.moveRight textCursor else textCursor in
  let text := QtCursor.blockText cursor in
  let pos := Qt.positionInBlock cursor - 1 in
  if (pos <? len text) && (0 <? len text) then
    match getitem text pos with
    | None => Raise IndexError
    | Some char =>
        if negb movedRight && negb (isin char _BRACKS)
           && (pos + 1 <? len text)
        then
          match getitem text (pos + 1) with
          | None => Raise IndexError
          | Some char' => Ok (Some (char', QtCursor.moveRight cursor))
          end
        else Ok (Some (char, cursor))
    end
  else Ok None.

(** [paintEvent]: the highlights it paints for the text cursor of the
    editor. *)
Definition paintEvent (self : Editor) (textCursor : Qt.Cursor)
  : py (list highlight) :=
  if negb (highlightMatchingBracket self) then Ok []
  else
    q <- query textCursor ;;
    match q with
    | Some (char, cursor) => paint_bracket self char cursor
    | None => Ok []
    end.

End MatchingBracketPaint.

(** ** class BreakPoints

    The dictionary [_breakPoints] maps a line number to a tuple
    [(enabled, block, blockPrev, blockNext)].  A Python dictionary is kept as
    the list of its items in insertion order; a text block is kept as its
    block number in [document], -1 for an invalid block; a
    [QTextBlockUserData()] without attributes is the user data with no
    tokens.  The signals a method emits are the second component of its
    answer. *)

Module PyDict.

Section Dict.

Context {V : Type}.

Definition dict : Type := list (Z * V).

(** [d.get(k)]; [k in d]. *)
Fixpoint get (d : dict) (k : Z) : option V :=
  match d with
  | [] => None
  | (k', v) :: d' => if k =? k' then Some v else get d' k
  end.

Definition contains (d : dict) (k : Z) : bool :=
  match get d k with
  | Some _ => true
  | None => false
  end.

(** [del d[k]]. *)
Definition remove (d : dict) (k : Z) : dict :=
  filter (fun kv => negb (fst kv =? k)) d.

(** [d[k] = v]: the value is replaced in place, a new key comes last. *)
Fixpoint set_item (d : dict) (k : Z) (v : V) : dict :=
  match d with
  | [] => [(k, v)]
  | (k', v') :: d' =>
      if k =? k' then (k, v) :: d' else (k', v') :: set_item d' k v
  end.

End Dict.

(** [sorted(l)]: the stable insertion of every element in its place. *)
Section Sorted.

Context {A : Type} (leb : A -> A -> bool).

Fixpoint insert (x : A) (l : list A) : list A :=
  match l with
  | [] => [x]
  | y :: l' => if leb x y then x :: l else y :: insert x l'
  end.

Definition sorted (l : list A) : list A := fold_right insert [] l.

End Sorted.

(** The order of Python on the tuples [(linenr, enabled)]. *)
Definition tuple_leb (a b : Z * bool) : bool :=
  (fst a <? fst b) || ((fst a =? fst b) && implb (snd a) (snd b)).

(** [max(l, default=None)] and [min(l, default=None)]. *)
Definition max_default (l : list Z) : option Z :=
  match l with
  | [] => None
  | x :: l' => Some (fold_left Z.max l' x)
  end.

Definition min_default (l : list Z) : option Z :=
  match l with
  | [] => None
  | x :: l' => Some (fold_left Z.min l' x)
  end.

End PyDict.

Module BreakPoints.

Inductive Signal : Type := breakPointsChanged | areaUpdate.

Definition breakPoint : Type := bool * Z * Z * Z.

Record t : Type := mk {
  _breakPoints : @PyDict.dict breakPoint;
  document : Qt.Document;
  (** [self.textCursor().blockNumber()] *)
  blockNumber : Z;
  _debugLineIndicator : Z;
  (** a Python set, kept as the list of its elements *)
  _debugLineIndicators : list Z
}.

(** The number of a block, -1 when it is not valid. *)
Definition number_of (d : Qt.Document) (n : Z) : Z :=
  if Qt.isValid d n then n else -1.

(** The block of the cursor after [movePosition(Start)] and
    [movePosition(NextBlock, MoveAnchor, linenr - 1)]: a move past the last
    block is not made. *)
Definition block_of_line (d : Qt.Document) (linenr : Z) : Z :=
  number_of d (Z.min (Z.max (linenr - 1) 0) (len d - 1)).

(** [b.setUserData(QtGui.QTextBlockUserData())] when [b.userData()] is
    None. *)
Definition ensure_user_data (blk : Qt.Block) : Qt.Block :=
  match Qt.userData blk with
  | None => Qt.mkBlock (Qt.text blk) (Some [])
  | Some _ => blk
  end.

Fixpoint update_block (d : Qt.Document) (n : nat) : Qt.Document :=
  match d, n with
  | [], _ => []
  | blk :: d', O => ensure_user_data blk :: d'
  | blk :: d', S n' => blk :: update_block d' n'
  end.

Definition mark_block (d : Qt.Document) (b : Z) : Qt.Document :=
  if Qt.isValid d b then update_block d (Z.to_nat b) else d.

(** [breakPoints(triState=False)] and [breakPoints(triState=True)]. *)
Definition breakPoints (self : t) : list Z :=
  PyDict.sorted Z.leb
    (map fst (filter (fun item => fst (fst (fst (snd item))))
                     (_breakPoints self))).

Definition breakPoints_triState (self : t) : list (Z * bool) :=
  PyDict.sorted PyDict.tuple_leb
    (map (fun item => (fst item, fst (fst (fst (snd item)))))
         (_breakPoints self)).

(** [toggleBreakpoint(linenr, triState)]; [linenr] is None for the line of
    the text cursor. *)
Definition toggleBreakpoint (self : t) (linenr : option Z) (triState : bool)
  : t * list Signal :=
  let linenr :=
    match linenr with
    | Some n => n
    | None => blockNumber self + 1
    end in
  let popped := PyDict.remove (_breakPoints self) linenr in
  let entry : option breakPoint :=
    match PyDict.get (_breakPoints self) linenr with
    | Some (enabled, b, bPrev, bNext) =>
        if triState && enabled then Some (false, b, bPrev, bNext) else None
    | None =>
        let b := block_of_line (document self) linenr in
        Some (true, b, number_of (document self) (b - 1),
              number_of (document self) (b + 1))
    end in
  let self' :=
    match entry with
    | Some (enabled, b, bPrev, bNext) =>
        mk (PyDict.set_item popped linenr (enabled, b, bPrev, bNext))
           (mark_block (document self) b) (blockNumber self)
           (_debugLineIndicator self) (_debugLineIndicators self)
    | None =>
        mk popped (document self) (blockNumber self)
           (_debugLineIndicator self) (_debugLineIndicators self)
    end in
  (self', [breakPointsChanged; areaUpdate]).

(** [clearBreakPoints]: the loop over [self.breakPoints()]. *)
Definition clearBreakPoints (self : t) : t * list Signal :=
  fold_left
    (fun acc linenr =>
       let '(self', signals) := toggleBreakpoint (fst acc) (Some linenr) false
       in (self', snd acc ++ signals))
    (breakPoints self) (self, []).

(** [jumpPreviousBreakpoint] and [jumpNextBreakpoint]: the line [gotoLine]
    is called with, if it is called. *)
Definition jumpPreviousBreakpoint (self : t) : option Z :=
  let currentLinenr := blockNumber self + 1 in
  PyDict.max_default
    (filter (fun linenr => linenr <? currentLinenr)
            (map fst (_breakPoints self))).

Definition jumpNextBreakpoint (self : t) : option Z :=
  let currentLinenr := blockNumber self + 1 in
  PyDict.min_default
    (filter (fun linenr => currentLinenr <? linenr)
            (map fst (_breakPoints self))).

(** Python sets: [x in s], [s.discard(x)], [s.add(x)]. *)
Definition set_mem (x : Z) (s : list Z) : bool := existsb (Z.eqb x) s.
Definition set_discard (x : Z) (s : list Z) : list Z :=
  filter (fun y => negb (y =? x)) s.
Definition set_add (x : Z) (s : list Z) : list Z :=
  if set_mem x s then s else x :: s.

(** [setDebugLineIndicator(linenr, active)]; [linenr] may be None. *)
Definition setDebugLineIndicator (self : t) (linenr : option Z)
    (active : bool) : t * list Signal :=
  let linenr :=
    match linenr with
    | Some n => n
    | None => 0
    end in
  if linenr =? 0 then
    if negb (_debugLineIndicator self =? 0)
       || negb (match _debugLineIndicators self with [] => true | _ => false end)
    then
      (mk (_breakPoints self) (document self) (blockNumber self) 0 [],
       [areaUpdate])
    else (self, [])
  else if active then
    if negb (linenr =? _debugLineIndicator self) then
      (mk (_breakPoints self) (document self) (blockNumber self) linenr
          (set_discard linenr (_debugLineIndicators self)),
       [areaUpdate])
    else (self, [])
  else
    if negb (set_mem linenr (_debugLineIndicators self)) then
      (mk (_breakPoints self) (document self) (blockNumber self)
          (_debugLineIndicator self)
          (set_add linenr (_debugLineIndicators self)),
       [areaUpdate])
    else (self, []).

End BreakPoints.

(** ** Notions the statements use *)

(** The finite sequence of events an iterator gives before it raises
    StopIteration. *)
Inductive yields {St : Type} (nxt : St -> py (event * St))
  : St -> list event -> Prop :=
| yields_stop it :
    nxt it = Raise StopIteration -> yields nxt it []
| yields_event it e it' evs :
    nxt it = Ok (e, it') -> yields nxt it' evs -> yields nxt it (e :: evs).

(** The states [(stacked_paren, iterator)] the [for] loop is in at the
    start of an iteration. *)
Inductive reaches {St : Type} (nxt : St -> py (event * St))
    (stacking unstacking : str)
  : list event * St -> list event * St -> Prop :=
| reaches_here s : reaches nxt stacking unstacking s s
| reaches_next stack it paren pos it' stack' s :
    nxt it = Ok ((paren, pos), it') ->
    loop_body stacking unstacking stack paren pos = Continue stack' ->
    reaches nxt stacking unstacking (stack', it') s ->
    reaches nxt stacking unstacking (stack, it) s.

(** The [for] loop over a given sequence of events. *)
Fixpoint scan_events (stacking unstacking : str) (stacked_paren : list event)
    (evs : list event) : py _MatchResult :=
  match evs with
  | [] => Ok (mkResult NoMatch None None)
  | (paren, pos) :: evs' =>
      match loop_body stacking unstacking stacked_paren paren pos with
      | Continue stacked_paren' =>
          scan_events stacking unstacking stacked_paren' evs'
      | Return r => Ok r
      | Throw e => Raise e
      end
  end.

(** The invariant of the stack: every entry is a stacking bracket and there
    is one at least. *)
Definition stack_ok (stacking : str) (stack : list event) : Prop :=
  stack <> [] /\ Forall (fun e => isin (fst e) stacking = true) stack.

(** The brackets of a text with the positions of the cursor to their
    right, for a text that starts at offset [base]. *)
Fixpoint text_events (s : str) (base : Z) : list event :=
  match s with
  | [] => []
  | c :: s' =>
      if isin c _BRACKS then (c, base + 1) :: text_events s' (base + 1)
      else text_events s' (base + 1)
  end.

(** The three bracket families. *)
Definition bracket_pairs : list (ascii * ascii) :=
  [("("%char, ")"%char); ("["%char, "]"%char); ("{"%char, "}"%char)].

(** A text whose brackets are balanced: no bracket of it is unmatched.
    Characters that are no brackets may stand anywhere. *)
Inductive balanced : str -> Prop :=
| balanced_nil : balanced []
| balanced_char c w :
    isin c _BRACKS = false -> balanced w -> balanced (c :: w)
| balanced_pair o c w1 w2 :
    In (o, c) bracket_pairs -> balanced w1 -> balanced w2 ->
    balanced (o :: w1 ++ c :: w2).

(** Modelled from the spec: the lexer (pyzo/codeeditor/parsers) is outside
    the files embedded here.  For a line with no string or comment content
    it classifies every bracket glyph as a parenthesis token that ends right
    after the glyph; [lex_line line off] are these tokens for a line whose
    first character has offset [off]. *)
Fixpoint lex_line (line : str) (off : Z) : list Qt.Token :=
  match line with
  | [] => []
  | c :: line' =>
      if isin c _BRACKS then
        Qt.mkToken true c (off + 1) :: lex_line line' (off + 1)
      else lex_line line' (off + 1)
  end.

(** A block whose attached tokens are the ones of such a line. *)
Definition lexed (b : Qt.Block) : Prop :=
  exists tokens,
    Qt.userData b = Some tokens /\
    filter Qt.isParenthesisToken tokens = lex_line (Qt.text b) 0.

(** *** Documents and editors of the examples *)

(** A one-line text without tokens; one line and several lines with the
    tokens of their brackets. *)
Definition plain_line (s : string) : Qt.Document := [Qt.mkBlock (lit s) None].

Definition lexed_line (s : string) : Qt.Document :=
  [Qt.mkBlock (lit s) (Some (lex_line (lit s) 0))].

Definition lexed_lines (ls : list string) : Qt.Document :=
  map (fun s => Qt.mkBlock (lit s) (Some (lex_line (lit s) 0))) ls.

Definition two_lines : Qt.Document :=
  lexed_lines ["(["%string; "])"%string].

(** [n] opening and then [n] closing round brackets. *)
Definition nested (n : nat) : Qt.Document :=
  [Qt.mkBlock (repeat "("%char n ++ repeat ")"%char n) None].

(** The line ['('], lexed as one string token. *)
Definition quoted_bracket : Qt.Document :=
  [Qt.mkBlock (lit "'('") (Some [Qt.mkToken false "'"%char 3])].

(** The same line and then the line [)]. *)
Definition string_then_closer : Qt.Document :=
  [Qt.mkBlock (lit "'('") (Some [Qt.mkToken false "'"%char 3]);
   Qt.mkBlock (lit ")") (Some (lex_line (lit ")") 0))].

(** An editor without a parser and one with the Python parser. *)
Definition no_parser : Editor := mkEditor None true true.

Definition python_parser : Editor := mkEditor (Some "python"%string) true true.

(** The events of the parenthesis tokens of a block, and the events of
    the blocks [from], ..., [from + count - 1] in the order of the text. *)
Definition block_events (d : Qt.Document) (n : Z) (tokens : list Qt.Token)
  : list event :=
  map (fun tok => (Qt._style tok, Qt.block_position d n + Qt.tok_end tok))
      tokens.

Definition events_of_block (d : Qt.Document) (n : nat) : list event :=
  block_events d (Z.of_nat n) (ParenIterator._getParenTokens d (Z.of_nat n)).

Definition doc_events (d : Qt.Document) (from count : nat) : list event :=
  flat_map (events_of_block d) (seq from count).

(** The text of the blocks before a block and of the blocks after it, with
    the separators between them and that block. *)
Definition text_before (blocks : list Qt.Block) : str :=
  flat_map (fun a => Qt.text a ++ [Qt.newline]) blocks.

Definition text_after (blocks : list Qt.Block) : str :=
  flat_map (fun a => Qt.newline :: Qt.text a) blocks.

(** The cursor to the right of a character of the block [b] of the document
    [pre ++ b :: post]: the character that follows the first characters
    [t1] of the block. *)
Definition cursor_right_of (pre : list Qt.Block) (b : Qt.Block)
    (post : list Qt.Block) (t1 : str) : Qt.Cursor :=
  Qt.mkCursor (pre ++ b :: post) (len (text_before pre) + len t1 + 1).

(** A bound on the number of events a plain-text iterator still has. *)
Definition in_range (s : str) (p : Z) : bool := (- len s <=? p) && (p <? len s).

Definition plain_measure (it : PlainTextParenIterator.t) : nat :=
  let s := PlainTextParenIterator.fulltext it in
  let p := PlainTextParenIterator.position it in
  let d := PlainTextParenIterator.direction it in
  if in_range s (p + d) then
    Z.to_nat (if d =? 1 then len s - p else p + len s + 1)
  else O.

(** The directions [_findMatchingBracket] passes to an iterator. *)
Definition is_direction (d : Z) : Prop := d = 1 \/ d = -1.

(** The answers [_findMatchingBracket] builds: [NoMatch] without a
    position, [Match] with the corresponding one, [MisMatch] with both. *)
Definition well_formed (r : _MatchResult) : bool :=
  match status r, corresponding r, offending r with
  | NoMatch, None, None => true
  | Match, Some _, None => true
  | MisMatch, Some _, Some _ => true
  | _, _, _ => false
  end.

(** *** Breakpoints *)

(** The line numbers that have a breakpoint, and the enabled flag of a
    line, if it has one. *)
Definition lines (self : BreakPoints.t) : list Z :=
  map fst (BreakPoints._breakPoints self).

Definition enabled_at (self : BreakPoints.t) (linenr : Z) : option bool :=
  option_map (fun bp : BreakPoints.breakPoint => fst (fst (fst bp)))
             (PyDict.get (BreakPoints._breakPoints self) linenr).

(** The keys of a dictionary are distinct. *)
Definition is_dict (self : BreakPoints.t) : Prop := NoDup (lines self).

(** What [toggleBreakpoint] takes care of: the block stored with a
    breakpoint, when it is valid, has user data. *)
Definition has_user_data (d : Qt.Document) (b : Z) : Prop :=
  exists blk tokens,
    Qt.block_at d b = Some blk /\ Qt.userData blk = Some tokens.

Definition blocks_marked (self : BreakPoints.t) : Prop :=
  forall linenr enabled b bPrev bNext,
    PyDict.get (BreakPoints._breakPoints self) linenr
    = Some (enabled, b, bPrev, bNext) ->
    Qt.isValid (BreakPoints.document self) b = true ->
    has_user_data (BreakPoints.document self) b.

(** An editor of three lines with breakpoints on the lines 3 (enabled) and
    1 (disabled), set in this order, and the cursor in the second line. *)
Definition three_lines : Qt.Document :=
  [Qt.mkBlock (lit "a") (Some []); Qt.mkBlock (lit "b") None;
   Qt.mkBlock (lit "c") (Some [])].

Definition two_breakpoints : BreakPoints.t :=
  BreakPoints.mk [(3, (true, 2, 1, -1)); (1, (false, 0, -1, 1))]
                 three_lines 1 0 [].

(** * Lemmas *)

(** ** The start character *)

Lemma isin_In (c : ascii) (s : str) : isin c s = true <-> In c s.
Proof.
  unfold isin; rewrite existsb_exists; split.
  - intros (x & Hx & Heq); apply Ascii.eqb_eq in Heq; now subst.
  - intros H; exists c; split; [assumption | apply Ascii.eqb_refl].
Qed.

Lemma isin_not_In (c : ascii) (s : str) : isin c s = false <-> ~ In c s.
Proof.
  rewrite <- isin_In; destruct (isin c s); split; congruence.
Qed.

Lemma roles_inv char d stacking unstacking :
  roles char = Ok (d, stacking, unstacking) ->
  (d = -1 /\ stacking = _BRACKS_CLOSE /\ unstacking = _BRACKS_OPEN) \/
  (d = 1 /\ stacking = _BRACKS_OPEN /\ unstacking = _BRACKS_CLOSE).
Proof.
  unfold roles; intros H.
  destruct (isin char _BRACKS_CLOSE); [left; inversion H; auto|].
  destruct (isin char _BRACKS_OPEN); [right; inversion H; auto|discriminate].
Qed.

Lemma roles_stacking char d stacking unstacking :
  roles char = Ok (d, stacking, unstacking) -> isin char stacking = true.
Proof.
  unfold roles; intros H.
  destruct (isin char _BRACKS_CLOSE) eqn:Hc; [inversion H; now subst|].
  destruct (isin char _BRACKS_OPEN) eqn:Ho; [inversion H; now subst|].
  discriminate.
Qed.

(** ** The invariant of the stack *)

Section StackInvariant.

Context {St : Type} (nxt : St -> py (event * St)).
Variables (char : ascii) (d : Z) (stacking unstacking : str).
Hypothesis Hroles : roles char = Ok (d, stacking, unstacking).

Lemma stacking_has_partner c :
  isin c stacking = true -> exists p, dict_get _matchingBrackets c = Some p.
Proof.
  intros H; apply isin_In in H.
  destruct (roles_inv _ _ _ _ Hroles) as [(_ & -> & _)|(_ & -> & _)];
    cbn in H; decompose [or] H; subst; try contradiction;
    eexists; reflexivity.
Qed.

Lemma loop_body_keeps stack paren pos stack' :
  stack_ok stacking stack ->
  loop_body stacking unstacking stack paren pos = Continue stack' ->
  stack_ok stacking stack'.
Proof.
  intros [Hne Hall]; unfold loop_body.
  destruct (isin paren stacking) eqn:Hs.
  - cbn; intros [= <-]; split; [discriminate|].
    constructor; [exact Hs | exact Hall].
  - destruct (isin paren unstacking).
    + destruct stack as [|[top top_pos] rest]; [discriminate|].
      destruct (dict_get _matchingBrackets top); [|discriminate].
      destruct (negb (Ascii.eqb a paren)); [discriminate|].
      destruct rest; cbn; [discriminate|].
      intros [= <-]; split; [discriminate | now inversion Hall].
    + destruct stack; [contradiction|].
      cbn; intros [= <-]; split; [discriminate | exact Hall].
Qed.

Lemma loop_body_no_throw stack paren pos e :
  stack_ok stacking stack ->
  loop_body stacking unstacking stack paren pos <> Throw e.
Proof.
  intros [Hne Hall]; unfold loop_body.
  destruct (isin paren stacking); [discriminate|].
  destruct stack as [|[top top_pos] rest]; [contradiction|].
  destruct (isin paren unstacking); [|discriminate].
  inversion Hall as [|? ? Htop _]; subst; cbn in Htop.
  destruct (stacking_has_partner _ Htop) as [p ->].
  destruct (negb (Ascii.eqb p paren)); [discriminate|].
  destruct rest; discriminate.
Qed.

Lemma loop_body_match stack paren pos p o :
  stack_ok stacking stack ->
  loop_body stacking unstacking stack paren pos
  = Return (mkResult Match p o) ->
  p = Some pos /\
  exists top top_pos,
    stack = [(top, top_pos)] /\
    dict_get _matchingBrackets top = Some paren.
Proof.
  intros [Hne Hall]; unfold loop_body.
  destruct (isin paren stacking); [discriminate|].
  destruct stack as [|[top top_pos] rest]; [contradiction|].
  destruct (isin paren unstacking); [|discriminate].
  destruct (dict_get _matchingBrackets top) as [partner|] eqn:Hd;
    [|discriminate].
  destruct (Ascii.eqb partner paren) eqn:Heq; cbn; [|discriminate].
  apply Ascii.eqb_eq in Heq; subst partner.
  destruct rest; cbn; [|discriminate].
  intros [= <- <-]; split; [reflexivity|].
  now exists top, top_pos.
Qed.

Lemma reaches_keeps s1 s2 :
  reaches nxt stacking unstacking s1 s2 ->
  stack_ok stacking (fst s1) -> stack_ok stacking (fst s2).
Proof.
  induction 1 as [s|stack it paren pos it' stack' s Hn Hb _ IH];
    [trivial|].
  intros Hok; apply IH; cbn in *.
  eapply loop_body_keeps; eassumption.
Qed.

Lemma start_stack_ok p0 : stack_ok stacking [(char, p0)].
Proof.
  split; [discriminate|].
  constructor; [|constructor].
  exact (roles_stacking _ _ _ _ Hroles).
Qed.

End StackInvariant.

(** ** A bracket that is in no token *)

Lemma find_start_none tokens off k :
  (forall tok, In tok tokens -> Qt.tok_end tok <> off) ->
  ParenIterator.find_start tokens off k = None.
Proof.
  revert k; induction tokens as [|tok tokens IH]; intros k H; cbn;
    [reflexivity|].
  destruct (Z.eqb_spec (Qt.tok_end tok) off) as [Heq|_].
  - exfalso; apply (H tok); [now left | exact Heq].
  - apply IH; intros tok' Hin; apply H; now right.
Qed.

(** ** The loop and the events of its iterator *)

Section Loop.

Context {St : Type} (nxt : St -> py (event * St)).
Variables stacking unstacking : str.

Lemma yields_det it evs1 evs2 :
  yields nxt it evs1 -> yields nxt it evs2 -> evs1 = evs2.
Proof.
  intros H1; revert evs2.
  induction H1 as [it Hs|it e it' evs Hn _ IH]; intros evs2 H2;
    inversion H2; subst; try congruence.
  assert (Heq : (e, it') = (e0, it'0)) by congruence.
  injection Heq as <- <-; f_equal; now apply IH.
Qed.

Lemma for_loop_yields it evs :
  yields nxt it evs ->
  forall fuel stack,
    (length evs < fuel)%nat ->
    (r <- for_loop nxt stacking unstacking fuel stack it ;; Ok (fst r))
    = scan_events stacking unstacking stack evs.
Proof.
  induction 1 as [it Hs|it [paren pos] it' evs Hn _ IH];
    intros [|fuel] stack Hlt; try (exfalso; cbn in Hlt; lia); cbn.
  - now rewrite Hs.
  - rewrite Hn.
    destruct (loop_body stacking unstacking stack paren pos);
      try reflexivity.
    apply IH; cbn in Hlt; lia.
Qed.

(** From a state the loop reaches, the loop goes on as from the start,
    with the fuel the events in between have used. *)
Lemma reaches_for_loop s0 s :
  reaches nxt stacking unstacking s0 s ->
  forall evs,
    yields nxt (snd s0) evs ->
    exists evs1 evs2,
      evs = evs1 ++ evs2 /\
      yields nxt (snd s) evs2 /\
      forall fuel,
        for_loop nxt stacking unstacking (length evs1 + fuel)
                 (fst s0) (snd s0)
        = for_loop nxt stacking unstacking fuel (fst s) (snd s).
Proof.
  induction 1 as [s|stack it paren pos it' stack' s Hn Hb _ IH];
    intros evs Hy.
  - exists [], evs; split; [reflexivity | split; [exact Hy | reflexivity]].
  - cbn in Hy; inversion Hy as [? Hs|? e it2 evs' Hn' Hy']; subst;
      [congruence|].
    assert (Heq : (e, it2) = ((paren, pos), it')) by congruence.
    injection Heq as -> ->.
    destruct (IH evs' Hy') as (evs1 & evs2 & -> & Hy2 & Hfuel).
    exists ((paren, pos) :: evs1), evs2.
    split; [reflexivity | split; [exact Hy2|]].
    intros fuel; cbn; now rewrite Hn, Hb, <- Hfuel.
Qed.

(** Events that are always fewer than a measure, which every call of
    [__next__] lowers. *)
Variable good : St -> Prop.
Variable measure : St -> nat.
Hypothesis next_good :
  forall it, good it ->
    nxt it = Raise StopIteration \/
    exists e it', nxt it = Ok (e, it') /\ good it' /\
                  (measure it' < measure it)%nat.

Lemma yields_measure it :
  good it ->
  exists evs, yields nxt it evs /\ (length evs <= measure it)%nat.
Proof.
  remember (measure it) as m eqn:Hm.
  revert it Hm; induction m as [m IH] using lt_wf_ind; intros it -> Hg.
  destruct (next_good it Hg) as [Hs|(e & it' & Hn & Hg' & Hlt)].
  - exists []; split; [now constructor | cbn; lia].
  - destruct (IH _ Hlt it' eq_refl Hg') as (evs & Hy & Hlen).
    exists (e :: evs); split; [econstructor; eassumption | cbn; lia].
Qed.

End Loop.

(** ** Lists, lengths and indices *)

Lemma len_nil {A : Type} : len (@nil A) = 0.
Proof. reflexivity. Qed.

Lemma len_cons {A : Type} (x : A) (l : list A) : len (x :: l) = len l + 1.
Proof. unfold len; cbn [length]; lia. Qed.

Lemma len_app {A : Type} (l1 l2 : list A) : len (l1 ++ l2) = len l1 + len l2.
Proof. unfold len; rewrite length_app; lia. Qed.

Lemma len_nonneg {A : Type} (l : list A) : 0 <= len l.
Proof. unfold len; lia. Qed.

Lemma getitem_range {A : Type} (l : list A) (i : Z) (x : A) :
  getitem l i = Some x -> - len l <= i < len l.
Proof.
  unfold getitem, len; intros H.
  destruct (Z.leb_spec 0 i).
  - assert (Z.to_nat i < length l)%nat
      by (apply nth_error_Some; congruence).
    lia.
  - destruct (Z.leb_spec (- Z.of_nat (length l)) i); [lia | discriminate].
Qed.

Lemma getitem_middle {A : Type} (pre : list A) (x : A) (rest : list A) :
  getitem (pre ++ x :: rest) (len pre) = Some x.
Proof.
  unfold getitem, len.
  destruct (Z.leb_spec 0 (Z.of_nat (length pre))); [|lia].
  rewrite Nat2Z.id, nth_error_app2, Nat.sub_diag; [reflexivity | lia].
Qed.

Lemma getitem_end {A : Type} (l : list A) (i : Z) :
  len l <= i -> getitem l i = None.
Proof.
  unfold getitem, len; intros H.
  destruct (Z.leb_spec 0 i); [|lia].
  apply nth_error_None; lia.
Qed.

Lemma yields_same_next {St : Type} (nxt : St -> py (event * St)) it1 it2 evs :
  nxt it1 = nxt it2 -> yields nxt it2 evs -> yields nxt it1 evs.
Proof.
  intros Heq Hy; inversion Hy; subst.
  - constructor; congruence.
  - econstructor; [|eassumption]; congruence.
Qed.

(** ** The plain-text iterator *)

Section PlainText.

Import PlainTextParenIterator.

Variable s : str.

Lemma skip_eq fuel d p :
  skip fuel s d p =
  match getitem s p with
  | None => Raise StopIteration
  | Some c =>
      if negb (isin c (lit "([{)]}")) then
        if p + d <? 0 then Raise StopIteration
        else match fuel with
             | O => OutOfFuel
             | S fuel' => skip fuel' s d (p + d)
             end
      else Ok p
  end.
Proof. destruct fuel; reflexivity. Qed.

Lemma skip_more_fuel fuel fuel' d p :
  skip fuel s d p <> OutOfFuel -> (fuel <= fuel')%nat ->
  skip fuel' s d p = skip fuel s d p.
Proof.
  revert fuel' p; induction fuel as [|fuel IH]; intros fuel' p;
    rewrite (skip_eq fuel'), (skip_eq _ d p);
    destruct (getitem s p) as [c|]; try reflexivity;
    destruct (negb (isin c (lit "([{)]}"))); try reflexivity;
    destruct (p + d <? 0); try reflexivity.
  - congruence.
  - intros Hne Hle; destruct fuel' as [|fuel']; [lia|].
    apply IH; [exact Hne | lia].
Qed.

Lemma skip_enough_forward fuel p :
  len s - p <= Z.of_nat fuel \/ p < - len s ->
  skip fuel s 1 p <> OutOfFuel.
Proof.
  revert p; induction fuel as [|fuel IH]; intros p Hp; rewrite skip_eq;
    destruct (getitem s p) as [c|] eqn:Hg; try discriminate;
    apply getitem_range in Hg;
    destruct (negb (isin c (lit "([{)]}"))); try discriminate;
    destruct (Z.ltb_spec (p + 1) 0); try discriminate.
  - lia.
  - apply IH; lia.
Qed.

Lemma skip_enough_backward fuel p :
  p <= Z.of_nat fuel \/ len s <= p ->
  skip fuel s (-1) p <> OutOfFuel.
Proof.
  revert p; induction fuel as [|fuel IH]; intros p Hp; rewrite skip_eq;
    destruct (getitem s p) as [c|] eqn:Hg; try discriminate;
    apply getitem_range in Hg;
    destruct (negb (isin c (lit "([{)]}"))); try discriminate;
    destruct (Z.ltb_spec (p + -1) 0); try discriminate.
  - lia.
  - apply IH; lia.
Qed.

Lemma skip_enough d p :
  is_direction d -> skip (2 * length s + 1) s d p <> OutOfFuel.
Proof.
  intros [->| ->].
  - apply skip_enough_forward.
    destruct (Z.ltb_spec p (- len s)); [now right | left].
    unfold len in *; lia.
  - apply skip_enough_backward.
    destruct (Z.leb_spec (len s) p); [now right | left].
    unfold len in *; lia.
Qed.

(** Where the loop stops there is a character, in the direction of the
    scan from where it started. *)
Lemma skip_stops fuel d p q :
  skip fuel s d p = Ok q ->
  in_range s p = true /\
  (exists c, getitem s q = Some c) /\
  (d = 1 -> p <= q) /\ (d = -1 -> q <= p).
Proof.
  revert p; induction fuel as [|fuel IH]; intros p; rewrite skip_eq;
    destruct (getitem s p) as [c|] eqn:Hg; try discriminate;
    pose proof (getitem_range _ _ _ Hg) as Hr;
    assert (Hin : in_range s p = true)
      by (unfold in_range; apply andb_true_intro; split;
          [apply Z.leb_le | apply Z.ltb_lt]; lia);
    destruct (negb (isin c (lit "([{)]}")));
    try (intros [= <-]; repeat split; [exact Hin | eauto | lia | lia]);
    destruct (p + d <? 0); try discriminate.
  intros H; apply IH in H as (_ & Hc & H1 & H2).
  repeat split; [exact Hin | exact Hc | |]; intros ->;
    [specialize (H1 eq_refl) | specialize (H2 eq_refl)]; lia.
Qed.

Lemma plain_next_cases (it : t) :
  fulltext it = s -> is_direction (direction it) ->
  __next__ it = Raise StopIteration \/
  exists e it',
    __next__ it = Ok (e, it') /\
    (fulltext it' = s /\ is_direction (direction it')) /\
    (plain_measure it' < plain_measure it)%nat.
Proof.
  destruct it as [s' p d]; cbn [fulltext direction]; intros -> Hd.
  unfold __next__; cbn [fulltext direction position].
  pose proof (skip_enough d (p + d) Hd) as Hfuel.
  destruct (skip (2 * length s + 1) s d (p + d)) as [q|e|] eqn:Hskip;
    [|left|contradiction].
  - right; cbn [bind].
    apply skip_stops in Hskip as (Hin & (c & Hc) & H1 & H2).
    rewrite Hc; eexists; eexists; split; [reflexivity|].
    split; [now split|].
    apply getitem_range in Hc.
    unfold plain_measure; cbn [fulltext direction position].
    rewrite Hin.
    destruct (in_range s (q + d)); destruct Hd as [-> | ->]; cbn;
      try specialize (H1 eq_refl); try specialize (H2 eq_refl); lia.
  - cbn [bind]; f_equal.
    clear Hfuel; revert Hskip; generalize (2 * length s + 1)%nat (p + d).
    intros fuel; induction fuel as [|fuel IH]; intros p0;
      rewrite skip_eq;
      destruct (getitem s p0); try (now intros [= <-]);
      destruct (negb (isin a (lit "([{)]}"))); try discriminate;
      destruct (p0 + d <? 0); try (now intros [= <-]);
      try discriminate.
    apply IH.
Qed.

Lemma plain_measure_bound (it : t) :
  fulltext it = s -> is_direction (direction it) ->
  (plain_measure it <= 2 * length s + 1)%nat.
Proof.
  destruct it as [s' p d]; cbn [fulltext direction]; intros -> Hd.
  unfold plain_measure, in_range; cbn [fulltext direction position].
  destruct (Z.leb_spec (- len s) (p + d)); cbn [andb]; [|lia].
  destruct (Z.ltb_spec (p + d) (len s)); [|lia].
  unfold len in *; destruct Hd as [-> | ->]; cbn; lia.
Qed.

(** A plain-text iterator gives finitely many events. *)
Lemma plain_yields (it : t) :
  fulltext it = s -> is_direction (direction it) ->
  exists evs, yields __next__ it evs /\
              (length evs <= 2 * length s + 1)%nat.
Proof.
  intros Hs Hd.
  destruct (yields_measure __next__
              (fun it => fulltext it = s /\ is_direction (direction it))
              plain_measure) with (it := it)
    as (evs & Hy & Hlen).
  - intros it0 [Hs0 Hd0]; now apply plain_next_cases.
  - now split.
  - exists evs; split; [exact Hy|].
    pose proof (plain_measure_bound it Hs Hd); lia.
Qed.

End PlainText.

Section PlainTextPositions.

Import PlainTextParenIterator.

Lemma plain_next_inv (it : PlainTextParenIterator.t) e it' :
  __next__ it = Ok (e, it') ->
  exists q c,
    skip (2 * length (fulltext it) + 1) (fulltext it) (direction it)
         (position it + direction it) = Ok q /\
    e = (c, q + 1) /\ it' = mk (fulltext it) q (direction it).
Proof.
  unfold __next__.
  destruct (skip _ _ _ _) as [q| |]; cbn [bind]; try discriminate.
  destruct (getitem (fulltext it) q) as [c|]; [|discriminate].
  intros [= <- <-]; now exists q, c.
Qed.

(** The positions a plain-text iterator gives are beyond its start, in the
    direction of the scan; the start is the cursor position
    [position it + 1]. *)
Lemma plain_positions (it : PlainTextParenIterator.t) evs :
  yields __next__ it evs ->
  (direction it = 1 -> Forall (fun e => position it + 1 < snd e) evs) /\
  (direction it = -1 -> Forall (fun e => snd e < position it + 1) evs).
Proof.
  induction 1 as [it Hs|it e it' evs Hn _ [IH1 IH2]];
    [split; constructor|].
  apply plain_next_inv in Hn as (q & c & Hskip & -> & ->).
  apply skip_stops in Hskip as (_ & _ & H1 & H2).
  cbn [direction position snd] in *.
  split; intros Hd; constructor; cbn [snd];
    try (specialize (H1 Hd)); try (specialize (H2 Hd)); try lia.
  - eapply Forall_impl; [|exact (IH1 Hd)]; cbn; intros a; lia.
  - eapply Forall_impl; [|exact (IH2 Hd)]; cbn; intros a; lia.
Qed.

End PlainTextPositions.

Lemma text_events_app (a b : str) (base : Z) :
  text_events (a ++ b) base
  = text_events a base ++ text_events b (base + len a).
Proof.
  revert base; induction a as [|c a IH]; intros base; cbn [app text_events].
  - rewrite len_nil; f_equal; lia.
  - rewrite IH, len_cons.
    replace (base + 1 + len a) with (base + (len a + 1)) by lia.
    now destruct (isin c _BRACKS).
Qed.

Section PlainTextEvents.

Import PlainTextParenIterator.

(** One character to the right of the position is skipped or given. *)
Lemma plain_next_forward pre c rest :
  __next__ (mk (pre ++ c :: rest) (len pre - 1) 1) =
  if isin c _BRACKS then
    Ok ((c, len pre + 1), mk (pre ++ c :: rest) (len pre) 1)
  else __next__ (mk (pre ++ c :: rest) (len pre) 1).
Proof.
  unfold __next__; cbn [fulltext position direction].
  replace (len pre - 1 + 1) with (len pre) by lia.
  replace (2 * length (pre ++ c :: rest) + 1)%nat
    with (S (2 * length (pre ++ c :: rest))) by lia.
  rewrite skip_eq, getitem_middle.
  change (lit "([{)]}") with _BRACKS.
  destruct (isin c _BRACKS); cbn [negb bind]; [now rewrite getitem_middle|].
  pose proof (len_nonneg pre).
  destruct (Z.ltb_spec (len pre + 1) 0); [lia|].
  rewrite <- (skip_more_fuel _ (2 * length (pre ++ c :: rest))
                (S (2 * length (pre ++ c :: rest)))); [reflexivity | | lia].
  apply skip_enough_forward; left.
  rewrite len_app, len_cons; unfold len; rewrite length_app; cbn [length].
  lia.
Qed.

Lemma plain_forward rest :
  forall pre,
    yields __next__ (mk (pre ++ rest) (len pre - 1) 1)
           (text_events rest (len pre)).
Proof.
  induction rest as [|c rest IH]; intros pre.
  - constructor; unfold __next__; cbn [fulltext position direction].
    rewrite skip_eq, getitem_end; [reflexivity|].
    rewrite app_nil_r; lia.
  - specialize (IH (pre ++ [c])).
    rewrite <- app_assoc, len_app, len_cons, len_nil in IH; cbn [app] in IH.
    replace (len pre + (0 + 1) - 1) with (len pre) in IH by lia.
    replace (len pre + (0 + 1)) with (len pre + 1) in IH by lia.
    cbn [text_events].
    pose proof (plain_next_forward pre c rest) as Hn.
    destruct (isin c _BRACKS).
    + econstructor; eassumption.
    + eapply yields_same_next; eassumption.
Qed.

(** One character to the left of the position is skipped or given. *)
Lemma plain_next_backward pre c rest :
  __next__ (mk (pre ++ c :: rest) (len pre + 1) (-1)) =
  if isin c _BRACKS then
    Ok ((c, len pre + 1), mk (pre ++ c :: rest) (len pre) (-1))
  else if len pre =? 0 then Raise StopIteration
  else __next__ (mk (pre ++ c :: rest) (len pre) (-1)).
Proof.
  unfold __next__; cbn [fulltext position direction].
  replace (len pre + 1 + -1) with (len pre) by lia.
  replace (2 * length (pre ++ c :: rest) + 1)%nat
    with (S (2 * length (pre ++ c :: rest))) by lia.
  rewrite skip_eq, getitem_middle.
  change (lit "([{)]}") with _BRACKS.
  destruct (isin c _BRACKS); cbn [negb bind]; [now rewrite getitem_middle|].
  pose proof (len_nonneg pre).
  destruct (Z.ltb_spec (len pre + -1) 0), (Z.eqb_spec (len pre) 0);
    try lia; [reflexivity|].
  rewrite <- (skip_more_fuel _ (2 * length (pre ++ c :: rest))
                (S (2 * length (pre ++ c :: rest)))); [reflexivity | | lia].
  apply skip_enough_backward; left.
  unfold len; rewrite length_app; cbn [length]; lia.
Qed.

(** Backwards the iterator gives the brackets before the position, from
    right to left, and then whatever it gives from position 0. *)
Lemma plain_backward pre :
  forall rest,
  exists more,
    yields __next__ (mk (pre ++ rest) (len pre) (-1))
           (rev (text_events pre 0) ++ more).
Proof.
  induction pre as [|c pre IH] using rev_ind; intros rest.
  - destruct (plain_yields ([] ++ rest)
                (mk ([] ++ rest) (len (@nil ascii)) (-1)))
      as (evs & Hy & _); [reflexivity | now right |].
    now exists evs.
  - rewrite <- app_assoc; cbn [app].
    rewrite text_events_app, rev_app_distr, len_app, len_cons, len_nil.
    replace (len pre + (0 + 1)) with (len pre + 1) by lia.
    cbn [text_events]; rewrite Z.add_0_l.
    pose proof (plain_next_backward pre c rest) as Hn.
    destruct (IH (c :: rest)) as (more & Hy).
    destruct (isin c _BRACKS).
    + exists more; cbn [rev app]; econstructor; eassumption.
    + cbn [rev app].
      destruct (Z.eqb_spec (len pre) 0) as [H0|_].
      * destruct pre;
          [|rewrite len_cons in H0; pose proof (len_nonneg pre); lia].
        exists []; now constructor.
      * exists more; eapply yields_same_next; eassumption.
Qed.

End PlainTextEvents.

(** ** The iterator over the tokens *)

Section Tokens.

Import ParenIterator.

Variable d : Qt.Document.

(** Reading the fields of an iterator that is given by its constructor. *)
Ltac fields := cbn [cur_tokens cur_pos direction doc cur_block].

Lemma next_block_eq fuel self :
  next_block fuel self =
  if (len (cur_tokens self) <=? cur_pos self) || (cur_pos self <? 0) then
    match fuel with
    | O => OutOfFuel
    | S fuel' =>
        let blk :=
          if direction self =? 1 then cur_block self + 1
          else cur_block self - 1 in
        if negb (Qt.isValid (doc self) blk) then Raise StopIteration
        else
          let tokens := _getParenTokens (doc self) blk in
          let pos := if direction self =? 1 then 0 else len tokens - 1 in
          next_block fuel' (mk (doc self) blk tokens (direction self) pos)
    end
  else Ok self.
Proof. destruct fuel; reflexivity. Qed.

Lemma next_block_more_fuel fuel :
  forall fuel' self,
    next_block fuel self <> OutOfFuel -> (fuel <= fuel')%nat ->
    next_block fuel' self = next_block fuel self.
Proof.
  induction fuel as [|fuel IH]; intros fuel' self;
    rewrite (next_block_eq fuel'), (next_block_eq _ self);
    destruct ((len (cur_tokens self) <=? cur_pos self)
              || (cur_pos self <? 0)); try reflexivity.
  - congruence.
  - intros Hne Hle; destruct fuel' as [|fuel']; [lia|]; cbn zeta in *.
    destruct (negb (Qt.isValid (doc self) _)); [reflexivity|].
    apply IH; [exact Hne | lia].
Qed.

Lemma isValid_spec n :
  Qt.isValid d n = true <-> 0 <= n < len d.
Proof.
  unfold Qt.isValid; rewrite andb_true_iff, Z.leb_le, Z.ltb_lt; tauto.
Qed.

Lemma next_block_enough_forward fuel :
  forall blk tokens pos,
    blk < len d -> len d - blk <= Z.of_nat fuel ->
    next_block fuel (mk d blk tokens 1 pos) <> OutOfFuel.
Proof.
  induction fuel as [|fuel IH]; intros blk tokens pos Hv Hf;
    rewrite next_block_eq; fields;
    destruct ((len tokens <=? pos) || (pos <? 0)); try discriminate;
    [lia|].
  cbn.
  destruct (Qt.isValid d (blk + 1)) eqn:Hvalid; cbn [negb]; [|discriminate].
  apply isValid_spec in Hvalid; apply IH; lia.
Qed.

Lemma next_block_enough_backward fuel :
  forall blk tokens pos,
    0 <= blk -> blk + 1 <= Z.of_nat fuel ->
    next_block fuel (mk d blk tokens (-1) pos) <> OutOfFuel.
Proof.
  induction fuel as [|fuel IH]; intros blk tokens pos Hv Hf;
    rewrite next_block_eq; fields;
    destruct ((len tokens <=? pos) || (pos <? 0)); try discriminate;
    [lia|].
  cbn.
  destruct (Qt.isValid d (blk - 1)) eqn:Hvalid; cbn [negb]; [|discriminate].
  apply isValid_spec in Hvalid; apply IH; lia.
Qed.

(** The next token of the block, when there is one. *)
Lemma next_in_block blk done tok rest dir pos :
  pos + dir = len done ->
  __next__ (mk d blk (done ++ tok :: rest) dir pos) =
  Ok ((Qt._style tok, Qt.block_position d blk + Qt.tok_end tok),
      mk d blk (done ++ tok :: rest) dir (len done)).
Proof.
  intros Hpos; unfold __next__; fields.
  rewrite Hpos, next_block_eq; fields.
  pose proof (len_nonneg done); pose proof (len_nonneg rest).
  rewrite len_app, len_cons.
  destruct (Z.leb_spec (len done + (len rest + 1)) (len done)); [lia|].
  destruct (Z.ltb_spec (len done) 0); [lia|].
  cbn [orb bind cur_tokens cur_pos doc cur_block].
  now rewrite getitem_middle.
Qed.

(** Past the last token of the block the scan goes on in the next one. *)
Lemma next_forward_jump blk tokens :
  Qt.isValid d (blk + 1) = true ->
  __next__ (mk d blk tokens 1 (len tokens - 1)) =
  __next__ (mk d (blk + 1) (_getParenTokens d (blk + 1)) 1 (-1)).
Proof.
  intros Hv; unfold __next__; fields.
  replace (len tokens - 1 + 1) with (len tokens) by lia.
  rewrite next_block_eq; fields.
  rewrite Z.leb_refl; cbn [orb].
  cbn -[next_block _getParenTokens]; rewrite Hv; cbn [negb].
  apply isValid_spec in Hv.
  rewrite (next_block_more_fuel (length d) (S (length d)));
    [reflexivity | | lia].
  apply next_block_enough_forward; unfold len in *; lia.
Qed.

Lemma next_forward_end blk tokens :
  Qt.isValid d (blk + 1) = false ->
  __next__ (mk d blk tokens 1 (len tokens - 1)) = Raise StopIteration.
Proof.
  intros Hv; unfold __next__; fields.
  replace (len tokens - 1 + 1) with (len tokens) by lia.
  rewrite next_block_eq; fields.
  rewrite Z.leb_refl; cbn [orb].
  cbn -[next_block _getParenTokens]; now rewrite Hv.
Qed.

(** Before the first token of the block it goes on in the previous one. *)
Lemma next_backward_jump blk tokens :
  Qt.isValid d (blk - 1) = true ->
  __next__ (mk d blk tokens (-1) 0) =
  __next__ (mk d (blk - 1) (_getParenTokens d (blk - 1)) (-1)
               (len (_getParenTokens d (blk - 1)))).
Proof.
  intros Hv; unfold __next__; fields.
  replace (len (_getParenTokens d (blk - 1)) + -1)
    with (len (_getParenTokens d (blk - 1)) - 1) by lia.
  rewrite next_block_eq; fields.
  change (0 + -1 <? 0) with true; rewrite orb_true_r.
  cbn -[next_block _getParenTokens]; rewrite Hv; cbn [negb].
  apply isValid_spec in Hv.
  rewrite (next_block_more_fuel (length d) (S (length d)));
    [reflexivity | | lia].
  apply next_block_enough_backward; unfold len in *; lia.
Qed.

Lemma next_backward_end blk tokens :
  Qt.isValid d (blk - 1) = false ->
  __next__ (mk d blk tokens (-1) 0) = Raise StopIteration.
Proof.
  intros Hv; unfold __next__; fields.
  rewrite next_block_eq; fields.
  change (0 + -1 <? 0) with true; rewrite orb_true_r.
  cbn -[next_block _getParenTokens]; now rewrite Hv.
Qed.

End Tokens.

Section TokenEvents.

Import ParenIterator.

Variable d : Qt.Document.

Lemma doc_events_S from count :
  doc_events d from (S count)
  = events_of_block d from ++ doc_events d (S from) count.
Proof. reflexivity. Qed.

Lemma doc_events_last from count :
  doc_events d from (S count)
  = doc_events d from count ++ events_of_block d (from + count).
Proof.
  unfold doc_events; rewrite seq_S, flat_map_app; cbn [flat_map].
  now rewrite app_nil_r.
Qed.

(** Forwards the iterator gives the tokens that follow in the block and
    then those of the blocks that follow. *)
Lemma tokens_forward count :
  forall b rest done,
    (b + 1 + count = length d)%nat ->
    yields __next__ (mk d (Z.of_nat b) (done ++ rest) 1 (len done - 1))
           (block_events d (Z.of_nat b) rest ++ doc_events d (S b) count).
Proof.
  induction count as [|count IHc]; intros b rest;
    induction rest as [|tok rest IHr]; intros done Hb.
  - constructor; rewrite app_nil_r; apply next_forward_end.
    destruct (Qt.isValid d (Z.of_nat b + 1)) eqn:Hv; [|reflexivity].
    apply isValid_spec in Hv; unfold len in Hv; lia.
  - cbn [block_events map app]; econstructor.
    + apply next_in_block; lia.
    + specialize (IHr (done ++ [tok]) Hb).
      rewrite <- app_assoc, len_app, len_cons, len_nil in IHr.
      replace (len done + (0 + 1) - 1) with (len done) in IHr by lia.
      exact IHr.
  - rewrite app_nil_r; cbn [block_events map app].
    eapply yields_same_next.
    + apply next_forward_jump, isValid_spec; unfold len; lia.
    + rewrite doc_events_S.
      replace (Z.of_nat b + 1) with (Z.of_nat (S b)) by lia.
      apply (IHc (S b) (_getParenTokens d (Z.of_nat (S b))) []); lia.
  - cbn [block_events map app]; econstructor.
    + apply next_in_block; lia.
    + specialize (IHr (done ++ [tok]) Hb).
      rewrite <- app_assoc, len_app, len_cons, len_nil in IHr.
      replace (len done + (0 + 1) - 1) with (len done) in IHr by lia.
      exact IHr.
Qed.

(** Backwards it gives the tokens before in the block, from right to
    left, and then those of the blocks before. *)
Lemma tokens_backward b :
  forall rest done,
    (b < length d)%nat ->
    yields __next__ (mk d (Z.of_nat b) (rest ++ done) (-1) (len rest))
           (rev (block_events d (Z.of_nat b) rest)
            ++ rev (doc_events d 0 b)).
Proof.
  induction b as [|b IHb]; intros rest;
    induction rest as [|tok rest IHr] using rev_ind; intros done Hb.
  - constructor; apply next_backward_end.
    destruct (Qt.isValid d (Z.of_nat 0 - 1)) eqn:Hv; [|reflexivity].
    apply isValid_spec in Hv; lia.
  - unfold block_events; rewrite map_app, rev_app_distr; cbn [map rev app].
    econstructor.
    + rewrite <- app_assoc; cbn [app]; apply next_in_block.
      rewrite len_app, len_cons, len_nil; lia.
    + apply IHr; exact Hb.
  - cbn [block_events map rev app].
    eapply yields_same_next.
    + apply next_backward_jump, isValid_spec; unfold len; lia.
    + replace (0 + b)%nat with b in * by lia.
      replace (Z.of_nat (S b) - 1) with (Z.of_nat b) by lia.
      rewrite (doc_events_last 0 b), rev_app_distr.
      replace (0 + b)%nat with b by lia.
      specialize (IHb (_getParenTokens d (Z.of_nat b)) []).
      rewrite app_nil_r in IHb; apply IHb; lia.
  - unfold block_events; rewrite map_app, rev_app_distr; cbn [map rev app].
    econstructor.
    + rewrite <- app_assoc; cbn [app]; apply next_in_block.
      rewrite len_app, len_cons, len_nil; lia.
    + apply IHr; exact Hb.
Qed.

(** What the search of [__init__] finds. *)
Lemma find_start_some tokens off :
  forall k0 k,
    find_start tokens off k0 = Some k ->
    exists done tok rest,
      tokens = done ++ tok :: rest /\ k = k0 + len done /\
      Qt.tok_end tok = off /\
      Forall (fun t => Qt.tok_end t <> off) done.
Proof.
  induction tokens as [|tok tokens IH]; intros k0 k; cbn; [discriminate|].
  destruct (Z.eqb_spec (Qt.tok_end tok) off) as [Heq|Hne].
  - intros [= <-]; exists [], tok, tokens; rewrite len_nil.
    repeat split; [lia | exact Heq | constructor].
  - intros H; apply IH in H as (done & tok' & rest & -> & -> & He & Hall).
    exists (tok :: done), tok', rest; rewrite len_cons.
    repeat split; [lia | exact He | now constructor].
Qed.

End TokenEvents.

(** ** Every query ends *)

Lemma yields_tokenized it evs :
  yields ParenIterator.__next__ it evs -> yields next (Tokenized it) evs.
Proof.
  induction 1 as [it Hs|it e it' evs Hn _ IH].
  - constructor; cbn; now rewrite Hs.
  - econstructor; [|exact IH]; cbn; now rewrite Hn.
Qed.

Lemma yields_plain it evs :
  yields PlainTextParenIterator.__next__ it evs ->
  yields next (PlainText it) evs.
Proof.
  induction 1 as [it Hs|it e it' evs Hn _ IH].
  - constructor; cbn; now rewrite Hs.
  - econstructor; [|exact IH]; cbn; now rewrite Hn.
Qed.

Lemma paren_count_events (d : Qt.Document) from count :
  length (flat_map (fun n => ParenIterator._getParenTokens d (Z.of_nat n))
                   (seq from count))
  = length (doc_events d from count).
Proof.
  unfold doc_events; revert from; induction count as [|count IH];
    intros from; cbn [seq flat_map]; [reflexivity|].
  rewrite !length_app, IH; unfold events_of_block, block_events.
  now rewrite length_map.
Qed.

Lemma doc_events_split (d : Qt.Document) b count :
  doc_events d 0 (b + 1 + count)
  = doc_events d 0 b ++ events_of_block d b ++ doc_events d (S b) count.
Proof.
  unfold doc_events; rewrite !seq_app, !flat_map_app; cbn [seq flat_map].
  now rewrite app_nil_r, <- app_assoc, Nat.add_1_r.
Qed.

(** What a successful [__init__] has found: the block of the cursor, with
    the token that ends at the cursor between the tokens before and after
    it. *)
Lemma init_found cursor dir it :
  ParenIterator.__init__ cursor dir = Ok it ->
  exists b done tok rest,
    (b < length (Qt.document cursor))%nat /\
    Qt.block cursor = Z.of_nat b /\
    ParenIterator._getParenTokens (Qt.document cursor) (Z.of_nat b)
    = done ++ tok :: rest /\
    Qt.tok_end tok = Qt.positionInBlock cursor /\
    Forall (fun t => Qt.tok_end t <> Qt.positionInBlock cursor) done /\
    it = ParenIterator.mk (Qt.document cursor) (Z.of_nat b)
                          (done ++ tok :: rest) dir (len done).
Proof.
  unfold ParenIterator.__init__.
  destruct (ParenIterator.find_start _ _ 0) as [k|] eqn:Hfind;
    [|discriminate].
  intros [= <-].
  apply find_start_some in Hfind
    as (done & tok & rest & Htok & -> & Hend & Hdone).
  assert (Hv : Qt.isValid (Qt.document cursor) (Qt.block cursor) = true).
  { unfold ParenIterator._getParenTokens, Qt.block_at in Htok.
    destruct (Qt.isValid _ _); [reflexivity|].
    now destruct done. }
  apply isValid_spec in Hv; unfold len in Hv.
  exists (Z.to_nat (Qt.block cursor)), done, tok, rest.
  rewrite Z2Nat.id by lia.
  repeat split; [lia | exact Htok | exact Hend | exact Hdone |].
  now rewrite Htok.
Qed.

Lemma tokenized_yields cursor dir it :
  is_direction dir ->
  ParenIterator.__init__ cursor dir = Ok it ->
  exists evs,
    yields ParenIterator.__next__ it evs /\
    (length evs <= paren_count (Qt.document cursor))%nat.
Proof.
  intros Hdir Hinit.
  apply init_found in Hinit
    as (b & done & tok & rest & Hb & _ & Htok & _ & _ & ->).
  set (d := Qt.document cursor) in *.
  assert (Hcount : paren_count d
                   = (length (doc_events d 0 b)
                      + (length (done ++ tok :: rest)
                         + length (doc_events d (S b)
                                              (length d - b - 1))))%nat).
  { unfold paren_count; rewrite paren_count_events.
    replace (length d) with (b + 1 + (length d - b - 1))%nat at 1 by lia.
    rewrite doc_events_split, !length_app.
    unfold events_of_block, block_events.
    now rewrite length_map, Htok, length_app. }
  destruct Hdir as [-> | ->].
  - pose proof (tokens_forward d (length d - b - 1) b rest (done ++ [tok]))
      as Hy.
    rewrite <- app_assoc, len_app, len_cons, len_nil in Hy; cbn [app] in Hy.
    replace (len done + (0 + 1) - 1) with (len done) in Hy by lia.
    eexists; split; [apply Hy; lia|].
    rewrite Hcount, !length_app; unfold block_events.
    rewrite length_map; cbn [length]; lia.
  - pose proof (tokens_backward d b done (tok :: rest) Hb) as Hy.
    eexists; split; [exact Hy|].
    rewrite Hcount, !length_app, !length_rev; unfold block_events.
    rewrite length_map; cbn [length]; lia.
Qed.

(** The iterator of a query gives finitely many events, fewer than the fuel
    of the scan. *)
Lemma scan_events_exist self cursor dir it0 :
  is_direction dir ->
  our_iterator self cursor dir = Ok it0 ->
  exists evs, yields next it0 evs /\ (length evs < scan_fuel it0)%nat.
Proof.
  intros Hdir; unfold our_iterator.
  destruct (uses_parser self).
  - destruct (ParenIterator.__init__ cursor dir) as [it| |] eqn:Hinit;
      try discriminate.
    intros [= <-].
    destruct (tokenized_yields cursor dir it Hdir Hinit) as (evs & Hy & Hlen).
    exists evs; split; [now apply yields_tokenized|].
    apply init_found in Hinit as (? & ? & ? & ? & _ & _ & _ & _ & _ & ->).
    cbn [scan_fuel ParenIterator.doc]; lia.
  - cbn; intros [= <-].
    destruct (plain_yields (Qt.toPlainText (Qt.document cursor))
                (PlainTextParenIterator.mk
                   (Qt.toPlainText (Qt.document cursor))
                   (Qt.position cursor - 1) dir) eq_refl Hdir)
      as (evs & Hy & Hlen).
    exists evs; split; [now apply yields_plain|].
    cbn [scan_fuel PlainTextParenIterator.fulltext]; lia.
Qed.

Lemma roles_direction char dir stacking unstacking :
  roles char = Ok (dir, stacking, unstacking) -> is_direction dir.
Proof.
  intros H; apply roles_inv in H as [(-> & _)|(-> & _)];
    [now right | now left].
Qed.

(** The result of a query is the one of the scan of the events of its
    iterator. *)
Lemma query_by_events self char cursor dir stacking unstacking it0 evs :
  roles char = Ok (dir, stacking, unstacking) ->
  our_iterator self cursor dir = Ok it0 ->
  yields next it0 evs ->
  _findMatchingBracket self char cursor
  = scan_events stacking unstacking [(char, Qt.position cursor)] evs.
Proof.
  intros Hroles Hit Hy.
  destruct (scan_events_exist self cursor dir it0
              (roles_direction _ _ _ _ Hroles) Hit) as (evs' & Hy' & Hlen).
  rewrite (yields_det _ _ _ _ Hy Hy').
  unfold _findMatchingBracket, scan; rewrite Hroles; cbn [bind].
  rewrite Hit; cbn [bind].
  now apply for_loop_yields.
Qed.

(** ** Stacking and unstacking brackets *)

Lemma stacking_not_unstacking char dir stacking unstacking paren :
  roles char = Ok (dir, stacking, unstacking) ->
  isin paren unstacking = true -> isin paren stacking = false.
Proof.
  intros Hroles Hin; apply isin_In in Hin; apply isin_not_In; intros Hs.
  apply roles_inv in Hroles as [(_ & -> & ->)|(_ & -> & ->)];
    cbn in Hin, Hs; intuition (subst; discriminate).
Qed.

(** ** The scan of balanced brackets *)

Lemma loop_push stacking unstacking stack paren pos :
  isin paren stacking = true ->
  loop_body stacking unstacking stack paren pos
  = Continue ((paren, pos) :: stack).
Proof. intros H; unfold loop_body; now rewrite H. Qed.

Lemma loop_pop stacking unstacking top top_pos rest paren pos :
  isin paren stacking = false -> isin paren unstacking = true ->
  dict_get _matchingBrackets top = Some paren ->
  loop_body stacking unstacking ((top, top_pos) :: rest) paren pos
  = conclude rest pos.
Proof.
  intros Hs Hu Hd; unfold loop_body; now rewrite Hs, Hu, Hd, Ascii.eqb_refl.
Qed.

Lemma conclude_nonempty stack pos :
  stack <> [] -> conclude stack pos = Continue stack.
Proof. now destruct stack. Qed.

Lemma bracket_pair_facts o c :
  In (o, c) bracket_pairs ->
  isin o _BRACKS = true /\ isin c _BRACKS = true /\
  isin o _BRACKS_OPEN = true /\ isin c _BRACKS_OPEN = false /\
  isin o _BRACKS_CLOSE = false /\ isin c _BRACKS_CLOSE = true /\
  dict_get _matchingBrackets o = Some c /\
  dict_get _matchingBrackets c = Some o.
Proof.
  intros [[= <- <-]|[[= <- <-]|[[= <- <-]|[]]]]; repeat split.
Qed.

Lemma text_events_pair o c w1 w2 base :
  In (o, c) bracket_pairs ->
  text_events (o :: w1 ++ c :: w2) base
  = (o, base + 1) :: text_events w1 (base + 1)
    ++ (c, base + len w1 + 2) :: text_events w2 (base + len w1 + 2).
Proof.
  intros Hin; destruct (bracket_pair_facts o c Hin) as (Ho & Hc & _).
  cbn [text_events]; rewrite Ho, text_events_app; cbn [text_events].
  rewrite Hc.
  now replace (base + 1 + len w1 + 1) with (base + len w1 + 2) by lia.
Qed.

(** Forwards, a balanced text leaves the stack as it found it. *)
Lemma scan_balanced_forward w :
  balanced w ->
  forall base stack evs,
    stack <> [] ->
    scan_events _BRACKS_OPEN _BRACKS_CLOSE stack (text_events w base ++ evs)
    = scan_events _BRACKS_OPEN _BRACKS_CLOSE stack evs.
Proof.
  induction 1 as [|c w Hc _ IH|o c w1 w2 Hin _ IH1 _ IH2];
    intros base stack evs Hne.
  - reflexivity.
  - cbn [text_events]; rewrite Hc; now apply IH.
  - rewrite (text_events_pair _ _ _ _ _ Hin).
    destruct (bracket_pair_facts o c Hin)
      as (_ & _ & Ho & Hc & _ & Hc' & Hd & _).
    cbn [app scan_events]; rewrite (loop_push _ _ _ _ _ Ho).
    rewrite <- app_assoc, IH1 by discriminate.
    cbn [app scan_events].
    rewrite (loop_pop _ _ _ _ _ _ _ Hc Hc' Hd), conclude_nonempty by exact Hne.
    now apply IH2.
Qed.

(** Backwards too, with the closing brackets stacking. *)
Lemma scan_balanced_backward w :
  balanced w ->
  forall base stack evs,
    stack <> [] ->
    scan_events _BRACKS_CLOSE _BRACKS_OPEN stack
                (rev (text_events w base) ++ evs)
    = scan_events _BRACKS_CLOSE _BRACKS_OPEN stack evs.
Proof.
  induction 1 as [|c w Hc _ IH|o c w1 w2 Hin _ IH1 _ IH2];
    intros base stack evs Hne.
  - reflexivity.
  - cbn [text_events]; rewrite Hc; now apply IH.
  - rewrite (text_events_pair _ _ _ _ _ Hin).
    destruct (bracket_pair_facts o c Hin)
      as (_ & _ & Ho & _ & Ho' & Hc & _ & Hd).
    cbn [rev]; rewrite rev_app_distr; cbn [rev].
    rewrite <- !app_assoc, IH2 by exact Hne.
    cbn [app scan_events]; rewrite (loop_push _ _ _ _ _ Hc).
    rewrite IH1 by discriminate.
    cbn [app scan_events].
    now rewrite (loop_pop _ _ _ _ _ _ _ Ho' Ho Hd), conclude_nonempty
      by exact Hne.
Qed.

(** The events of the text "(" body ")" and their scan. *)
Lemma scan_forward_matches body evs :
  balanced body ->
  scan_events _BRACKS_OPEN _BRACKS_CLOSE [("("%char, 1)]
              (text_events (body ++ [")"%char]) 1 ++ evs)
  = Ok (mkResult Match (Some (len body + 2)) None).
Proof.
  intros Hb; rewrite text_events_app, <- app_assoc.
  rewrite (scan_balanced_forward _ Hb) by discriminate.
  replace (len body + 2) with (1 + len body + 1) by lia.
  generalize (1 + len body); reflexivity.
Qed.

Lemma scan_backward_matches body evs :
  balanced body ->
  scan_events _BRACKS_CLOSE _BRACKS_OPEN [(")"%char, len body + 2)]
              (rev (text_events ("("%char :: body) 0) ++ evs)
  = Ok (mkResult Match (Some 1) None).
Proof.
  intros Hb; cbn [text_events]; change (isin "(" _BRACKS) with true.
  cbn [rev]; rewrite <- app_assoc.
  now rewrite (scan_balanced_backward _ Hb) by discriminate.
Qed.

(** ** The text "(" body ")" without a parser *)

Lemma plain_query_opener self d body :
  balanced body ->
  Qt.toPlainText d = "("%char :: body ++ [")"%char] ->
  uses_parser self = false ->
  _findMatchingBracket self "(" (Qt.mkCursor d 1)
  = Ok (mkResult Match (Some (len body + 2)) None).
Proof.
  intros Hb Htext Hp.
  rewrite <- (scan_forward_matches body [] Hb), app_nil_r.
  apply (query_by_events self "(" (Qt.mkCursor d 1) 1 _ _
           (PlainText (PlainTextParenIterator.mk
                         (["("%char] ++ body ++ [")"%char]) 0 1))).
  - reflexivity.
  - unfold our_iterator, PlainTextParenIterator.__init__.
    rewrite Hp; cbn; now rewrite Htext.
  - apply yields_plain.
    exact (plain_forward (body ++ [")"%char]) ["("%char]).
Qed.

Lemma plain_query_closer self d body :
  balanced body ->
  Qt.toPlainText d = "("%char :: body ++ [")"%char] ->
  uses_parser self = false ->
  _findMatchingBracket self ")" (Qt.mkCursor d (len body + 2))
  = Ok (mkResult Match (Some 1) None).
Proof.
  intros Hb Htext Hp.
  destruct (plain_backward ("("%char :: body) [")"%char]) as (more & Hy).
  rewrite <- (scan_backward_matches body more Hb).
  apply (query_by_events self ")" (Qt.mkCursor d (len body + 2)) (-1) _ _
           (PlainText (PlainTextParenIterator.mk
                         (("("%char :: body) ++ [")"%char])
                         (len ("("%char :: body)) (-1)))).
  - reflexivity.
  - unfold our_iterator, PlainTextParenIterator.__init__.
    rewrite Hp; cbn [bind Qt.document Qt.position]; rewrite Htext, len_cons.
    now replace (len body + 2 - 1) with (len body + 1) by lia.
  - apply yields_plain; exact Hy.
Qed.

(** ** The tokens of lines without strings and comments *)

Lemma lex_line_events d n line :
  forall off,
    block_events d n (lex_line line off)
    = text_events line (Qt.block_position d n + off).
Proof.
  induction line as [|c line IH]; intros off; cbn [lex_line text_events];
    [reflexivity|].
  replace (Qt.block_position d n + off + 1)
    with (Qt.block_position d n + (off + 1)) by lia.
  destruct (isin c _BRACKS); cbn [block_events map]; rewrite <- IH;
    reflexivity.
Qed.

Lemma lex_line_app a b off :
  lex_line (a ++ b) off = lex_line a off ++ lex_line b (off + len a).
Proof.
  revert off; induction a as [|c a IH]; intros off; cbn [app lex_line].
  - rewrite len_nil; f_equal; lia.
  - rewrite IH, len_cons.
    replace (off + 1 + len a) with (off + (len a + 1)) by lia.
    now destruct (isin c _BRACKS).
Qed.

Lemma lex_line_ends line :
  forall off,
    Forall (fun tok => off < Qt.tok_end tok <= off + len line)
           (lex_line line off).
Proof.
  induction line as [|c line IH]; intros off; cbn [lex_line];
    [constructor|].
  rewrite len_cons; pose proof (len_nonneg line).
  assert (Htail : Forall (fun tok => off < Qt.tok_end tok
                                     <= off + (len line + 1))
                         (lex_line line (off + 1))).
  { eapply Forall_impl; [|apply IH]; cbn; intros tok; lia. }
  destruct (isin c _BRACKS); [constructor; [cbn; lia|]|]; exact Htail.
Qed.

Lemma lexed_tokens d n b :
  nth_error d n = Some b -> lexed b ->
  ParenIterator._getParenTokens d (Z.of_nat n) = lex_line (Qt.text b) 0.
Proof.
  intros Hnth (tokens & Hu & Hf).
  unfold ParenIterator._getParenTokens, Qt.block_at.
  assert (Hv : Qt.isValid d (Z.of_nat n) = true).
  { apply isValid_spec; unfold len.
    assert (n < length d)%nat by (apply nth_error_Some; congruence).
    lia. }
  now rewrite Hv, Nat2Z.id, Hnth, Hu.
Qed.

Lemma lexed_events d n b :
  nth_error d n = Some b -> lexed b ->
  events_of_block d n
  = text_events (Qt.text b) (Qt.block_position d (Z.of_nat n)).
Proof.
  intros Hnth Hl; unfold events_of_block.
  rewrite (lexed_tokens _ _ _ Hnth Hl), lex_line_events; f_equal; lia.
Qed.

Lemma isin_newline : isin Qt.newline _BRACKS = false.
Proof. reflexivity. Qed.

Lemma newline_is_no_bracket c : isin c _BRACKS = true -> c <> Qt.newline.
Proof. intros H ->; discriminate. Qed.

Lemma find_start_app done tok rest off :
  Forall (fun t => Qt.tok_end t <> off) done ->
  Qt.tok_end tok = off ->
  forall k0,
    ParenIterator.find_start (done ++ tok :: rest) off k0
    = Some (k0 + len done).
Proof.
  intros Hdone Htok; induction Hdone as [|t done Ht _ IH]; intros k0;
    cbn [app ParenIterator.find_start].
  - rewrite Htok, Z.eqb_refl, len_nil; f_equal; lia.
  - destruct (Z.eqb_spec (Qt.tok_end t) off); [contradiction|].
    rewrite IH, len_cons; f_equal; lia.
Qed.

(** ** The text of a document around one of its blocks *)

Lemma text_before_cons a blocks :
  text_before (a :: blocks) = Qt.text a ++ Qt.newline :: text_before blocks.
Proof. unfold text_before; cbn [flat_map]; now rewrite <- app_assoc. Qed.

Lemma text_before_snoc blocks a :
  text_before (blocks ++ [a]) = text_before blocks ++ Qt.text a ++ [Qt.newline].
Proof.
  unfold text_before; rewrite flat_map_app; cbn [flat_map].
  now rewrite app_nil_r.
Qed.

Lemma text_after_cons a blocks :
  text_after (a :: blocks) = Qt.newline :: Qt.text a ++ text_after blocks.
Proof. reflexivity. Qed.

Lemma toPlainText_cons b post :
  Qt.toPlainText (b :: post) = Qt.text b ++ text_after post.
Proof.
  revert b; induction post as [|a post IH]; intros b.
  - cbn; now rewrite app_nil_r.
  - change (Qt.toPlainText (b :: a :: post))
      with (Qt.text b ++ Qt.newline :: Qt.toPlainText (a :: post)).
    now rewrite IH.
Qed.

Lemma toPlainText_split pre b post :
  Qt.toPlainText (pre ++ b :: post)
  = text_before pre ++ Qt.text b ++ text_after post.
Proof.
  induction pre as [|a pre IH]; [apply toPlainText_cons|].
  cbn [app]; rewrite text_before_cons.
  destruct (pre ++ b :: post) as [|x l] eqn:Hd; [now destruct pre|].
  change (Qt.toPlainText (a :: x :: l))
    with (Qt.text a ++ Qt.newline :: Qt.toPlainText (x :: l)).
  now rewrite IH, <- !app_assoc.
Qed.

Lemma len_text_before pre rest :
  len (text_before pre) = Qt.position_of_block (pre ++ rest) (length pre).
Proof.
  induction pre as [|a pre IH]; [now destruct rest|].
  rewrite text_before_cons; cbn [app length Qt.position_of_block].
  rewrite <- IH, len_app, len_cons; lia.
Qed.

Lemma locate_cons a b l p :
  Qt.locate (a :: b :: l) p =
  if p <=? len (Qt.text a) then (0, p)
  else let '(n, off) := Qt.locate (b :: l) (p - len (Qt.text a) - 1) in
       (n + 1, off).
Proof. reflexivity. Qed.

(** The cursor at an offset of a block is in that block. *)
Lemma locate_block pre b post off :
  0 <= off <= len (Qt.text b) ->
  Qt.locate (pre ++ b :: post) (len (text_before pre) + off)
  = (len pre, off).
Proof.
  intros Hoff; induction pre as [|a pre IH].
  - cbn [app text_before flat_map]; rewrite len_nil, Z.add_0_l.
    destruct post as [|x l]; [reflexivity|].
    rewrite locate_cons.
    destruct (Z.leb_spec off (len (Qt.text b))); [reflexivity | lia].
  - cbn [app]; rewrite text_before_cons.
    destruct (pre ++ b :: post) as [|x l] eqn:Hd; [now destruct pre|].
    rewrite locate_cons, len_app, len_cons.
    pose proof (len_nonneg (text_before pre)).
    destruct (Z.leb_spec (len (Qt.text a) + (len (text_before pre) + 1) + off)
                         (len (Qt.text a))); [lia|].
    replace (len (Qt.text a) + (len (text_before pre) + 1) + off
             - len (Qt.text a) - 1)
      with (len (text_before pre) + off) by lia.
    rewrite IH, len_cons; reflexivity.
Qed.

(** ** The events of a document whose tokens are its brackets *)

Lemma lexed_events_from mid :
  forall done rest,
    Forall lexed mid ->
    doc_events (done ++ mid ++ rest) (length done) (length mid)
    = text_events (text_before mid) (len (text_before done)).
Proof.
  induction mid as [|a mid IH]; intros done rest Hall; [reflexivity|].
  inversion Hall as [|? ? Ha Hmid]; subst.
  cbn [length]; rewrite doc_events_S.
  rewrite (lexed_events _ _ a) by
      (try exact Ha; rewrite nth_error_app2, Nat.sub_diag by lia;
       reflexivity).
  unfold Qt.block_position; rewrite Nat2Z.id, <- len_text_before.
  specialize (IH (done ++ [a]) rest Hmid).
  rewrite <- app_assoc, length_app in IH; cbn [app length] in IH.
  replace (length done + 1)%nat with (S (length done)) in IH by lia.
  cbn [app]; rewrite IH, text_before_snoc, text_before_cons.
  rewrite text_events_app; cbn [text_events]; rewrite isin_newline.
  rewrite !len_app, len_cons, len_nil; do 2 f_equal; lia.
Qed.

Lemma lexed_events_before pre rest :
  Forall lexed pre ->
  doc_events (pre ++ rest) 0 (length pre) = text_events (text_before pre) 0.
Proof. intros H; exact (lexed_events_from pre [] rest H). Qed.

Lemma text_events_after post :
  forall base,
    text_events (text_after post) base
    = text_events (text_before post) (base + 1).
Proof.
  induction post as [|a post IH]; intros base; [reflexivity|].
  rewrite text_after_cons, text_before_cons.
  cbn [text_events]; rewrite isin_newline, !text_events_app.
  cbn [text_events]; rewrite isin_newline, IH; do 2 f_equal; lia.
Qed.

Lemma lexed_events_after pre b post :
  Forall lexed post ->
  doc_events (pre ++ b :: post) (S (length pre)) (length post)
  = text_events (text_after post) (len (text_before pre) + len (Qt.text b)).
Proof.
  intros H; pose proof (lexed_events_from post (pre ++ [b]) [] H) as He.
  rewrite app_nil_r, <- app_assoc, length_app in He; cbn [app length] in He.
  replace (length pre + 1)%nat with (S (length pre)) in He by lia.
  rewrite He, text_events_after, text_before_snoc; f_equal.
  rewrite !len_app, len_cons, len_nil; lia.
Qed.

(** The iterator over the tokens, built at a bracket [c] of a block: what
    [__init__] finds and what the iterator gives, forwards and backwards. *)
Section AtBracket.

Variables (pre : list Qt.Block) (b : Qt.Block) (post : list Qt.Block).
Variables (t1 : str) (c : ascii) (t2 : str).
Hypothesis Hlexed : Forall lexed (pre ++ b :: post).
Hypothesis Htext : Qt.text b = t1 ++ c :: t2.
Hypothesis Hc : isin c _BRACKS = true.

Lemma tokens_at_bracket :
  ParenIterator._getParenTokens (pre ++ b :: post) (Z.of_nat (length pre))
  = lex_line t1 0 ++ Qt.mkToken true c (len t1 + 1) :: lex_line t2 (len t1 + 1).
Proof.
  rewrite (lexed_tokens (pre ++ b :: post) (length pre) b).
  - rewrite Htext, lex_line_app; cbn [lex_line]; rewrite Hc.
    now rewrite Z.add_0_l.
  - now rewrite nth_error_app2, Nat.sub_diag by lia.
  - rewrite Forall_forall in Hlexed; apply Hlexed, in_or_app; right.
    now left.
Qed.

Lemma init_at_bracket dir :
  ParenIterator.__init__ (cursor_right_of pre b post t1) dir
  = Ok (ParenIterator.mk (pre ++ b :: post) (Z.of_nat (length pre))
          (lex_line t1 0
           ++ Qt.mkToken true c (len t1 + 1) :: lex_line t2 (len t1 + 1))
          dir (len (lex_line t1 0))).
Proof.
  unfold ParenIterator.__init__, Qt.block, Qt.positionInBlock.
  unfold cursor_right_of; cbn [Qt.document Qt.position].
  rewrite <- Z.add_assoc, locate_block.
  - cbn [fst snd]; change (len pre) with (Z.of_nat (length pre)).
    rewrite tokens_at_bracket, find_start_app; [reflexivity | | reflexivity].
    eapply Forall_impl; [|apply lex_line_ends]; cbn; intros a; lia.
  - rewrite Htext, len_app, len_cons.
    pose proof (len_nonneg t1); pose proof (len_nonneg t2); lia.
Qed.

Lemma forward_at_bracket :
  yields ParenIterator.__next__
         (ParenIterator.mk (pre ++ b :: post) (Z.of_nat (length pre))
            (lex_line t1 0
             ++ Qt.mkToken true c (len t1 + 1) :: lex_line t2 (len t1 + 1))
            1 (len (lex_line t1 0)))
         (text_events (t2 ++ text_after post)
                      (Qt.position (cursor_right_of pre b post t1))).
Proof.
  assert (Hafter : Forall lexed post)
    by (apply Forall_app in Hlexed as [_ H]; now inversion H).
  pose proof (lexed_events_after pre b post Hafter) as He.
  pose proof (len_text_before pre (b :: post)) as Hpos.
  unfold cursor_right_of; cbn [Qt.position].
  set (d := pre ++ b :: post) in *.
  pose proof (tokens_forward d (length post) (length pre)
                (lex_line t2 (len t1 + 1))
                (lex_line t1 0 ++ [Qt.mkToken true c (len t1 + 1)])) as Hy.
  assert (Hlen : (length pre + 1 + length post = length d)%nat)
    by (unfold d; rewrite length_app; cbn [length]; lia).
  specialize (Hy Hlen).
  replace (len (lex_line t1 0 ++ [Qt.mkToken true c (len t1 + 1)]) - 1)
    with (len (lex_line t1 0)) in Hy
    by (unfold len; rewrite length_app; cbn [length]; lia).
  rewrite <- app_assoc in Hy; cbn [app] in Hy.
  rewrite lex_line_events, He in Hy.
  unfold Qt.block_position in Hy; rewrite Nat2Z.id, <- Hpos in Hy.
  rewrite text_events_app.
  replace (len (text_before pre) + len t1 + 1 + len t2)
    with (len (text_before pre) + len (Qt.text b))
    by (rewrite Htext, len_app, len_cons; lia).
  replace (len (text_before pre) + len t1 + 1)
    with (len (text_before pre) + (len t1 + 1)) by lia.
  exact Hy.
Qed.

Lemma backward_at_bracket :
  yields ParenIterator.__next__
         (ParenIterator.mk (pre ++ b :: post) (Z.of_nat (length pre))
            (lex_line t1 0
             ++ Qt.mkToken true c (len t1 + 1) :: lex_line t2 (len t1 + 1))
            (-1) (len (lex_line t1 0)))
         (rev (text_events (text_before pre ++ t1) 0)).
Proof.
  assert (Hbefore : Forall lexed pre)
    by (now apply Forall_app in Hlexed as [H _]).
  pose proof (lexed_events_before pre (b :: post) Hbefore) as He.
  pose proof (len_text_before pre (b :: post)) as Hpos.
  set (d := pre ++ b :: post) in *.
  pose proof (tokens_backward d (length pre) (lex_line t1 0)
                (Qt.mkToken true c (len t1 + 1) :: lex_line t2 (len t1 + 1)))
    as Hy.
  assert (Hlen : (length pre < length d)%nat)
    by (unfold d; rewrite length_app; cbn [length]; lia).
  specialize (Hy Hlen).
  rewrite <- rev_app_distr, lex_line_events, He in Hy.
  unfold Qt.block_position in Hy; rewrite Nat2Z.id, <- Hpos in Hy.
  rewrite text_events_app, Z.add_0_l.
  rewrite Z.add_0_r in Hy.
  exact Hy.
Qed.

Lemma text_at_bracket :
  Qt.toPlainText (pre ++ b :: post)
  = (text_before pre ++ t1) ++ c :: t2 ++ text_after post.
Proof.
  rewrite toPlainText_split, Htext, <- !app_assoc; reflexivity.
Qed.

End AtBracket.

(** ** The two strategies at a bracket of a line *)

Lemma scan_events_concluded stacking unstacking evs more :
  forall stack r,
    scan_events stacking unstacking stack evs = Ok r ->
    status r <> NoMatch ->
    scan_events stacking unstacking stack (evs ++ more) = Ok r.
Proof.
  induction evs as [|[paren pos] evs IH]; intros stack r; cbn.
  - intros [= <-] H; now contradiction H.
  - destruct (loop_body stacking unstacking stack paren pos);
      [apply IH | trivial | discriminate].
Qed.

Section Strategies.

Variables (with_parser without : Editor).
Variables (pre : list Qt.Block) (b : Qt.Block) (post : list Qt.Block).
Variables (t1 : str) (c : ascii) (t2 : str).
Hypothesis Hwith : uses_parser with_parser = true.
Hypothesis Hwithout : uses_parser without = false.
Hypothesis Htext : Qt.text b = t1 ++ c :: t2.
Hypothesis Hc : isin c _BRACKS = true.

Lemma tokenized_query dir stacking unstacking :
  Forall lexed (pre ++ b :: post) ->
  roles c = Ok (dir, stacking, unstacking) ->
  _findMatchingBracket with_parser c (cursor_right_of pre b post t1)
  = scan_events stacking unstacking [(c, Qt.position (cursor_right_of pre b post t1))]
      (if dir =? 1
       then text_events (t2 ++ text_after post) (Qt.position (cursor_right_of pre b post t1))
       else rev (text_events (text_before pre ++ t1) 0)).
Proof.
  intros Hlexed Hroles.
  eapply query_by_events; [exact Hroles | |].
  - unfold our_iterator; rewrite Hwith.
    now rewrite (init_at_bracket pre b post t1 c t2 Hlexed Htext Hc).
  - apply yields_tokenized.
    destruct (roles_direction _ _ _ _ Hroles) as [-> | ->]; cbn [Z.eqb].
    + apply forward_at_bracket; assumption.
    + apply backward_at_bracket; assumption.
Qed.

Lemma plain_query dir stacking unstacking :
  roles c = Ok (dir, stacking, unstacking) ->
  exists more,
    _findMatchingBracket without c (cursor_right_of pre b post t1)
    = scan_events stacking unstacking [(c, Qt.position (cursor_right_of pre b post t1))]
        (if dir =? 1
         then text_events (t2 ++ text_after post) (Qt.position (cursor_right_of pre b post t1))
         else rev (text_events (text_before pre ++ t1) 0) ++ more).
Proof.
  intros Hroles.
  pose proof (text_at_bracket pre b post t1 c t2 Htext) as Hfull.
  assert (Hit : forall dir,
             our_iterator without (cursor_right_of pre b post t1) dir
             = Ok (PlainText (PlainTextParenIterator.mk
                                ((text_before pre ++ t1)
                                 ++ c :: t2 ++ text_after post)
                                (len (text_before pre ++ t1)) dir))).
  { intros dir'; unfold our_iterator, PlainTextParenIterator.__init__.
    rewrite Hwithout; unfold cursor_right_of; cbn [bind Qt.document Qt.position].
    rewrite Hfull, len_app.
    now replace (len (text_before pre) + len t1 + 1 - 1)
      with (len (text_before pre) + len t1) by lia. }
  destruct (roles_direction _ _ _ _ Hroles) as [-> | ->]; cbn [Z.eqb].
  - exists []; eapply query_by_events; [exact Hroles | apply Hit |].
    apply yields_plain.
    pose proof (plain_forward (t2 ++ text_after post)
                  ((text_before pre ++ t1) ++ [c])) as Hy.
    rewrite <- app_assoc in Hy; cbn [app] in Hy.
    replace (len ((text_before pre ++ t1) ++ [c]) - 1)
      with (len (text_before pre ++ t1)) in Hy
      by (unfold len; rewrite !length_app; cbn [length]; lia).
    replace (len ((text_before pre ++ t1) ++ [c]))
      with (Qt.position (cursor_right_of pre b post t1)) in Hy
      by (unfold cursor_right_of, len; cbn [Qt.position]; rewrite !length_app;
          cbn [length]; lia).
    exact Hy.
  - destruct (plain_backward (text_before pre ++ t1)
                (c :: t2 ++ text_after post)) as (more & Hy).
    exists more; eapply query_by_events; [exact Hroles | apply Hit |].
    apply yields_plain; exact Hy.
Qed.

End Strategies.

(** ** The text "(" body ")" with a parser *)

Lemma first_block d c w :
  Qt.toPlainText d = c :: w -> c <> Qt.newline ->
  exists b0 d' t0, d = b0 :: d' /\ Qt.text b0 = c :: t0.
Proof.
  intros Htext Hc; destruct d as [|b0 d']; [discriminate|].
  rewrite toPlainText_cons in Htext.
  destruct (Qt.text b0) as [|x t0] eqn:Ht0.
  - destruct d' as [|a d']; [discriminate|].
    rewrite text_after_cons in Htext; cbn [app] in Htext; congruence.
  - injection Htext as -> _; now exists b0, d', t0.
Qed.

Lemma last_block d w c :
  Qt.toPlainText d = w ++ [c] -> c <> Qt.newline ->
  exists dinit bl t, d = dinit ++ [bl] /\ Qt.text bl = t ++ [c].
Proof.
  intros Htext Hc.
  destruct d as [|bl dinit _] using rev_ind; [now destruct w|].
  rewrite toPlainText_split, app_nil_r in Htext.
  destruct (Qt.text bl) as [|x t _] eqn:Ht using rev_ind.
  - rewrite app_nil_r in Htext; exfalso.
    destruct dinit as [|a dinit _] using rev_ind; [now destruct w|].
    rewrite text_before_snoc, !app_assoc in Htext.
    apply app_inj_tail in Htext as [_ Heq]; congruence.
  - rewrite app_assoc in Htext; apply app_inj_tail in Htext as [_ ->].
    now exists dinit, bl, t.
Qed.

Lemma tokenized_query_opener self d body :
  balanced body ->
  Qt.toPlainText d = "("%char :: body ++ [")"%char] ->
  Forall lexed d ->
  uses_parser self = true ->
  _findMatchingBracket self "(" (Qt.mkCursor d 1)
  = Ok (mkResult Match (Some (len body + 2)) None).
Proof.
  intros Hb Htext Hlexed Hp.
  destruct (first_block d _ _ Htext (newline_is_no_bracket "(" eq_refl))
    as (b0 & d' & t0 & -> & Ht0).
  pose proof (tokenized_query self [] b0 d' [] "(" t0 Hp Ht0 eq_refl
                1 _BRACKS_OPEN _BRACKS_CLOSE Hlexed eq_refl) as Hq.
  rewrite toPlainText_cons, Ht0 in Htext; injection Htext as Htext.
  unfold cursor_right_of in Hq; cbn [app Z.eqb Qt.position] in Hq.
  rewrite Htext in Hq.
  change (len (text_before []) + len (@nil ascii) + 1) with 1 in Hq.
  rewrite Hq.
  pose proof (scan_forward_matches body [] Hb) as Hscan.
  now rewrite app_nil_r in Hscan.
Qed.

Lemma tokenized_query_closer self d body :
  balanced body ->
  Qt.toPlainText d = "("%char :: body ++ [")"%char] ->
  Forall lexed d ->
  uses_parser self = true ->
  _findMatchingBracket self ")" (Qt.mkCursor d (len body + 2))
  = Ok (mkResult Match (Some 1) None).
Proof.
  intros Hb Htext Hlexed Hp.
  destruct (last_block d ("("%char :: body) ")" Htext
              (newline_is_no_bracket ")" eq_refl))
    as (dinit & bl & t & -> & Ht).
  pose proof (tokenized_query self dinit bl [] t ")" [] Hp Ht eq_refl
                (-1) _BRACKS_CLOSE _BRACKS_OPEN Hlexed eq_refl) as Hq.
  rewrite toPlainText_split, Ht, app_nil_r, app_assoc in Htext.
  change ("("%char :: body ++ [")"%char])
    with (("("%char :: body) ++ [")"%char]) in Htext.
  apply app_inj_tail in Htext as [Htext _].
  unfold cursor_right_of in Hq; cbn [Z.eqb Qt.position] in Hq.
  rewrite Htext in Hq.
  pose proof (f_equal len Htext) as Hlen; rewrite len_app, len_cons in Hlen.
  replace (len (text_before dinit) + len t + 1) with (len body + 2) in Hq
    by lia.
  rewrite Hq.
  pose proof (scan_backward_matches body [] Hb) as Hscan.
  now rewrite app_nil_r in Hscan.
Qed.

(** * The properties of the specification *)

(** ** Balanced texts *)

(** C1: for a text "(" body ")" whose body has balanced brackets, the query
    at the opening bracket gives Match with the position of the final
    closing bracket, and the query at that closing bracket gives Match with
    the position of the opening one; without a parser, and with a parser
    when the tokens of the lines are their brackets. *)
Theorem balanced_text_matches (self : Editor) (d : Qt.Document) (body : str) :
  balanced body ->
  Qt.toPlainText d = "("%char :: body ++ [")"%char] ->
  (uses_parser self = true -> Forall lexed d) ->
  _findMatchingBracket self "(" (Qt.mkCursor d 1)
  = Ok (mkResult Match (Some (len body + 2)) None) /\
  _findMatchingBracket self ")" (Qt.mkCursor d (len body + 2))
  = Ok (mkResult Match (Some 1) None).
Proof.
  intros Hb Htext Hlexed.
  destruct (uses_parser self) eqn:Hp.
  - split; [apply tokenized_query_opener | apply tokenized_query_closer];
      auto.
  - split; [apply plain_query_opener | apply plain_query_closer]; auto.
Qed.

Lemma balanced_text_matches_witness :
  _findMatchingBracket python_parser "(" (Qt.mkCursor two_lines 1)
  = Ok (mkResult Match (Some 5) None) /\
  _findMatchingBracket python_parser ")" (Qt.mkCursor two_lines 5)
  = Ok (mkResult Match (Some 1) None).
Proof.
  apply (balanced_text_matches python_parser two_lines
           ["["%char; Qt.newline; "]"%char]).
  - apply (balanced_pair "[" "]" [Qt.newline] []).
    + right; left; reflexivity.
    + apply balanced_char; [reflexivity | apply balanced_nil].
    + apply balanced_nil.
  - reflexivity.
  - intros _; repeat constructor; eexists; split; reflexivity.
Defined.

(** ** A bracket of the wrong family *)

(** C2: when the loop reads a bracket of the unstacking set that is not the
    partner of the character on top of the stack, the query ends there with
    MisMatch: its corresponding position is the position of the bracket
    read, its offending position the one on top of the stack, and the
    iterator is left as that one call of [__next__] left it. *)
Theorem mismatch_concludes_at_once (self : Editor) (char : ascii)
    (cursor : Qt.Cursor) (dir : Z) (stacking unstacking : str)
    (it0 it it' : Iterator) (top : ascii) (top_pos : Z) (rest : list event)
    (paren : ascii) (pos : Z) :
  roles char = Ok (dir, stacking, unstacking) ->
  our_iterator self cursor dir = Ok it0 ->
  reaches next stacking unstacking
          ([(char, Qt.position cursor)], it0) ((top, top_pos) :: rest, it) ->
  next it = Ok ((paren, pos), it') ->
  isin paren unstacking = true ->
  dict_get _matchingBrackets top <> Some paren ->
  scan self char cursor
  = Ok (mkResult MisMatch (Some pos) (Some top_pos), it').
Proof.
  intros Hroles Hit Hreach Hn Hun Hpartner.
  assert (Hok : stack_ok stacking ((top, top_pos) :: rest)).
  { change ((top, top_pos) :: rest)
      with (fst ((top, top_pos) :: rest, it)).
    eapply reaches_keeps; [exact Hreach|].
    eapply start_stack_ok; exact Hroles. }
  assert (Hbody : loop_body stacking unstacking ((top, top_pos) :: rest)
                            paren pos
                  = Return (mkResult MisMatch (Some pos) (Some top_pos))).
  { unfold loop_body.
    rewrite (stacking_not_unstacking _ _ _ _ _ Hroles Hun), Hun.
    destruct Hok as [_ Hall]; inversion Hall as [|? ? Htop _]; subst.
    destruct (stacking_has_partner _ _ _ _ Hroles _ Htop) as [p Hp].
    cbn [fst] in Hp; rewrite Hp.
    destruct (Ascii.eqb_spec p paren) as [->|_]; [contradiction|].
    reflexivity. }
  destruct (scan_events_exist self cursor dir it0
              (roles_direction _ _ _ _ Hroles) Hit) as (evs & Hy & Hlen).
  destruct (reaches_for_loop next stacking unstacking _ _ Hreach evs Hy)
    as (evs1 & evs2 & -> & Hy2 & Hfuel).
  cbn [fst snd] in Hy2, Hfuel.
  inversion Hy2 as [? Hs|? e it2 evs2' Hn2 _]; subst; [congruence|].
  rewrite length_app in Hlen; cbn [length] in Hlen.
  unfold scan; rewrite Hroles; cbn [bind]; rewrite Hit; cbn [bind].
  replace (scan_fuel it0)
    with (length evs1 + S (scan_fuel it0 - length evs1 - 1))%nat by lia.
  rewrite Hfuel; cbn [for_loop]; now rewrite Hn, Hbody.
Qed.

Lemma mismatch_concludes_at_once_witness :
  scan no_parser "(" (Qt.mkCursor (plain_line "(]") 1)
  = Ok (mkResult MisMatch (Some 2) (Some 1),
        PlainText (PlainTextParenIterator.mk (lit "(]") 1 1)).
Proof.
  apply (mismatch_concludes_at_once no_parser "("
           (Qt.mkCursor (plain_line "(]") 1) 1 _BRACKS_OPEN _BRACKS_CLOSE
           (PlainText (PlainTextParenIterator.mk (lit "(]") 0 1))
           (PlainText (PlainTextParenIterator.mk (lit "(]") 0 1))
           (PlainText (PlainTextParenIterator.mk (lit "(]") 1 1))
           "(" 1 [] "]" 2).
  - reflexivity.
  - reflexivity.
  - apply reaches_here.
  - reflexivity.
  - reflexivity.
  - discriminate.
Defined.

(** ** The two positions of a mismatch *)

(** C3 as stated fails: for the text "(]" and the query at "(", the
    offending position of the result is not the position of "]". *)
Lemma mismatch_offending_is_not_the_closer :
  ~ (exists r,
        _findMatchingBracket no_parser "(" (Qt.mkCursor (plain_line "(]") 1)
        = Ok r /\
        status r = MisMatch /\ offending r = Some 2).
Proof.
  intros (r & Hr & _ & Hoff).
  vm_compute in Hr; injection Hr as <-; discriminate.
Qed.

(** C3, amended: for the text "(]" and the query at "(", with or without
    a parser, the result is MisMatch whose corresponding position is the
    position of "]", the bracket read, and whose offending position is the
    position of "(", the top of the stack. *)
Theorem mismatch_positions (self : Editor) :
  _findMatchingBracket self "(" (Qt.mkCursor (lexed_line "(]") 1)
  = Ok (mkResult MisMatch (Some 2) (Some 1)).
Proof.
  unfold _findMatchingBracket, scan, our_iterator; cbn -[for_loop scan_fuel].
  destruct (uses_parser self); reflexivity.
Qed.

(** ** No cap on the scan *)

(** C4 as stated fails: in the text of 501 opening and 501 closing round
    brackets the query at the first one has not ended after 500 calls of
    [__next__], and its result is not NoMatch. *)
Lemma scan_has_no_cap :
  ~ (for_loop next _BRACKS_OPEN _BRACKS_CLOSE 500 [("("%char, 1)]
       (PlainText
          (PlainTextParenIterator.mk (Qt.toPlainText (nested 501)) 0 1))
     = OutOfFuel ->
     exists r,
       _findMatchingBracket no_parser "(" (Qt.mkCursor (nested 501) 1)
       = Ok r /\
       status r = NoMatch).
Proof.
  intros H.
  destruct H as (r & Hr & Hs); [vm_compute; reflexivity|].
  vm_compute in Hr; injection Hr as <-; discriminate.
Qed.

(** C4, amended: the loop of [_findMatchingBracket] has no cap.  Every
    query ends, because its iterator gives finitely many events, and the
    result is the one of the stack scan over all of them, however many. *)
Theorem query_ends_without_cap (self : Editor) (char : ascii)
    (cursor : Qt.Cursor) :
  _findMatchingBracket self char cursor <> OutOfFuel /\
  forall dir stacking unstacking it0,
    roles char = Ok (dir, stacking, unstacking) ->
    our_iterator self cursor dir = Ok it0 ->
    exists evs,
      yields next it0 evs /\
      _findMatchingBracket self char cursor
      = scan_events stacking unstacking [(char, Qt.position cursor)] evs.
Proof.
  assert (Hgen : forall dir stacking unstacking it0,
             roles char = Ok (dir, stacking, unstacking) ->
             our_iterator self cursor dir = Ok it0 ->
             exists evs,
               yields next it0 evs /\
               _findMatchingBracket self char cursor
               = scan_events stacking unstacking
                             [(char, Qt.position cursor)] evs).
  { intros dir stacking unstacking it0 Hroles Hit.
    destruct (scan_events_exist self cursor dir it0
                (roles_direction _ _ _ _ Hroles) Hit) as (evs & Hy & _).
    exists evs; split; [exact Hy|].
    eapply query_by_events; eassumption. }
  split; [|exact Hgen].
  destruct (roles char) as [[[dir stacking] unstacking]|e|] eqn:Hroles.
  - destruct (our_iterator self cursor dir) as [it0|e|] eqn:Hit.
    + destruct (Hgen _ _ _ _ eq_refl Hit) as (evs & _ & ->).
      generalize [(char, Qt.position cursor)].
      induction evs as [|[paren pos] evs IH]; intros stack; cbn;
        [discriminate|].
      destruct (loop_body stacking unstacking stack paren pos);
        [apply IH | discriminate | discriminate].
    + unfold _findMatchingBracket, scan; rewrite Hroles; cbn [bind].
      now rewrite Hit.
    + unfold our_iterator in Hit.
      destruct (uses_parser self); cbn in Hit; [|discriminate].
      unfold ParenIterator.__init__ in Hit.
      destruct (ParenIterator.find_start _ _ _); discriminate.
  - unfold _findMatchingBracket, scan; now rewrite Hroles.
  - unfold roles in Hroles.
    destruct (isin char _BRACKS_CLOSE); [discriminate|].
    destruct (isin char _BRACKS_OPEN); discriminate.
Qed.

Lemma query_ends_without_cap_witness :
  exists evs,
    yields next (PlainText (PlainTextParenIterator.mk (lit "(]") 0 1)) evs /\
    _findMatchingBracket no_parser "(" (Qt.mkCursor (plain_line "(]") 1)
    = scan_events _BRACKS_OPEN _BRACKS_CLOSE [("("%char, 1)] evs.
Proof.
  exact (proj2 (query_ends_without_cap no_parser "("
                  (Qt.mkCursor (plain_line "(]") 1))
               1 _BRACKS_OPEN _BRACKS_CLOSE
               (PlainText (PlainTextParenIterator.mk (lit "(]") 0 1))
               eq_refl eq_refl).
Defined.

(** ** The highlight decisions *)

(** C5: for every result of the query, queried position [start] and setting
    of the mismatch option, the highlights painted are the row of the table:
    NoMatch paints the start as unmatched; Match(p) paints the start and [p]
    as a matched pair; MisMatch(corr, off) paints the start as unmatched
    when the option is off, [corr] and [off] as a mismatched pair when the
    option is on and [start = off], and all three when it is on and
    [start <> off]. *)
Theorem highlight_decision_table (name : option string) (hm flag : bool)
    (start : Z) :
  let self := mkEditor name hm flag in
  (forall c o, paint_result self start (mkResult NoMatch c o)
               = Ok [(start, Unmatched)]) /\
  (forall p o, paint_result self start (mkResult Match (Some p) o)
               = Ok [(start, MatchedPair); (p, MatchedPair)]) /\
  (forall corr off,
      paint_result self start (mkResult MisMatch (Some corr) (Some off))
      = Ok (if flag then
              if start =? off
              then [(corr, MismatchedPair); (off, MismatchedPair)]
              else [(start, Unmatched); (corr, MismatchedPair);
                    (off, MismatchedPair)]
            else [(start, Unmatched)])).
Proof.
  cbn; repeat split; intros; try reflexivity.
  unfold paint_result; cbn.
  destruct flag; cbn; [|now rewrite orb_true_r].
  rewrite orb_false_r.
  now destruct (start =? off).
Qed.

(** ** The plain-text iterator at the start of the text *)

(** C6, at the input where the code departs from it: in the text ")" the
    backward iterator from the only bracket gives an event, the start
    bracket itself read through the index -1, and only then stops: it does
    not stop at the start of the document.  In the text ")(" the query at
    ")" so finds a match at position 0. *)
Theorem plain_backward_passes_the_start :
  PlainTextParenIterator.__init__ (Qt.mkCursor (plain_line ")") 1) (-1)
  = Ok (PlainTextParenIterator.mk (lit ")") 0 (-1)) /\
  yields PlainTextParenIterator.__next__
         (PlainTextParenIterator.mk (lit ")") 0 (-1)) [(")"%char, 0)] /\
  getitem (lit ")") (-1) = getitem (lit ")") 0 /\
  _findMatchingBracket no_parser ")" (Qt.mkCursor (plain_line ")(") 1)
  = Ok (mkResult Match (Some 0) None).
Proof.
  split; [reflexivity | split; [|split; reflexivity]].
  econstructor; [reflexivity|].
  constructor; reflexivity.
Qed.

(** ** The two strategies compared *)

(** C7 as stated fails: the line ")" has no string or comment, and the
    query at its bracket gives NoMatch with the tokens and Match with the
    plain text, which has a bracket inside the string of the line before. *)
Lemma strategies_differ_after_a_string :
  lexed (Qt.mkBlock (lit ")") (Some (lex_line (lit ")") 0))) /\
  _findMatchingBracket python_parser ")" (Qt.mkCursor string_then_closer 5)
  <> _findMatchingBracket no_parser ")" (Qt.mkCursor string_then_closer 5).
Proof.
  split; [eexists; split; reflexivity|].
  vm_compute; discriminate.
Qed.

(** C7, amended: in a document all of whose lines have no string or comment
    content, at every bracket of every line the query gives the same result
    with the tokens and with the plain text when the bracket is an opening
    one, and when it is a closing one and the query with the tokens gives
    Match or MisMatch. *)
Theorem strategies_agree (with_parser without : Editor)
    (pre : list Qt.Block) (b : Qt.Block) (post : list Qt.Block)
    (t1 : str) (c : ascii) (t2 : str) :
  uses_parser with_parser = true ->
  uses_parser without = false ->
  Forall lexed (pre ++ b :: post) ->
  Qt.text b = t1 ++ c :: t2 ->
  isin c _BRACKS = true ->
  isin c _BRACKS_OPEN = true \/
  (exists r,
      _findMatchingBracket with_parser c (cursor_right_of pre b post t1)
      = Ok r /\ status r <> NoMatch) ->
  _findMatchingBracket with_parser c (cursor_right_of pre b post t1)
  = _findMatchingBracket without c (cursor_right_of pre b post t1).
Proof.
  intros Hwith Hwithout Hlexed Htext Hc Hcase.
  destruct (roles c) as [[[dir stacking] unstacking]|e|] eqn:Hroles.
  - pose proof (tokenized_query with_parser pre b post t1 c t2 Hwith Htext Hc
                  dir stacking unstacking Hlexed Hroles) as Ht.
    destruct (plain_query without pre b post t1 c t2 Hwithout Htext
                dir stacking unstacking Hroles) as (more & Hpl).
    rewrite Hpl.
    destruct (roles_inv _ _ _ _ Hroles) as [(-> & -> & ->)|(-> & -> & ->)];
      cbn [Z.eqb] in *; [|exact Ht].
    destruct Hcase as [Hopen|(r & Hr & Hstatus)].
    + unfold roles in Hroles.
      destruct (isin c _BRACKS_CLOSE) eqn:Hclose;
        [|now rewrite Hopen in Hroles].
      apply isin_In in Hopen, Hclose; cbn in Hopen, Hclose.
      exfalso; intuition (subst; discriminate).
    + rewrite Hr; symmetry.
      apply scan_events_concluded; [|exact Hstatus].
      now rewrite <- Ht.
  - exfalso; unfold roles in Hroles; unfold _BRACKS in Hc.
    apply isin_In, in_app_or in Hc.
    destruct (isin c _BRACKS_CLOSE) eqn:Hclose; [discriminate|].
    destruct (isin c _BRACKS_OPEN) eqn:Hopen; [discriminate|].
    apply isin_not_In in Hclose, Hopen; tauto.
  - exfalso; unfold roles in Hroles.
    destruct (isin c _BRACKS_CLOSE); [discriminate|].
    destruct (isin c _BRACKS_OPEN); discriminate.
Qed.

Lemma strategies_agree_witness :
  _findMatchingBracket python_parser "[" (Qt.mkCursor two_lines 2)
  = _findMatchingBracket no_parser "[" (Qt.mkCursor two_lines 2).
Proof.
  apply (strategies_agree python_parser no_parser []
           (Qt.mkBlock (lit "([") (Some (lex_line (lit "([") 0)))
           [Qt.mkBlock (lit "])") (Some (lex_line (lit "])") 0))]
           ["("%char] "[" []).
  - reflexivity.
  - reflexivity.
  - repeat constructor; eexists; split; reflexivity.
  - reflexivity.
  - reflexivity.
  - left; reflexivity.
Defined.

(** ** A bracket inside a string or comment *)

(** C8: with a parser in use, when the line of the cursor has tokens but no
    parenthesis token that ends at the cursor's offset in the line, the
    construction of the iterator raises _ParenNotFound, the query raises it
    too, and [paintEvent] catches it: nothing is highlighted and no
    exception leaves. *)
Theorem paren_not_found (self : Editor) (char : ascii) (cursor : Qt.Cursor)
    (b : Qt.Block) (tokens : list Qt.Token) :
  uses_parser self = true ->
  Qt.block_at (Qt.document cursor) (Qt.block cursor) = Some b ->
  Qt.userData b = Some tokens ->
  (forall tok, In tok tokens -> Qt.isParenthesisToken tok = true ->
               Qt.tok_end tok <> Qt.positionInBlock cursor) ->
  (forall d, ParenIterator.__init__ cursor d = Raise _ParenNotFound) /\
  (In char _BRACKS ->
   _findMatchingBracket self char cursor = Raise _ParenNotFound) /\
  paint_bracket self char cursor = Ok [].
Proof.
  intros Hp Hb Hu Hnone.
  assert (Hinit : forall d,
             ParenIterator.__init__ cursor d = Raise _ParenNotFound).
  { intros d; unfold ParenIterator.__init__, ParenIterator._getParenTokens.
    rewrite Hb, Hu, find_start_none; [reflexivity|].
    intros tok Hin; apply filter_In in Hin as [Hin Hparen].
    now apply Hnone. }
  assert (Hfind : In char _BRACKS ->
                  _findMatchingBracket self char cursor
                  = Raise _ParenNotFound).
  { intros Hin; unfold _findMatchingBracket, scan, roles, our_iterator.
    rewrite Hp.
    destruct (isin char _BRACKS_CLOSE) eqn:Hc; cbn [bind].
    - now rewrite Hinit.
    - destruct (isin char _BRACKS_OPEN) eqn:Ho; cbn [bind];
        [now rewrite Hinit|].
      apply isin_not_In in Hc, Ho.
      unfold _BRACKS in Hin; apply in_app_or in Hin; tauto. }
  repeat split; [exact Hinit | exact Hfind |].
  unfold paint_bracket.
  destruct (negb (highlightMatchingBracket self)); [reflexivity|].
  destruct (isin char _BRACKS) eqn:Hin; [|reflexivity].
  apply isin_In in Hin; now rewrite (Hfind Hin).
Qed.

Lemma paren_not_found_witness :
  (forall d, ParenIterator.__init__ (Qt.mkCursor quoted_bracket 2) d
             = Raise _ParenNotFound) /\
  (In "("%char _BRACKS ->
   _findMatchingBracket python_parser "(" (Qt.mkCursor quoted_bracket 2)
   = Raise _ParenNotFound) /\
  paint_bracket python_parser "(" (Qt.mkCursor quoted_bracket 2) = Ok [].
Proof.
  apply (paren_not_found python_parser "(" (Qt.mkCursor quoted_bracket 2)
           (Qt.mkBlock (lit "'('") (Some [Qt.mkToken false "'"%char 3]))
           [Qt.mkToken false "'"%char 3]).
  - reflexivity.
  - reflexivity.
  - reflexivity.
  - intros tok [<-|[]]; discriminate.
Defined.

(** ** The start character and the direction *)

(** C9: a character that is none of the six bracket glyphs makes
    [_findMatchingBracket] raise ValueError (no result is returned); a
    closing bracket selects the backward direction with the closing
    brackets stacking, an opening bracket the forward direction with the
    opening brackets stacking. *)
Theorem start_character_roles (char : ascii) :
  (In char (lit ")]}") ->
   roles char = Ok (-1, _BRACKS_CLOSE, _BRACKS_OPEN)) /\
  (In char (lit "([{") ->
   roles char = Ok (1, _BRACKS_OPEN, _BRACKS_CLOSE)) /\
  (~ In char (lit "()[]{}") ->
   forall self cursor,
     _findMatchingBracket self char cursor = Raise ValueError).
Proof.
  repeat split.
  - intros H; unfold roles.
    now replace (isin char _BRACKS_CLOSE) with true
      by (symmetry; apply isin_In; exact H).
  - intros H; unfold roles.
    assert (Hc : isin char _BRACKS_CLOSE = false).
    { apply isin_not_In; intros Hc; cbn in H, Hc.
      intuition (subst; discriminate). }
    rewrite Hc.
    now replace (isin char _BRACKS_OPEN) with true
      by (symmetry; apply isin_In; exact H).
  - intros H self cursor.
    unfold _findMatchingBracket, scan, roles.
    assert (Hc : isin char _BRACKS_CLOSE = false).
    { apply isin_not_In; intros Hc; apply H; cbn in *; tauto. }
    assert (Ho : isin char _BRACKS_OPEN = false).
    { apply isin_not_In; intros Ho; apply H; cbn in *; tauto. }
    now rewrite Hc, Ho.
Qed.

Lemma start_character_roles_witness :
  roles ")" = Ok (-1, _BRACKS_CLOSE, _BRACKS_OPEN) /\
  roles "[" = Ok (1, _BRACKS_OPEN, _BRACKS_CLOSE) /\
  _findMatchingBracket no_parser "a" (Qt.mkCursor (plain_line "a") 1)
  = Raise ValueError.
Proof.
  split; [|split].
  - apply (start_character_roles ")"); cbn; tauto.
  - apply (start_character_roles "["); cbn; tauto.
  - apply (start_character_roles "a"); cbn.
    intros H; decompose [or] H; discriminate || assumption.
Defined.

(** ** The stack is never empty *)

(** C10: at the start of every iteration of the scan loop the stack is not
    empty, so reading its top never fails (the body raises nothing); the
    stack the body leaves for the next iteration is not empty either; and
    when the body returns Match(p), [p] is the position of the bracket just
    read, the stack holds one entry and that bracket is the partner of its
    character. *)
Theorem stack_never_empty {St : Type} (nxt : St -> py (event * St))
    (char : ascii) (d : Z) (stacking unstacking : str) (p0 : Z) (it0 : St)
    (stack : list event) (it : St) :
  roles char = Ok (d, stacking, unstacking) ->
  reaches nxt stacking unstacking ([(char, p0)], it0) (stack, it) ->
  stack <> [] /\
  forall paren pos,
    (forall e, loop_body stacking unstacking stack paren pos <> Throw e) /\
    (forall stack',
        loop_body stacking unstacking stack paren pos = Continue stack' ->
        stack' <> []) /\
    (forall p o,
        loop_body stacking unstacking stack paren pos
        = Return (mkResult Match p o) ->
        p = Some pos /\
        exists top top_pos,
          stack = [(top, top_pos)] /\
          dict_get _matchingBrackets top = Some paren).
Proof.
  intros Hroles Hreach.
  assert (Hok : stack_ok stacking stack).
  { change stack with (fst (stack, it)).
    eapply reaches_keeps; [exact Hreach|].
    eapply start_stack_ok; exact Hroles. }
  split; [exact (proj1 Hok)|].
  intros paren pos; split; [|split].
  - intros e; eapply loop_body_no_throw; eassumption.
  - intros stack' Hb; eapply loop_body_keeps; eassumption.
  - intros p o; eapply loop_body_match; eassumption.
Qed.

Lemma stack_never_empty_witness :
  [("("%char, 1)] <> [] /\
  forall e, loop_body _BRACKS_OPEN _BRACKS_CLOSE [("("%char, 1)] "]" 2
            <> Throw e.
Proof.
  pose proof (stack_never_empty next "(" 1 _BRACKS_OPEN _BRACKS_CLOSE 1
                (PlainText (PlainTextParenIterator.mk (lit "(]") 0 1))
                [("("%char, 1)] _ eq_refl (reaches_here _ _ _ _)) as [H1 H2].
  split; [exact H1 | exact (proj1 (H2 "]"%char 2))].
Defined.

(** * More properties of the code *)

(** ** The plain-text iterator *)

Lemma skip_bracket (s : str) (d : Z) fuel :
  forall p q,
    PlainTextParenIterator.skip fuel s d p = Ok q ->
    exists c, getitem s q = Some c /\ isin c _BRACKS = true.
Proof.
  induction fuel as [|fuel IH]; intros p q; rewrite skip_eq;
    destruct (getitem s p) as [c|] eqn:Hg; try discriminate;
    destruct (isin c (lit "([{)]}")) eqn:Hc; cbn [negb];
    try (intros [= <-]; now exists c);
    destruct (p + d <? 0); try discriminate.
  apply IH.
Qed.

(** X1: a call of [__next__] of the plain-text iterator ends, and never with
    an IndexError: it raises StopIteration or gives a bracket of the text
    with the position right of it, found strictly further in the direction
    of the iterator. *)
Theorem plain_next_sound (it : PlainTextParenIterator.t) :
  is_direction (PlainTextParenIterator.direction it) ->
  PlainTextParenIterator.__next__ it = Raise StopIteration \/
  exists c q,
    PlainTextParenIterator.__next__ it
    = Ok ((c, q + 1),
          PlainTextParenIterator.mk (PlainTextParenIterator.fulltext it) q
            (PlainTextParenIterator.direction it)) /\
    getitem (PlainTextParenIterator.fulltext it) q = Some c /\
    isin c _BRACKS = true /\
    (PlainTextParenIterator.direction it = 1 ->
     PlainTextParenIterator.position it < q) /\
    (PlainTextParenIterator.direction it = -1 ->
     q < PlainTextParenIterator.position it).
Proof.
  intros Hd.
  destruct (plain_next_cases (PlainTextParenIterator.fulltext it) it
              eq_refl Hd) as [Hs|(e & it' & Hn & _ & _)]; [now left|right].
  destruct (plain_next_inv it e it' Hn) as (q & c & Hq & -> & ->).
  destruct (skip_bracket _ _ _ _ _ Hq) as (c' & Hg & Hc').
  destruct (skip_stops _ _ _ _ _ Hq) as (_ & _ & Hf & Hb).
  assert (c = c') as <-.
  { unfold PlainTextParenIterator.__next__ in Hn.
    rewrite Hq in Hn; cbn [bind] in Hn; rewrite Hg in Hn. congruence. }
  exists c, q. split; [assumption|]. split; [assumption|].
  split; [assumption|]. split; intros H; [specialize (Hf H)|specialize (Hb H)]; lia.
Qed.

Lemma plain_next_sound_witness :
  PlainTextParenIterator.__next__ (PlainTextParenIterator.mk (lit "a(b") 0 1)
  = Raise StopIteration \/
  exists c q,
    PlainTextParenIterator.__next__ (PlainTextParenIterator.mk (lit "a(b") 0 1)
    = Ok ((c, q + 1), PlainTextParenIterator.mk (lit "a(b") q 1) /\
    getitem (lit "a(b") q = Some c /\
    isin c _BRACKS = true /\
    (1 = 1 -> 0 < q) /\ (1 = -1 -> q < 0).
Proof.
  apply (plain_next_sound (PlainTextParenIterator.mk (lit "a(b") 0 1)).
  left; reflexivity.
Defined.




Lemma getitem_last {A : Type} (l : list A) (x : A) :
  getitem (l ++ [x]) (-1) = Some x.
Proof.
  unfold getitem. cbn [Z.leb Z.compare].
  assert (Hl : len (l ++ [x]) = len l + 1)
    by (rewrite len_app, len_cons, len_nil; lia).
  pose proof (len_nonneg l).
  destruct (Z.leb_spec (- len (l ++ [x])) (-1)); [|lia].
  rewrite Hl. replace (len l + 1 + -1) with (len l) by lia.
  unfold len; rewrite Nat2Z.id, nth_error_app2, Nat.sub_diag; [reflexivity|lia].
Qed.

Lemma plain_backward_from_start o pre rest more :
  yields PlainTextParenIterator.__next__
         (PlainTextParenIterator.mk ((o :: pre) ++ rest) 0 (-1)) more ->
  isin o _BRACKS = true ->
  yields PlainTextParenIterator.__next__
         (PlainTextParenIterator.mk ((o :: pre) ++ rest) (len (o :: pre))
            (-1))
         (rev (text_events (o :: pre) 0) ++ more).
Proof.
  intros Hm Ho. revert rest Hm.
  induction pre as [|c pre IH] using rev_ind; intros rest Hm.
  - pose proof (plain_next_backward [] o rest) as Hn.
    rewrite Ho in Hn. cbn [text_events]. rewrite Ho.
    cbn [text_events rev app].
    econstructor; [exact Hn|exact Hm].
  - assert (He : (o :: pre ++ [c]) ++ rest = (o :: pre) ++ c :: rest)
      by (cbn [app]; rewrite <- app_assoc; reflexivity).
    rewrite He in *.
    change (o :: pre ++ [c]) with ((o :: pre) ++ [c]).
    rewrite text_events_app, rev_app_distr.
    replace (len ((o :: pre) ++ [c])) with (len (o :: pre) + 1)
      by (unfold len; rewrite length_app; cbn [length]; lia).
    pose proof (plain_next_backward (o :: pre) c rest) as Hn.
    specialize (IH (c :: rest) Hm).
    change (text_events [c] (0 + len (o :: pre)))
      with (if isin c _BRACKS then [(c, 0 + len (o :: pre) + 1)] else []).
    rewrite Z.add_0_l.
    destruct (isin c _BRACKS).
    + cbn [rev app]; econstructor; eassumption.
    + cbn [rev app].
      destruct (Z.eqb_spec (len (o :: pre)) 0) as [H0|_];
        [rewrite len_cons in H0; pose proof (len_nonneg pre); lia|].
      eapply yields_same_next; eassumption.
Qed.

(** X3: the plain-text iterator has no end at the start of the text when a
    bracket stands there.  Going backwards in a text that begins with a
    bracket and ends with a bracket, it gives the brackets left of its
    start, the first character of the text last, and then goes on with the
    last character of the text ([fulltext[-1]]), reported at position 0. *)
Theorem plain_backward_wraps_around (o : ascii) (w : str) (c : ascii)
    (pre rest : str) :
  isin o _BRACKS = true ->
  isin c _BRACKS = true ->
  (o :: pre) ++ rest = w ++ [c] ->
  exists more,
    yields PlainTextParenIterator.__next__
           (PlainTextParenIterator.mk (w ++ [c]) (len (o :: pre)) (-1))
           (rev (text_events (o :: pre) 0) ++ (c, 0) :: more).
Proof.
  intros Ho Hc Ht.
  destruct (plain_yields (w ++ [c])
              (PlainTextParenIterator.mk (w ++ [c]) (-1) (-1)))
    as (more & Hy & _); [reflexivity | now right |].
  exists more. rewrite <- Ht.
  apply plain_backward_from_start; [|assumption].
  rewrite Ht.
  econstructor; [|exact Hy].
  unfold PlainTextParenIterator.__next__.
  cbn [PlainTextParenIterator.position PlainTextParenIterator.direction
       PlainTextParenIterator.fulltext].
  change (0 + -1) with (-1).
  rewrite skip_eq, getitem_last.
  change (lit "([{)]}") with _BRACKS. rewrite Hc. cbn [negb bind].
  rewrite getitem_last. reflexivity.
Qed.

Lemma plain_backward_wraps_around_witness :
  exists more,
    yields PlainTextParenIterator.__next__
           (PlainTextParenIterator.mk (lit "(a)b]") 3 (-1))
           ([(")"%char, 3); ("("%char, 1)] ++ ("]"%char, 0) :: more).
Proof.
  exact (plain_backward_wraps_around "(" (lit "(a)b") "]" (lit "a)") (lit "b]")
           eq_refl eq_refl eq_refl).
Defined.

(** ** The token iterator *)

(** X4: the token iterator starts at the first parenthesis token of the
    block of the cursor that ends at the cursor.  Forwards it gives the
    tokens after that one and then the tokens of the blocks that follow;
    backwards the tokens before that one, the nearest first, and then those
    of the blocks before, the last block first.  A block without tokens or
    without user data gives nothing. *)
Theorem tokenized_iterator_events (cursor : Qt.Cursor) (dir : Z)
    (it : ParenIterator.t) :
  is_direction dir ->
  ParenIterator.__init__ cursor dir = Ok it ->
  exists b done tok rest,
    Qt.block cursor = Z.of_nat b /\
    ParenIterator._getParenTokens (Qt.document cursor) (Z.of_nat b)
    = done ++ tok :: rest /\
    Qt.tok_end tok = Qt.positionInBlock cursor /\
    Forall (fun t => Qt.tok_end t <> Qt.positionInBlock cursor) done /\
    yields ParenIterator.__next__ it
      (if dir =? 1 then
         block_events (Qt.document cursor) (Z.of_nat b) rest
         ++ doc_events (Qt.document cursor) (S b)
              (length (Qt.document cursor) - S b)
       else
         rev (block_events (Qt.document cursor) (Z.of_nat b) done)
         ++ rev (doc_events (Qt.document cursor) 0 b)).
Proof.
  intros Hd Hi.
  destruct (init_found cursor dir it Hi)
    as (b & done & tok & rest & Hb & Hblk & Htok & Hend & Hfirst & ->).
  exists b, done, tok, rest.
  split; [assumption|]. split; [assumption|]. split; [assumption|].
  split; [assumption|].
  destruct Hd as [-> | ->]; cbn [Z.eqb Pos.eqb].
  - pose proof (tokens_forward (Qt.document cursor)
                  (length (Qt.document cursor) - S b) b rest (done ++ [tok]))
      as Hy.
    rewrite <- app_assoc in Hy; cbn [app] in Hy.
    replace (len (done ++ [tok]) - 1) with (len done) in Hy
      by (unfold len; rewrite length_app; cbn [length]; lia).
    apply Hy. lia.
  - apply (tokens_backward (Qt.document cursor) b done (tok :: rest) Hb).
Qed.

Lemma tokenized_iterator_events_witness :
  exists b done tok rest,
    Qt.block (Qt.mkCursor two_lines 1) = Z.of_nat b /\
    ParenIterator._getParenTokens two_lines (Z.of_nat b)
    = done ++ tok :: rest /\
    Qt.tok_end tok = Qt.positionInBlock (Qt.mkCursor two_lines 1) /\
    Forall (fun t => Qt.tok_end t
                     <> Qt.positionInBlock (Qt.mkCursor two_lines 1)) done /\
    yields ParenIterator.__next__
      (ParenIterator.mk two_lines 0
         [Qt.mkToken true "(" 1; Qt.mkToken true "[" 2] 1 0)
      (block_events two_lines (Z.of_nat b) rest
       ++ doc_events two_lines (S b) (length two_lines - S b)).
Proof.
  exact (tokenized_iterator_events (Qt.mkCursor two_lines 1) 1
           (ParenIterator.mk two_lines 0
              [Qt.mkToken true "(" 1; Qt.mkToken true "[" 2] 1 0)
           (or_introl eq_refl) eq_refl).
Defined.

Lemma next_block_ok fuel :
  forall self self',
    ParenIterator.next_block fuel self = Ok self' ->
    0 <= ParenIterator.cur_pos self'
         < len (ParenIterator.cur_tokens self') /\
    ParenIterator.doc self' = ParenIterator.doc self /\
    ParenIterator.direction self' = ParenIterator.direction self /\
    (self' = self \/
     Qt.isValid (ParenIterator.doc self) (ParenIterator.cur_block self')
     = true /\
     ParenIterator.cur_tokens self'
     = ParenIterator._getParenTokens (ParenIterator.doc self)
         (ParenIterator.cur_block self') /\
     (ParenIterator.direction self = 1 ->
      ParenIterator.cur_block self < ParenIterator.cur_block self') /\
     (ParenIterator.direction self = -1 ->
      ParenIterator.cur_block self' < ParenIterator.cur_block self)).
Proof.
  induction fuel as [|fuel IH]; intros self self'; rewrite next_block_eq;
    destruct ((len (ParenIterator.cur_tokens self)
               <=? ParenIterator.cur_pos self)
              || (ParenIterator.cur_pos self <? 0)) eqn:Hout;
    try discriminate;
    try (intros [= <-]; apply orb_false_iff in Hout; destruct Hout;
         repeat split; try lia; now left).
  cbv zeta.
  destruct (Qt.isValid (ParenIterator.doc self)
              (if ParenIterator.direction self =? 1
               then ParenIterator.cur_block self + 1
               else ParenIterator.cur_block self - 1)) eqn:Hv;
    cbn [negb]; [|discriminate].
  intros Hn. apply IH in Hn.
  cbn [ParenIterator.doc ParenIterator.direction ParenIterator.cur_block
       ParenIterator.cur_tokens ParenIterator.cur_pos] in Hn.
  destruct Hn as (Hpos & Hdoc & Hdir & Hcase).
  split; [assumption|]. split; [assumption|]. split; [assumption|].
  right. destruct Hcase as [-> | (Hv' & Htok & Hf & Hb)];
    cbn [ParenIterator.doc ParenIterator.direction ParenIterator.cur_block
         ParenIterator.cur_tokens ParenIterator.cur_pos].
  - split; [assumption|]. split; [reflexivity|].
    split; intros H; rewrite H; cbn [Z.eqb Pos.eqb]; lia.
  - split; [assumption|]. split; [assumption|].
    split; intros H; [specialize (Hf H)|specialize (Hb H)];
      rewrite H in *; cbn [Z.eqb Pos.eqb] in *; lia.
Qed.

(** X5: a call of [__next__] of the token iterator, on a valid block, ends,
    and never with an IndexError: it raises StopIteration or gives the
    token at its new index.  The iterator then stands on a valid block: the
    block it was on, one index further, or a block strictly further in its
    direction, with the parenthesis tokens of that block. *)
Theorem tokenized_next_sound (it : ParenIterator.t) :
  is_direction (ParenIterator.direction it) ->
  Qt.isValid (ParenIterator.doc it) (ParenIterator.cur_block it) = true ->
  ParenIterator.__next__ it = Raise StopIteration \/
  exists tok it',
    ParenIterator.__next__ it
    = Ok ((Qt._style tok,
           Qt.block_position (ParenIterator.doc it)
             (ParenIterator.cur_block it') + Qt.tok_end tok), it') /\
    getitem (ParenIterator.cur_tokens it') (ParenIterator.cur_pos it')
    = Some tok /\
    ParenIterator.doc it' = ParenIterator.doc it /\
    ParenIterator.direction it' = ParenIterator.direction it /\
    Qt.isValid (ParenIterator.doc it) (ParenIterator.cur_block it') = true /\
    (ParenIterator.cur_block it' = ParenIterator.cur_block it /\
     ParenIterator.cur_tokens it' = ParenIterator.cur_tokens it /\
     ParenIterator.cur_pos it'
     = ParenIterator.cur_pos it + ParenIterator.direction it
     \/
     ParenIterator.cur_tokens it'
     = ParenIterator._getParenTokens (ParenIterator.doc it)
         (ParenIterator.cur_block it') /\
     (ParenIterator.direction it = 1 ->
      ParenIterator.cur_block it < ParenIterator.cur_block it') /\
     (ParenIterator.direction it = -1 ->
      ParenIterator.cur_block it' < ParenIterator.cur_block it)).
Proof.
  intros Hd Hv.
  destruct it as [d blk tokens dir pos];
    cbn [ParenIterator.doc ParenIterator.direction ParenIterator.cur_block
         ParenIterator.cur_tokens ParenIterator.cur_pos] in *.
  apply isValid_spec in Hv.
  unfold ParenIterator.__next__;
    cbn [ParenIterator.doc ParenIterator.direction ParenIterator.cur_block
         ParenIterator.cur_tokens ParenIterator.cur_pos].
  assert (Hfuel : ParenIterator.next_block (S (length d))
                    (ParenIterator.mk d blk tokens dir (pos + dir))
                  <> OutOfFuel).
  { destruct Hd as [-> | ->].
    - apply next_block_enough_forward; unfold len in *; lia.
    - apply next_block_enough_backward; unfold len in *; lia. }
  destruct (ParenIterator.next_block (S (length d))
              (ParenIterator.mk d blk tokens dir (pos + dir)))
    as [it'|e|] eqn:Hn; [| |congruence].
  - right. apply next_block_ok in Hn.
    cbn [ParenIterator.doc ParenIterator.direction ParenIterator.cur_block
         ParenIterator.cur_tokens ParenIterator.cur_pos] in Hn.
    destruct Hn as (Hpos & Hdoc & Hdir & Hcase).
    cbn [bind].
    destruct (getitem (ParenIterator.cur_tokens it')
                (ParenIterator.cur_pos it')) as [tok|] eqn:Hg.
    + exists tok, it'. rewrite Hdoc.
      split; [reflexivity|]. split; [exact Hg|].
      split; [reflexivity|]. split; [assumption|].
      destruct Hcase as [-> | (Hv' & Htok & Hf & Hb)];
        cbn [ParenIterator.doc ParenIterator.direction
             ParenIterator.cur_block ParenIterator.cur_tokens
             ParenIterator.cur_pos].
      * split; [now apply isValid_spec|]. left. now repeat split.
      * split; [assumption|]. right. now repeat split.
    + exfalso. unfold getitem in Hg.
      destruct (Z.leb_spec 0 (ParenIterator.cur_pos it')); [|lia].
      apply nth_error_None in Hg. unfold len in Hpos. lia.
  - left. cbn [bind].
    assert (e = StopIteration) as ->; [|reflexivity].
    clear Hfuel. revert Hn.
    generalize (ParenIterator.mk d blk tokens dir (pos + dir)).
    generalize (S (length d)).
    induction n as [|n IH]; intros self; rewrite next_block_eq;
      destruct ((len (ParenIterator.cur_tokens self)
                 <=? ParenIterator.cur_pos self)
                || (ParenIterator.cur_pos self <? 0));
      try discriminate.
    cbv zeta.
    destruct (Qt.isValid (ParenIterator.doc self)
                (if ParenIterator.direction self =? 1
                 then ParenIterator.cur_block self + 1
                 else ParenIterator.cur_block self - 1));
      cbn [negb]; [apply IH | congruence].
Qed.

Lemma tokenized_next_sound_witness :
  let it := ParenIterator.mk two_lines 0
              [Qt.mkToken true "(" 1; Qt.mkToken true "[" 2] 1 1 in
  ParenIterator.__next__ it = Raise StopIteration \/
  exists tok it',
    ParenIterator.__next__ it
    = Ok ((Qt._style tok,
           Qt.block_position two_lines (ParenIterator.cur_block it')
           + Qt.tok_end tok), it') /\
    getitem (ParenIterator.cur_tokens it') (ParenIterator.cur_pos it')
    = Some tok /\
    ParenIterator.doc it' = two_lines /\
    ParenIterator.direction it' = 1 /\
    Qt.isValid two_lines (ParenIterator.cur_block it') = true /\
    (ParenIterator.cur_block it' = 0 /\
     ParenIterator.cur_tokens it'
     = [Qt.mkToken true "(" 1; Qt.mkToken true "[" 2] /\
     ParenIterator.cur_pos it' = 1 + 1
     \/
     ParenIterator.cur_tokens it'
     = ParenIterator._getParenTokens two_lines (ParenIterator.cur_block it') /\
     (1 = 1 -> 0 < ParenIterator.cur_block it') /\
     (1 = -1 -> ParenIterator.cur_block it' < 0)).
Proof.
  exact (tokenized_next_sound
           (ParenIterator.mk two_lines 0
              [Qt.mkToken true "(" 1; Qt.mkToken true "[" 2] 1 1)
           (or_introl eq_refl) eq_refl).
Defined.

(** ** The answers of _findMatchingBracket *)

Lemma loop_body_return stacking unstacking stack paren pos r :
  loop_body stacking unstacking stack paren pos = Return r ->
  (stack = [] /\ r = mkResult Match (Some pos) None) \/
  exists top top_pos rest,
    stack = (top, top_pos) :: rest /\
    isin paren stacking = false /\ isin paren unstacking = true /\
    ((exists partner,
         dict_get _matchingBrackets top = Some partner /\
         Ascii.eqb partner paren = false /\
         r = mkResult MisMatch (Some pos) (Some top_pos)) \/
     (dict_get _matchingBrackets top = Some paren /\ rest = [] /\
      r = mkResult Match (Some pos) None)).
Proof.
  unfold loop_body.
  destruct (isin paren stacking) eqn:Hs; [discriminate|].
  destruct (isin paren unstacking) eqn:Hu.
  - destruct stack as [|[top top_pos] rest]; [discriminate|].
    destruct (dict_get _matchingBrackets top) as [partner|] eqn:Hp;
      [|discriminate].
    destruct (Ascii.eqb partner paren) eqn:He; cbn [negb].
    + apply Ascii.eqb_eq in He; subst partner.
      destruct rest; [|discriminate]. intros [= <-].
      right. exists top, top_pos, []. repeat split; try assumption.
      right. now repeat split.
    + intros [= <-]. right. exists top, top_pos, rest.
      repeat split; try assumption. left. now exists partner.
  - destruct stack; [|discriminate]. intros [= <-]. now left.
Qed.

Lemma query_cases self char cursor dir stacking unstacking :
  roles char = Ok (dir, stacking, unstacking) ->
  (uses_parser self = true /\
   _findMatchingBracket self char cursor = Raise _ParenNotFound) \/
  exists it0 evs,
    our_iterator self cursor dir = Ok it0 /\
    yields next it0 evs /\
    _findMatchingBracket self char cursor
    = scan_events stacking unstacking [(char, Qt.position cursor)] evs.
Proof.
  intros Hr.
  destruct (our_iterator self cursor dir) as [it0|e|] eqn:Hit.
  - right.
    destruct (scan_events_exist self cursor dir it0
                (roles_direction _ _ _ _ Hr) Hit) as (evs & Hy & _).
    exists it0, evs. split; [reflexivity|]. split; [assumption|].
    eapply query_by_events; eassumption.
  - left. unfold _findMatchingBracket, scan. rewrite Hr; cbn [bind].
    rewrite Hit; cbn [bind].
    unfold our_iterator in Hit.
    destruct (uses_parser self); [|discriminate].
    split; [reflexivity|].
    unfold ParenIterator.__init__ in Hit.
    destruct (ParenIterator.find_start _ _ _); [discriminate|].
    cbn [bind] in Hit. congruence.
  - exfalso. unfold our_iterator in Hit.
    destruct (uses_parser self); [|discriminate].
    unfold ParenIterator.__init__ in Hit.
    destruct (ParenIterator.find_start _ _ _); discriminate.
Qed.

Lemma scan_events_well_formed char dir stacking unstacking :
  roles char = Ok (dir, stacking, unstacking) ->
  forall evs stack,
    stack_ok stacking stack ->
    exists r,
      scan_events stacking unstacking stack evs = Ok r /\
      well_formed r = true.
Proof.
  intros Hr evs.
  induction evs as [|[paren pos] evs IH]; intros stack Hok.
  - now eexists.
  - cbn [scan_events].
    destruct (loop_body stacking unstacking stack paren pos) as [stack'|r|e]
      eqn:Hb.
    + apply IH. eapply loop_body_keeps; eassumption.
    + exists r. split; [reflexivity|].
      destruct (loop_body_return _ _ _ _ _ _ Hb)
        as [(_ & ->) | (top & top_pos & rest & _ & _ & _ &
                        [(p & _ & _ & ->) | (_ & _ & ->)])];
        reflexivity.
    + exfalso. eapply loop_body_no_throw; eassumption.
Qed.

(** X6: what a query for a bracket can give.  It ends, and it raises
    neither ValueError nor IndexError nor KeyError: either it returns a
    result that is well formed (NoMatch without a position, Match with the
    corresponding position only, MisMatch with both positions), or, with a
    parser only, it raises _ParenNotFound. *)
Theorem query_outcomes (self : Editor) (char : ascii) (cursor : Qt.Cursor) :
  isin char _BRACKS = true ->
  (exists r,
      _findMatchingBracket self char cursor = Ok r /\
      well_formed r = true) \/
  (uses_parser self = true /\
   _findMatchingBracket self char cursor = Raise _ParenNotFound).
Proof.
  intros Hc.
  assert (exists dir stacking unstacking,
             roles char = Ok (dir, stacking, unstacking))
    as (dir & stacking & unstacking & Hr).
  { unfold roles. unfold _BRACKS in Hc. unfold isin in *.
    rewrite existsb_app in Hc.
    destruct (existsb (Ascii.eqb char) _BRACKS_CLOSE); [now eexists _, _, _|].
    rewrite orb_false_r in Hc. rewrite Hc. now eexists _, _, _. }
  destruct (query_cases self char cursor dir stacking unstacking Hr)
    as [Hnf | (it0 & evs & _ & _ & ->)]; [now right|left].
  eapply scan_events_well_formed; [eassumption|].
  eapply start_stack_ok; eassumption.
Qed.

Lemma query_outcomes_witness :
  (exists r,
      _findMatchingBracket python_parser "(" (Qt.mkCursor quoted_bracket 2)
      = Ok r /\
      well_formed r = true) \/
  (uses_parser python_parser = true /\
   _findMatchingBracket python_parser "(" (Qt.mkCursor quoted_bracket 2)
   = Raise _ParenNotFound).
Proof.
  exact (query_outcomes python_parser "(" (Qt.mkCursor quoted_bracket 2)
           eq_refl).
Defined.

Lemma scan_match_partner char dir stacking unstacking start :
  roles char = Ok (dir, stacking, unstacking) ->
  forall evs below r,
    stack_ok stacking (below ++ [(char, start)]) ->
    scan_events stacking unstacking (below ++ [(char, start)]) evs = Ok r ->
    status r = Match ->
    exists evs1 paren pos evs2,
      evs = evs1 ++ (paren, pos) :: evs2 /\
      r = mkResult Match (Some pos) None /\
      dict_get _matchingBrackets char = Some paren.
Proof.
  intros Hr evs.
  induction evs as [|[paren pos] evs IH]; intros below r Hok.
  - intros [= <-]; discriminate.
  - cbn [scan_events].
    destruct (loop_body stacking unstacking (below ++ [(char, start)])
                paren pos) as [stack'|r'|e] eqn:Hb.
    + intros Hs Hm.
      assert (exists below', stack' = below' ++ [(char, start)])
        as (below' & ->).
      { unfold loop_body in Hb.
        destruct (isin paren stacking).
        - injection Hb as <-. now exists ((paren, pos) :: below).
        - destruct (isin paren unstacking).
          + destruct below as [|[top top_pos] below]; cbn [app] in Hb.
            * destruct (dict_get _matchingBrackets char); [|discriminate].
              destruct (negb _); discriminate.
            * destruct (dict_get _matchingBrackets top); [|discriminate].
              destruct (negb _); [discriminate|].
              unfold conclude in Hb.
              destruct (below ++ [(char, start)]) eqn:He; [discriminate|].
              injection Hb as <-. now exists below.
          + unfold conclude in Hb.
            destruct (below ++ [(char, start)]) eqn:He; [discriminate|].
            injection Hb as <-. now exists below. }
      destruct (IH below' r) as (evs1 & p & q & evs2 & -> & -> & Hd);
        try assumption.
      { eapply loop_body_keeps; eassumption. }
      now exists ((paren, pos) :: evs1), p, q, evs2.
    + intros [= ->] Hm.
      destruct (loop_body_return _ _ _ _ _ _ Hb)
        as [(He & _) | (top & top_pos & rest & He & _ & _ &
                        [(p & _ & _ & ->) | (Hd & -> & ->)])].
      * destruct below; discriminate.
      * discriminate.
      * destruct below as [|x [|y below]]; try discriminate.
        injection He as -> ->.
        now exists [], paren, pos, evs.
    + discriminate.
Qed.

(** X7: a Match pairs the start bracket with a bracket of its own family.
    When a query returns Match, the corresponding position is that of an
    event the iterator gave, and the bracket of that event is the partner
    of the start character in [_matchingBrackets]; nothing is reported as
    offending. *)
Theorem match_is_the_partner (self : Editor) (char : ascii)
    (cursor : Qt.Cursor) (r : _MatchResult) :
  _findMatchingBracket self char cursor = Ok r ->
  status r = Match ->
  exists dir stacking unstacking it0 evs1 paren pos evs2,
    roles char = Ok (dir, stacking, unstacking) /\
    our_iterator self cursor dir = Ok it0 /\
    yields next it0 (evs1 ++ (paren, pos) :: evs2) /\
    r = mkResult Match (Some pos) None /\
    dict_get _matchingBrackets char = Some paren.
Proof.
  intros Hq Hm.
  destruct (roles char) as [[[dir stacking] unstacking]|e|] eqn:Hr.
  - destruct (query_cases self char cursor dir stacking unstacking Hr)
      as [(_ & Hnf) | (it0 & evs & Hit & Hy & He)]; [congruence|].
    rewrite He in Hq.
    destruct (scan_match_partner char dir stacking unstacking
                (Qt.position cursor) Hr evs [] r)
      as (evs1 & paren & pos & evs2 & -> & -> & Hd); try assumption.
    { eapply start_stack_ok; eassumption. }
    now exists dir, stacking, unstacking, it0, evs1, paren, pos, evs2.
  - unfold _findMatchingBracket, scan in Hq. rewrite Hr in Hq. discriminate.
  - unfold _findMatchingBracket, scan in Hq. rewrite Hr in Hq. discriminate.
Qed.

Lemma match_is_the_partner_witness :
  exists dir stacking unstacking it0 evs1 paren pos evs2,
    roles "(" = Ok (dir, stacking, unstacking) /\
    our_iterator python_parser (Qt.mkCursor two_lines 1) dir = Ok it0 /\
    yields next it0 (evs1 ++ (paren, pos) :: evs2) /\
    mkResult Match (Some 5) None = mkResult Match (Some pos) None /\
    dict_get _matchingBrackets "(" = Some paren.
Proof.
  exact (match_is_the_partner python_parser "(" (Qt.mkCursor two_lines 1)
           (mkResult Match (Some 5) None) eq_refl eq_refl).
Defined.

(** ** Pairs of brackets anywhere in a document *)

Section InContext.

Variables (self : Editor).
Variables (pre : list Qt.Block) (b : Qt.Block) (post : list Qt.Block).
Variables (t1 : str) (c : ascii) (t2 : str).
Hypothesis Hlexed : uses_parser self = true -> Forall lexed (pre ++ b :: post).
Hypothesis Htext : Qt.text b = t1 ++ c :: t2.

Lemma forward_query :
  isin c _BRACKS_OPEN = true -> isin c _BRACKS_CLOSE = false ->
  _findMatchingBracket self c (cursor_right_of pre b post t1)
  = scan_events _BRACKS_OPEN _BRACKS_CLOSE
      [(c, Qt.position (cursor_right_of pre b post t1))]
      (text_events (t2 ++ text_after post)
                   (Qt.position (cursor_right_of pre b post t1))).
Proof.
  intros Ho Hcl.
  assert (Hr : roles c = Ok (1, _BRACKS_OPEN, _BRACKS_CLOSE))
    by (unfold roles; now rewrite Hcl, Ho).
  assert (Hc : isin c _BRACKS = true).
  { unfold _BRACKS, isin in *. rewrite existsb_app, Ho. reflexivity. }
  destruct (uses_parser self) eqn:Hp.
  - exact (tokenized_query self pre b post t1 c t2 Hp Htext Hc
             1 _ _ (Hlexed eq_refl) Hr).
  - destruct (plain_query self pre b post t1 c t2 Hp Htext 1 _ _ Hr)
      as (more & Hq).
    exact Hq.
Qed.

Lemma backward_query :
  isin c _BRACKS_CLOSE = true ->
  exists more,
    _findMatchingBracket self c (cursor_right_of pre b post t1)
    = scan_events _BRACKS_CLOSE _BRACKS_OPEN
        [(c, Qt.position (cursor_right_of pre b post t1))]
        (rev (text_events (text_before pre ++ t1) 0) ++ more).
Proof.
  intros Hcl.
  assert (Hr : roles c = Ok (-1, _BRACKS_CLOSE, _BRACKS_OPEN))
    by (unfold roles; now rewrite Hcl).
  assert (Hc : isin c _BRACKS = true).
  { unfold _BRACKS, isin in *. rewrite existsb_app, Hcl. apply orb_true_r. }
  destruct (uses_parser self) eqn:Hp.
  - exists []. rewrite app_nil_r.
    exact (tokenized_query self pre b post t1 c t2 Hp Htext Hc
             (-1) _ _ (Hlexed eq_refl) Hr).
  - exact (plain_query self pre b post t1 c t2 Hp Htext (-1) _ _ Hr).
Qed.

End InContext.

Lemma other_family o c o' c' :
  In (o, c) bracket_pairs -> In (o', c') bracket_pairs -> o <> o' ->
  forall stack p pos,
    loop_body _BRACKS_OPEN _BRACKS_CLOSE ((o, p) :: stack) c' pos
    = Return (mkResult MisMatch (Some pos) (Some p)).
Proof.
  intros H H' Hne stack p pos.
  destruct H as [[= <- <-]|[[= <- <-]|[[= <- <-]|[]]]];
    destruct H' as [[= <- <-]|[[= <- <-]|[[= <- <-]|[]]]];
    try congruence; reflexivity.
Qed.

Lemma scan_pair_forward o c body rest p :
  In (o, c) bracket_pairs ->
  balanced body ->
  scan_events _BRACKS_OPEN _BRACKS_CLOSE [(o, p)]
              (text_events (body ++ c :: rest) p)
  = Ok (mkResult Match (Some (p + len body + 1)) None).
Proof.
  intros Hp Hbal.
  destruct (bracket_pair_facts o c Hp)
    as (_ & Hcb & Hoo & Hco & Hoc & Hcc & Hd & _).
  rewrite text_events_app.
  rewrite scan_balanced_forward by (assumption || discriminate).
  cbn [text_events]. rewrite Hcb. cbn [scan_events].
  rewrite (loop_pop _ _ o _ [] c _ Hco Hcc Hd).
  reflexivity.
Qed.

(** X8: an opening bracket anywhere in a document matches its partner.
    When the text right of the bracket, through the line ends, is a
    balanced text and then the closing bracket of the same family, the
    query with the cursor right of the opening bracket returns Match with
    the position right of that closing bracket, in a document without a
    parser and in one whose lines are all lexed. *)
Theorem pair_matches_forward (self : Editor)
    (pre : list Qt.Block) (b : Qt.Block) (post : list Qt.Block)
    (t1 : str) (o c : ascii) (body t2 rest : str) :
  In (o, c) bracket_pairs ->
  balanced body ->
  (uses_parser self = true -> Forall lexed (pre ++ b :: post)) ->
  Qt.text b = t1 ++ o :: t2 ->
  t2 ++ text_after post = body ++ c :: rest ->
  _findMatchingBracket self o (cursor_right_of pre b post t1)
  = Ok (mkResult Match
          (Some (Qt.position (cursor_right_of pre b post t1) + len body + 1))
          None).
Proof.
  intros Hp Hbal Hlex Htext Hsplit.
  destruct (bracket_pair_facts o c Hp) as (_ & _ & Hoo & _ & Hoc & _).
  rewrite (forward_query self pre b post t1 o t2 Hlex Htext Hoo Hoc).
  rewrite Hsplit. now apply scan_pair_forward.
Qed.

Lemma pair_matches_forward_witness :
  _findMatchingBracket python_parser "[" (Qt.mkCursor two_lines 2)
  = Ok (mkResult Match (Some 4) None).
Proof.
  apply (pair_matches_forward python_parser []
           (Qt.mkBlock (lit "([") (Some (lex_line (lit "([") 0)))
           [Qt.mkBlock (lit "])") (Some (lex_line (lit "])") 0))]
           (lit "(") "[" "]" [Qt.newline] [] (lit ")")).
  - right; left; reflexivity.
  - apply balanced_char; [reflexivity | apply balanced_nil].
  - intros _; repeat constructor; eexists; split; reflexivity.
  - reflexivity.
  - reflexivity.
Defined.

(** X9: a closing bracket anywhere in a document matches its partner.
    When the text left of the bracket, through the line ends, ends with the
    opening bracket of the same family and then a balanced text, the query
    with the cursor right of the closing bracket returns Match with the
    position right of that opening bracket, in a document without a parser
    and in one whose lines are all lexed. *)
Theorem pair_matches_backward (self : Editor)
    (pre : list Qt.Block) (b : Qt.Block) (post : list Qt.Block)
    (t1 : str) (o c : ascii) (body t2 rest : str) :
  In (o, c) bracket_pairs ->
  balanced body ->
  (uses_parser self = true -> Forall lexed (pre ++ b :: post)) ->
  Qt.text b = t1 ++ c :: t2 ->
  text_before pre ++ t1 = rest ++ o :: body ->
  _findMatchingBracket self c (cursor_right_of pre b post t1)
  = Ok (mkResult Match (Some (len rest + 1)) None).
Proof.
  intros Hp Hbal Hlex Htext Hsplit.
  destruct (bracket_pair_facts o c Hp)
    as (Hob & _ & Hoo & Hco & Hoc & Hcc & _ & Hd).
  destruct (backward_query self pre b post t1 c t2 Hlex Htext Hcc)
    as (more & ->).
  rewrite Hsplit, text_events_app.
  cbn [text_events]. rewrite Hob.
  rewrite rev_app_distr. cbn [rev]. rewrite <- !app_assoc.
  rewrite scan_balanced_backward by (assumption || discriminate).
  cbn [app scan_events].
  rewrite (loop_pop _ _ c _ [] o _ Hoc Hoo Hd).
  cbn [conclude]. rewrite Z.add_0_l. reflexivity.
Qed.

Lemma pair_matches_backward_witness :
  _findMatchingBracket no_parser "]" (Qt.mkCursor two_lines 4)
  = Ok (mkResult Match (Some 2) None).
Proof.
  apply (pair_matches_backward no_parser
           [Qt.mkBlock (lit "([") (Some (lex_line (lit "([") 0))]
           (Qt.mkBlock (lit "])") (Some (lex_line (lit "])") 0)))
           [] [] "[" "]" [Qt.newline] (lit ")") (lit "(")).
  - right; left; reflexivity.
  - apply balanced_char; [reflexivity | apply balanced_nil].
  - intros H; discriminate H.
  - reflexivity.
  - reflexivity.
Defined.

(** X10: a closing bracket of another family is a mismatch with the start.
    When the text right of an opening bracket is a balanced text and then a
    closing bracket of another family, the query returns MisMatch: the
    corresponding position is the one right of that closing bracket, the
    offending position is the one of the cursor, right of the opening
    bracket. *)
Theorem other_family_mismatches (self : Editor)
    (pre : list Qt.Block) (b : Qt.Block) (post : list Qt.Block)
    (t1 : str) (o c o' c' : ascii) (body t2 rest : str) :
  In (o, c) bracket_pairs ->
  In (o', c') bracket_pairs ->
  o <> o' ->
  balanced body ->
  (uses_parser self = true -> Forall lexed (pre ++ b :: post)) ->
  Qt.text b = t1 ++ o :: t2 ->
  t2 ++ text_after post = body ++ c' :: rest ->
  _findMatchingBracket self o (cursor_right_of pre b post t1)
  = Ok (mkResult MisMatch
          (Some (Qt.position (cursor_right_of pre b post t1) + len body + 1))
          (Some (Qt.position (cursor_right_of pre b post t1)))).
Proof.
  intros Hp Hp' Hne Hbal Hlex Htext Hsplit.
  destruct (bracket_pair_facts o c Hp) as (_ & _ & Hoo & _ & Hoc & _).
  destruct (bracket_pair_facts o' c' Hp') as (_ & Hcb & _).
  rewrite (forward_query self pre b post t1 o t2 Hlex Htext Hoo Hoc).
  rewrite Hsplit, text_events_app.
  rewrite scan_balanced_forward by (assumption || discriminate).
  cbn [text_events]. rewrite Hcb. cbn [scan_events].
  rewrite (other_family o c o' c' Hp Hp' Hne).
  reflexivity.
Qed.

Lemma other_family_mismatches_witness :
  _findMatchingBracket no_parser "(" (Qt.mkCursor (plain_line "(a]") 1)
  = Ok (mkResult MisMatch (Some 3) (Some 1)).
Proof.
  apply (other_family_mismatches no_parser []
           (Qt.mkBlock (lit "(a]") None) [] [] "(" ")" "[" "]"
           (lit "a") (lit "a]") []).
  - left; reflexivity.
  - right; left; reflexivity.
  - discriminate.
  - apply balanced_char; [reflexivity | apply balanced_nil].
  - intros H; discriminate H.
  - reflexivity.
  - reflexivity.
Defined.

(** X11: an opening bracket that is never closed.  When the text right of
    an opening bracket, to the end of the document, is balanced, the query
    reads all of it and returns NoMatch, without a position. *)
Theorem unclosed_opener_has_no_match (self : Editor)
    (pre : list Qt.Block) (b : Qt.Block) (post : list Qt.Block)
    (t1 : str) (o c : ascii) (t2 : str) :
  In (o, c) bracket_pairs ->
  (uses_parser self = true -> Forall lexed (pre ++ b :: post)) ->
  Qt.text b = t1 ++ o :: t2 ->
  balanced (t2 ++ text_after post) ->
  _findMatchingBracket self o (cursor_right_of pre b post t1)
  = Ok (mkResult NoMatch None None).
Proof.
  intros Hp Hlex Htext Hbal.
  destruct (bracket_pair_facts o c Hp) as (_ & _ & Hoo & _ & Hoc & _).
  rewrite (forward_query self pre b post t1 o t2 Hlex Htext Hoo Hoc).
  rewrite <- (app_nil_r (text_events _ _)).
  rewrite scan_balanced_forward by (assumption || discriminate).
  reflexivity.
Qed.

Lemma unclosed_opener_has_no_match_witness :
  _findMatchingBracket no_parser "{" (Qt.mkCursor (plain_line "{()") 1)
  = Ok (mkResult NoMatch None None).
Proof.
  apply (unclosed_opener_has_no_match no_parser []
           (Qt.mkBlock (lit "{()") None) [] [] "{" "}" (lit "()")).
  - right; right; left; reflexivity.
  - intros H; discriminate H.
  - reflexivity.
  - apply (balanced_pair "(" ")" [] []);
      [left; reflexivity | apply balanced_nil | apply balanced_nil].
Defined.

(** X12: a mismatch deeper in the text.  When the text right of an opening
    bracket is a balanced text, an opening bracket, a balanced text again
    and then a closing bracket of another family than that second opening
    bracket, the query returns MisMatch with the position right of the
    closing bracket as the corresponding one and the position right of the
    second opening bracket as the offending one, whatever the family of the
    start bracket. *)
Theorem inner_mismatch (self : Editor)
    (pre : list Qt.Block) (b : Qt.Block) (post : list Qt.Block)
    (t1 : str) (o c o1 c1 o2 c2 : ascii) (body1 body2 t2 rest : str) :
  In (o, c) bracket_pairs ->
  In (o1, c1) bracket_pairs ->
  In (o2, c2) bracket_pairs ->
  o1 <> o2 ->
  balanced body1 ->
  balanced body2 ->
  (uses_parser self = true -> Forall lexed (pre ++ b :: post)) ->
  Qt.text b = t1 ++ o :: t2 ->
  t2 ++ text_after post = body1 ++ o1 :: body2 ++ c2 :: rest ->
  _findMatchingBracket self o (cursor_right_of pre b post t1)
  = Ok (mkResult MisMatch
          (Some (Qt.position (cursor_right_of pre b post t1)
                 + len body1 + len body2 + 2))
          (Some (Qt.position (cursor_right_of pre b post t1)
                 + len body1 + 1))).
Proof.
  intros Hp Hp1 Hp2 Hne Hbal1 Hbal2 Hlex Htext Hsplit.
  destruct (bracket_pair_facts o c Hp) as (_ & _ & Hoo & _ & Hoc & _).
  destruct (bracket_pair_facts o1 c1 Hp1) as (Ho1b & _ & Ho1o & _).
  destruct (bracket_pair_facts o2 c2 Hp2) as (_ & Hc2b & _).
  rewrite (forward_query self pre b post t1 o t2 Hlex Htext Hoo Hoc).
  rewrite Hsplit, text_events_app.
  rewrite scan_balanced_forward by (assumption || discriminate).
  cbn [text_events]. rewrite Ho1b. cbn [scan_events].
  rewrite (loop_push _ _ _ o1 _ Ho1o).
  rewrite text_events_app.
  rewrite scan_balanced_forward by (assumption || discriminate).
  cbn [text_events]. rewrite Hc2b. cbn [scan_events].
  rewrite (other_family o1 c1 o2 c2 Hp1 Hp2 Hne).
  do 3 f_equal. lia.
Qed.

Lemma inner_mismatch_witness :
  _findMatchingBracket no_parser "(" (Qt.mkCursor (plain_line "(a[b}") 1)
  = Ok (mkResult MisMatch (Some 5) (Some 3)).
Proof.
  apply (inner_mismatch no_parser []
           (Qt.mkBlock (lit "(a[b}") None) [] [] "(" ")" "[" "]" "{" "}"
           (lit "a") (lit "b") (lit "a[b}") []).
  - left; reflexivity.
  - right; left; reflexivity.
  - right; right; left; reflexivity.
  - discriminate.
  - apply balanced_char; [reflexivity | apply balanced_nil].
  - apply balanced_char; [reflexivity | apply balanced_nil].
  - intros H; discriminate H.
  - reflexivity.
  - reflexivity.
Defined.

(** ** paintEvent *)

Lemma roles_of_bracket char :
  isin char _BRACKS = true ->
  exists dir stacking unstacking,
    roles char = Ok (dir, stacking, unstacking).
Proof.
  intros Hc. unfold roles. unfold _BRACKS, isin in *.
  rewrite existsb_app in Hc.
  destruct (existsb (Ascii.eqb char) _BRACKS_CLOSE); [now eexists _, _, _|].
  rewrite orb_false_r in Hc. rewrite Hc. now eexists _, _, _.
Qed.

Lemma paint_result_ok self pos r :
  well_formed r = true ->
  exists h hs,
    paint_result self pos r = Ok (h :: hs) /\ (length hs <= 2)%nat.
Proof.
  destruct r as [[] [c|] [o|]]; try discriminate; intros _;
    unfold paint_result;
    cbn [status corresponding offending the_int bind].
  - eexists _, _; split; [reflexivity | cbn; lia].
  - eexists _, _; split; [reflexivity | cbn; lia].
  - destruct (highlightMisMatchingBracket self); cbn [negb orb].
    + rewrite orb_false_r.
      destruct (int_neq_opt pos (Some o)); cbn [app];
        eexists _, _; (split; [reflexivity | cbn; lia]).
    + rewrite orb_true_r.
      eexists _, _; split; [reflexivity | cbn; lia].
Qed.

Lemma paint_bracket_cases self char cursor :
  (exists h hs,
      paint_bracket self char cursor = Ok (h :: hs) /\
      (length hs <= 2)%nat) \/
  (paint_bracket self char cursor = Ok [] /\
   (highlightMatchingBracket self = false \/
    isin char _BRACKS = false \/
    uses_parser self = true)).
Proof.
  unfold paint_bracket.
  destruct (highlightMatchingBracket self); cbn [negb]; [|right; auto].
  destruct (isin char _BRACKS) eqn:Hc; [|right; auto].
  destruct (roles_of_bracket char Hc) as (dir & stacking & unstacking & Hr).
  destruct (query_cases self char cursor dir stacking unstacking Hr)
    as [(Hp & ->) | (it0 & evs & _ & _ & ->)]; [right; auto|left].
  destruct (scan_events_well_formed char dir stacking unstacking Hr evs
              [(char, Qt.position cursor)]) as (r & -> & Hwf).
  { eapply start_stack_ok; eassumption. }
  now apply paint_result_ok.
Qed.

Lemma getitem_some {A : Type} (l : list A) (i : Z) :
  - len l <= i < len l -> exists x, getitem l i = Some x.
Proof.
  intros Hi. unfold getitem.
  destruct (Z.leb_spec 0 i).
  - destruct (nth_error l (Z.to_nat i)) eqn:Hn; [now eexists|].
    apply nth_error_None in Hn. unfold len in Hi. lia.
  - destruct (Z.leb_spec (- len l) i); [|lia].
    destruct (nth_error l (Z.to_nat (len l + i))) eqn:Hn; [now eexists|].
    apply nth_error_None in Hn. unfold len in *. lia.
Qed.

Lemma locate_nonneg d :
  forall p, 0 <= p -> 0 <= snd (Qt.locate d p).
Proof.
  induction d as [|a d IH]; intros p Hp; [exact Hp|].
  destruct d as [|b d]; [exact Hp|].
  rewrite locate_cons.
  destruct (Z.leb_spec p (len (Qt.text a))); [exact Hp|].
  specialize (IH (p - len (Qt.text a) - 1)).
  destruct (Qt.locate (b :: d) (p - len (Qt.text a) - 1)).
  cbn [snd] in *. apply IH. lia.
Qed.

Lemma moveRight_nonneg c :
  0 <= Qt.position c -> 0 <= Qt.position (QtCursor.moveRight c).
Proof.
  unfold QtCursor.moveRight.
  destruct (_ <? _); cbn [Qt.position]; lia.
Qed.

Lemma query_never_raises cursor :
  0 <= Qt.position cursor ->
  exists q, MatchingBracketPaint.query cursor = Ok q.
Proof.
  intros Hp. unfold MatchingBracketPaint.query.
  set (c1 := if QtCursor.atBlockStart cursor
             then QtCursor.moveRight cursor else cursor).
  assert (H1 : 0 <= Qt.positionInBlock c1).
  { apply locate_nonneg. subst c1.
    destruct (QtCursor.atBlockStart cursor);
      [now apply moveRight_nonneg | assumption]. }
  destruct ((Qt.positionInBlock c1 - 1 <? len (QtCursor.blockText c1))
            && (0 <? len (QtCursor.blockText c1))) eqn:Hg; [|now eexists].
  apply andb_true_iff in Hg. destruct Hg as [Hg1 Hg2].
  apply Z.ltb_lt in Hg1. apply Z.ltb_lt in Hg2.
  destruct (getitem_some (QtCursor.blockText c1)
              (Qt.positionInBlock c1 - 1)) as (x & ->); [lia|].
  destruct (negb (QtCursor.atBlockStart cursor) && negb (isin x _BRACKS)
            && (Qt.positionInBlock c1 - 1 + 1
                <? len (QtCursor.blockText c1))) eqn:Hg3; [|now eexists].
  apply andb_true_iff in Hg3. destruct Hg3 as [_ Hg3].
  apply Z.ltb_lt in Hg3.
  destruct (getitem_some (QtCursor.blockText c1)
              (Qt.positionInBlock c1 - 1 + 1)) as (y & ->); [lia|].
  now eexists.
Qed.

(** X13: [paintEvent] never raises.  For a text cursor at a position that
    is not negative it ends with at most three highlights: the IndexError
    of [text[pos]] cannot occur, a query raises nothing but _ParenNotFound,
    which is caught, and the positions a result needs are never None. *)
Theorem paintEvent_never_raises (self : Editor) (cursor : Qt.Cursor) :
  0 <= Qt.position cursor ->
  exists hs,
    MatchingBracketPaint.paintEvent self cursor = Ok hs /\
    (length hs <= 3)%nat.
Proof.
  intros Hp. unfold MatchingBracketPaint.paintEvent.
  destruct (highlightMatchingBracket self); cbn [negb];
    [|exists []; split; [reflexivity | cbn; lia]].
  destruct (query_never_raises cursor Hp) as ([[char c1]|] & ->);
    cbn [bind]; [|exists []; split; [reflexivity | cbn; lia]].
  destruct (paint_bracket_cases self char c1)
    as [(h & hs & -> & Hl) | (-> & _)].
  - exists (h :: hs). split; [reflexivity | cbn [length]; lia].
  - exists []. split; [reflexivity | cbn; lia].
Qed.

Lemma paintEvent_never_raises_witness :
  exists hs,
    MatchingBracketPaint.paintEvent no_parser (Qt.mkCursor (plain_line "(a]") 0)
    = Ok hs /\
    (length hs <= 3)%nat.
Proof.
  apply (paintEvent_never_raises no_parser (Qt.mkCursor (plain_line "(a]") 0)).
  cbn. lia.
Defined.

Section CursorInBlock.

Variables (pre : list Qt.Block) (b : Qt.Block) (post : list Qt.Block).

Lemma block_at_middle :
  Qt.block_at (pre ++ b :: post) (len pre) = Some b.
Proof.
  unfold Qt.block_at, Qt.isValid.
  pose proof (len_nonneg pre). pose proof (len_nonneg post).
  destruct (Z.leb_spec 0 (len pre)); [|lia].
  destruct (Z.ltb_spec (len pre) (len (pre ++ b :: post)));
    [|rewrite len_app, len_cons in *; lia].
  cbn [andb]. unfold len. rewrite Nat2Z.id.
  rewrite nth_error_app2, Nat.sub_diag; [reflexivity|lia].
Qed.

Lemma cursor_in_block off :
  0 <= off <= len (Qt.text b) ->
  Qt.positionInBlock
    (Qt.mkCursor (pre ++ b :: post) (len (text_before pre) + off)) = off /\
  QtCursor.blockText
    (Qt.mkCursor (pre ++ b :: post) (len (text_before pre) + off))
  = Qt.text b.
Proof.
  intros Hoff.
  unfold QtCursor.blockText, Qt.positionInBlock, Qt.block.
  cbn [Qt.document Qt.position].
  rewrite locate_block by assumption. cbn [fst snd].
  now rewrite block_at_middle.
Qed.

Lemma moveRight_in_block off :
  0 <= off ->
  off < len (Qt.text b) \/ (off <= len (Qt.text b) /\ post <> []) ->
  QtCursor.moveRight
    (Qt.mkCursor (pre ++ b :: post) (len (text_before pre) + off))
  = Qt.mkCursor (pre ++ b :: post) (len (text_before pre) + off + 1).
Proof.
  intros H0 Hoff. unfold QtCursor.moveRight. cbn [Qt.document Qt.position].
  rewrite toPlainText_split, !len_app.
  pose proof (len_nonneg (text_after post)).
  destruct (Z.ltb_spec (len (text_before pre) + off)
              (len (text_before pre)
               + (len (Qt.text b) + len (text_after post))));
    [reflexivity|].
  destruct Hoff as [Hoff | [Hoff Hpost]]; [lia|].
  destruct post as [|x l]; [congruence|].
  rewrite text_after_cons, len_cons in *.
  pose proof (len_nonneg (Qt.text x ++ text_after l)). lia.
Qed.

End CursorInBlock.

Lemma query_at_bracket pre b post t1 c t2 :
  Qt.text b = t1 ++ c :: t2 ->
  isin c _BRACKS = true ->
  MatchingBracketPaint.query (cursor_right_of pre b post t1)
  = Ok (Some (c, cursor_right_of pre b post t1)).
Proof.
  intros Htext Hc.
  unfold MatchingBracketPaint.query, QtCursor.atBlockStart.
  unfold cursor_right_of. rewrite <- Z.add_assoc.
  pose proof (len_nonneg t1). pose proof (len_nonneg t2).
  assert (Hlen : len (Qt.text b) = len t1 + len t2 + 1)
    by (rewrite Htext, len_app, len_cons; lia).
  destruct (cursor_in_block pre b post (len t1 + 1)) as [Hpib Htxt];
    [lia|].
  rewrite Hpib.
  destruct (Z.eqb_spec (len t1 + 1) 0); [lia|].
  rewrite Hpib, Htxt.
  replace (len t1 + 1 - 1) with (len t1) by lia.
  destruct (Z.ltb_spec (len t1) (len (Qt.text b))); [|lia].
  destruct (Z.ltb_spec 0 (len (Qt.text b))); [|lia].
  cbn [andb negb]. rewrite Htext at 1. rewrite getitem_middle.
  rewrite Hc. reflexivity.
Qed.

(** X14: a bracket left of the cursor is the one that is queried.  When
    the character left of the text cursor is a bracket, [paintEvent] leaves
    the cursor where it is and paints what the query for that bracket
    gives, whatever stands right of the cursor. *)
Theorem bracket_left_of_cursor (self : Editor)
    (pre : list Qt.Block) (b : Qt.Block) (post : list Qt.Block)
    (t1 : str) (c : ascii) (t2 : str) :
  Qt.text b = t1 ++ c :: t2 ->
  isin c _BRACKS = true ->
  MatchingBracketPaint.query (cursor_right_of pre b post t1)
  = Ok (Some (c, cursor_right_of pre b post t1)) /\
  MatchingBracketPaint.paintEvent self (cursor_right_of pre b post t1)
  = paint_bracket self c (cursor_right_of pre b post t1).
Proof.
  intros Htext Hc.
  pose proof (query_at_bracket pre b post t1 c t2 Htext Hc) as Hq.
  split; [exact Hq|].
  unfold MatchingBracketPaint.paintEvent. rewrite Hq. cbn [bind].
  unfold paint_bracket.
  destruct (highlightMatchingBracket self); reflexivity.
Qed.

Lemma bracket_left_of_cursor_witness :
  MatchingBracketPaint.query (Qt.mkCursor (plain_line "a)(") 2)
  = Ok (Some (")"%char, Qt.mkCursor (plain_line "a)(") 2)) /\
  MatchingBracketPaint.paintEvent no_parser (Qt.mkCursor (plain_line "a)(") 2)
  = paint_bracket no_parser ")" (Qt.mkCursor (plain_line "a)(") 2).
Proof.
  exact (bracket_left_of_cursor no_parser [] (Qt.mkBlock (lit "a)(") None) []
           (lit "a") ")" (lit "(") eq_refl eq_refl).
Defined.

(** X15: with no bracket left of the cursor, the character right of it is
    queried.  When the cursor is at the start of its line or right of a
    character that is no bracket, and a character stands right of it in the
    line, [paintEvent] moves its cursor right of that character and paints
    what the query for it gives. *)
Theorem bracket_right_of_cursor (self : Editor)
    (pre : list Qt.Block) (b : Qt.Block) (post : list Qt.Block)
    (t1 : str) (c : ascii) (t2 : str) :
  Qt.text b = t1 ++ c :: t2 ->
  (forall t0 a, t1 = t0 ++ [a] -> isin a _BRACKS = false) ->
  MatchingBracketPaint.query
    (Qt.mkCursor (pre ++ b :: post) (len (text_before pre) + len t1))
  = Ok (Some (c, cursor_right_of pre b post t1)) /\
  MatchingBracketPaint.paintEvent self
    (Qt.mkCursor (pre ++ b :: post) (len (text_before pre) + len t1))
  = paint_bracket self c (cursor_right_of pre b post t1).
Proof.
  intros Htext Hleft.
  assert (Hq : MatchingBracketPaint.query
                 (Qt.mkCursor (pre ++ b :: post)
                    (len (text_before pre) + len t1))
               = Ok (Some (c, cursor_right_of pre b post t1))).
  { unfold MatchingBracketPaint.query, QtCursor.atBlockStart.
    unfold cursor_right_of.
    pose proof (len_nonneg t1). pose proof (len_nonneg t2).
    assert (Hlen : len (Qt.text b) = len t1 + len t2 + 1)
      by (rewrite Htext, len_app, len_cons; lia).
    destruct (cursor_in_block pre b post (len t1)) as [Hpib Htxt]; [lia|].
    rewrite Hpib.
    rewrite (moveRight_in_block pre b post (len t1)) by lia.
    destruct (Z.eqb_spec (len t1) 0) as [Hz|Hz].
    - rewrite <- Z.add_assoc.
      destruct (cursor_in_block pre b post (len t1 + 1)) as [-> ->]; [lia|].
      replace (len t1 + 1 - 1) with (len t1) by lia.
      rewrite (proj2 (Z.ltb_lt (len t1) (len (Qt.text b)))) by lia.
      rewrite (proj2 (Z.ltb_lt 0 (len (Qt.text b)))) by lia.
      cbn [andb negb]. rewrite Htext at 1. rewrite getitem_middle.
      reflexivity.
    - rewrite Hpib, Htxt.
      rewrite (proj2 (Z.ltb_lt (len t1 - 1) (len (Qt.text b)))) by lia.
      rewrite (proj2 (Z.ltb_lt 0 (len (Qt.text b)))) by lia.
      cbn [andb negb].
      destruct (@exists_last _ t1) as (t0 & a & Ht1).
      { intros ->. now rewrite len_nil in Hz. }
      assert (Hl0 : len t1 - 1 = len t0)
        by (rewrite Ht1, len_app, len_cons, len_nil; lia).
      rewrite Htext at 1. rewrite Ht1 at 1. rewrite <- app_assoc. cbn [app].
      rewrite Hl0, getitem_middle.
      rewrite (Hleft t0 a Ht1). cbn [negb andb].
      replace (len t0 + 1) with (len t1) by lia.
      rewrite (proj2 (Z.ltb_lt (len t1) (len (Qt.text b)))) by lia.
      rewrite Htext at 1. rewrite getitem_middle.
      rewrite (moveRight_in_block pre b post (len t1)) by lia.
      reflexivity. }
  split; [exact Hq|].
  unfold MatchingBracketPaint.paintEvent. rewrite Hq. cbn [bind].
  unfold paint_bracket.
  destruct (highlightMatchingBracket self); reflexivity.
Qed.

Lemma bracket_right_of_cursor_witness :
  MatchingBracketPaint.query (Qt.mkCursor (plain_line "a(b)") 1)
  = Ok (Some ("("%char, Qt.mkCursor (plain_line "a(b)") 2)) /\
  MatchingBracketPaint.paintEvent no_parser (Qt.mkCursor (plain_line "a(b)") 1)
  = paint_bracket no_parser "(" (Qt.mkCursor (plain_line "a(b)") 2).
Proof.
  apply (bracket_right_of_cursor no_parser [] (Qt.mkBlock (lit "a(b)") None) []
           (lit "a") "(" (lit "b)")).
  - reflexivity.
  - intros t0 a Ht.
    destruct t0 as [|x [|y t0]]; try discriminate Ht.
    injection Ht as <-. reflexivity.
Defined.

(** X16: a cursor on an empty line queries the next line.  At the start of
    an empty line that another line follows, [paintEvent] moves its cursor
    to the start of the next line, and [text[pos]] with [pos = -1] is the
    last character of that line: this character is queried, with the
    cursor at the start of its line.  With a parser and the line lexed,
    nothing is painted; without a parser, when the character is a bracket,
    a highlight is painted. *)
Theorem empty_line_queries_next_line (self : Editor)
    (pre : list Qt.Block) (e b : Qt.Block) (post : list Qt.Block)
    (t : str) (c : ascii) :
  Qt.text e = [] ->
  Qt.text b = t ++ [c] ->
  MatchingBracketPaint.query
    (Qt.mkCursor (pre ++ e :: b :: post) (len (text_before pre)))
  = Ok (Some (c, Qt.mkCursor (pre ++ e :: b :: post)
                   (len (text_before pre) + 1))) /\
  (uses_parser self = true -> lexed b ->
   MatchingBracketPaint.paintEvent self
     (Qt.mkCursor (pre ++ e :: b :: post) (len (text_before pre)))
   = Ok []) /\
  (uses_parser self = false -> highlightMatchingBracket self = true ->
   isin c _BRACKS = true ->
   exists h hs,
     MatchingBracketPaint.paintEvent self
       (Qt.mkCursor (pre ++ e :: b :: post) (len (text_before pre)))
     = Ok (h :: hs)).
Proof.
  intros He Hb.
  pose proof (len_nonneg t) as Ht.
  assert (Hlen : len (Qt.text b) = len t + 1)
    by (rewrite Hb; unfold len; rewrite length_app; cbn [length]; lia).
  assert (Hdoc : pre ++ e :: b :: post = (pre ++ [e]) ++ b :: post)
    by (rewrite <- app_assoc; reflexivity).
  assert (Hpos : len (text_before pre) + 1 = len (text_before (pre ++ [e])) + 0).
  { rewrite text_before_snoc, He. cbn [app].
    unfold len; rewrite length_app; cbn [length]; lia. }
  assert (Hq : MatchingBracketPaint.query
                 (Qt.mkCursor (pre ++ e :: b :: post) (len (text_before pre)))
               = Ok (Some (c, Qt.mkCursor (pre ++ e :: b :: post)
                                (len (text_before pre) + 1)))).
  { unfold MatchingBracketPaint.query, QtCursor.atBlockStart.
    destruct (cursor_in_block pre e (b :: post) 0) as [Hpib _];
      [rewrite He; cbn; lia|].
    rewrite (Z.add_0_r (len (text_before pre))) in Hpib.
    rewrite Hpib. cbn [Z.eqb].
    assert (Hmv := moveRight_in_block pre e (b :: post) 0 (Z.le_refl 0)).
    rewrite (Z.add_0_r (len (text_before pre))) in Hmv.
    rewrite Hmv
      by (right; split; [apply len_nonneg | discriminate]).
    rewrite Hpos, Hdoc.
    destruct (cursor_in_block (pre ++ [e]) b post 0) as [-> ->]; [lia|].
    cbn [Z.sub Z.add Z.opp].
    rewrite (proj2 (Z.ltb_lt (-1) (len (Qt.text b)))) by lia.
    rewrite (proj2 (Z.ltb_lt 0 (len (Qt.text b)))) by lia.
    cbn [andb negb]. rewrite Hb at 1. rewrite getitem_last. reflexivity. }
  split; [exact Hq|].
  unfold MatchingBracketPaint.paintEvent. rewrite Hq. cbn [bind].
  split.
  - intros Hp Hlex.
    unfold paint_bracket.
    destruct (highlightMatchingBracket self); cbn [negb]; [|reflexivity].
    destruct (isin c _BRACKS) eqn:Hc; [|reflexivity].
    assert (Hi : forall dir,
               ParenIterator.__init__
                 (Qt.mkCursor (pre ++ e :: b :: post)
                    (len (text_before pre) + 1)) dir
               = Raise _ParenNotFound).
    { intros dir. unfold ParenIterator.__init__, Qt.block, Qt.positionInBlock.
      cbn [Qt.document Qt.position].
      rewrite Hpos, Hdoc, locate_block by lia. cbn [fst snd].
      change (len (pre ++ [e])) with (Z.of_nat (length (pre ++ [e]))).
      assert (Hnth : nth_error ((pre ++ [e]) ++ b :: post)
                       (length (pre ++ [e])) = Some b)
        by (rewrite nth_error_app2, Nat.sub_diag; [reflexivity|lia]).
      rewrite (lexed_tokens _ _ b Hnth Hlex).
      rewrite find_start_none; [reflexivity|].
      intros tok Hin.
      pose proof (lex_line_ends (Qt.text b) 0) as Hends.
      rewrite Forall_forall in Hends. specialize (Hends tok Hin). lia. }
    destruct (roles_of_bracket c Hc) as (dir & stacking & unstacking & Hr).
    unfold _findMatchingBracket, scan. rewrite Hr. cbn [bind].
    unfold our_iterator. rewrite Hp, Hi. reflexivity.
  - intros Hp Hm Hc.
    destruct (paint_bracket_cases self c
                (Qt.mkCursor (pre ++ e :: b :: post)
                   (len (text_before pre) + 1)))
      as [(h & hs & Hpb & _) | (_ & [H | [H | H]])]; try congruence.
    exists h, hs. rewrite Hm. exact Hpb.
Qed.

Lemma empty_line_queries_next_line_witness :
  MatchingBracketPaint.query
    (Qt.mkCursor [Qt.mkBlock [] None; Qt.mkBlock (lit "x)") None] 0)
  = Ok (Some (")"%char,
              Qt.mkCursor [Qt.mkBlock [] None; Qt.mkBlock (lit "x)") None] 1))
  /\
  (uses_parser no_parser = true -> lexed (Qt.mkBlock (lit "x)") None) ->
   MatchingBracketPaint.paintEvent no_parser
     (Qt.mkCursor [Qt.mkBlock [] None; Qt.mkBlock (lit "x)") None] 0)
   = Ok []) /\
  (uses_parser no_parser = false ->
   highlightMatchingBracket no_parser = true ->
   isin ")" _BRACKS = true ->
   exists h hs,
     MatchingBracketPaint.paintEvent no_parser
       (Qt.mkCursor [Qt.mkBlock [] None; Qt.mkBlock (lit "x)") None] 0)
     = Ok (h :: hs)).
Proof.
  exact (empty_line_queries_next_line no_parser [] (Qt.mkBlock [] None)
           (Qt.mkBlock (lit "x)") None) [] (lit "x") ")" eq_refl eq_refl).
Defined.

(** X17: the two brackets of a pair are highlighted.  With the option on
    and the cursor right of an opening bracket whose partner follows a
    balanced text, [paintEvent] paints exactly two highlights in the style
    of a matching bracket: one at the cursor and one right of the
    partner. *)
Theorem paintEvent_highlights_pair (self : Editor)
    (pre : list Qt.Block) (b : Qt.Block) (post : list Qt.Block)
    (t1 : str) (o c : ascii) (body t2 rest : str) :
  highlightMatchingBracket self = true ->
  In (o, c) bracket_pairs ->
  balanced body ->
  (uses_parser self = true -> Forall lexed (pre ++ b :: post)) ->
  Qt.text b = t1 ++ o :: t2 ->
  t2 ++ text_after post = body ++ c :: rest ->
  MatchingBracketPaint.paintEvent self (cursor_right_of pre b post t1)
  = Ok [(Qt.position (cursor_right_of pre b post t1), MatchedPair);
        (Qt.position (cursor_right_of pre b post t1) + len body + 1,
         MatchedPair)].
Proof.
  intros Hm Hp Hbal Hlex Htext Hsplit.
  destruct (bracket_pair_facts o c Hp) as (Hob & _ & Hoo & _ & Hoc & _).
  unfold MatchingBracketPaint.paintEvent. rewrite Hm. cbn [negb].
  rewrite (query_at_bracket pre b post t1 o t2 Htext Hob). cbn [bind].
  unfold paint_bracket. rewrite Hm, Hob. cbn [negb].
  rewrite (forward_query self pre b post t1 o t2 Hlex Htext Hoo Hoc).
  rewrite Hsplit, (scan_pair_forward o c body rest _ Hp Hbal).
  reflexivity.
Qed.

Lemma paintEvent_highlights_pair_witness :
  MatchingBracketPaint.paintEvent python_parser (Qt.mkCursor two_lines 2)
  = Ok [(2, MatchedPair); (4, MatchedPair)].
Proof.
  apply (paintEvent_highlights_pair python_parser []
           (Qt.mkBlock (lit "([") (Some (lex_line (lit "([") 0)))
           [Qt.mkBlock (lit "])") (Some (lex_line (lit "])") 0))]
           (lit "(") "[" "]" [Qt.newline] [] (lit ")")).
  - reflexivity.
  - right; left; reflexivity.
  - apply balanced_char; [reflexivity | apply balanced_nil].
  - intros _; repeat constructor; eexists; split; reflexivity.
  - reflexivity.
  - reflexivity.
Defined.

(** ** Breakpoints *)

Section DictLemmas.

Context {V : Type}.
Implicit Types (d : @PyDict.dict V) (k m : Z) (v : V).

Lemma get_remove_same d k : PyDict.get (PyDict.remove d k) k = None.
Proof.
  induction d as [|[k' v'] d IH]; [reflexivity|].
  unfold PyDict.remove in *. cbn [filter fst].
  destruct (Z.eqb_spec k' k) as [->|Hne]; cbn [negb]; [exact IH|].
  cbn [PyDict.get].
  destruct (Z.eqb_spec k k'); [congruence | exact IH].
Qed.

Lemma get_remove_other d k m :
  m <> k -> PyDict.get (PyDict.remove d k) m = PyDict.get d m.
Proof.
  intros Hne. induction d as [|[k' v'] d IH]; [reflexivity|].
  unfold PyDict.remove in *. cbn [filter fst PyDict.get].
  destruct (Z.eqb_spec k' k) as [->|Hk]; cbn [negb].
  - destruct (Z.eqb_spec m k); [congruence | exact IH].
  - cbn [PyDict.get]. destruct (m =? k'); [reflexivity | exact IH].
Qed.

Lemma get_set_item_same d k v : PyDict.get (PyDict.set_item d k v) k = Some v.
Proof.
  induction d as [|[k' v'] d IH]; cbn [PyDict.set_item PyDict.get].
  - now rewrite Z.eqb_refl.
  - destruct (Z.eqb_spec k k') as [->|Hne]; cbn [PyDict.get].
    + now rewrite Z.eqb_refl.
    + destruct (Z.eqb_spec k k'); [congruence | exact IH].
Qed.

Lemma get_set_item_other d k v m :
  m <> k -> PyDict.get (PyDict.set_item d k v) m = PyDict.get d m.
Proof.
  intros Hne. induction d as [|[k' v'] d IH]; cbn [PyDict.set_item PyDict.get].
  - destruct (Z.eqb_spec m k); [congruence | reflexivity].
  - destruct (Z.eqb_spec k k') as [->|Hk]; cbn [PyDict.get].
    + destruct (Z.eqb_spec m k'); [congruence | reflexivity].
    + destruct (m =? k'); [reflexivity | exact IH].
Qed.

Lemma keys_remove d k m :
  In m (map fst (PyDict.remove d k)) <-> In m (map fst d) /\ m <> k.
Proof.
  unfold PyDict.remove. rewrite !in_map_iff. split.
  - intros ([k' v'] & <- & Hin). apply filter_In in Hin.
    destruct Hin as [Hin Hk]. cbn [fst] in *.
    split; [now exists (k', v')|].
    destruct (Z.eqb_spec k' k); [discriminate | assumption].
  - intros (([k' v'] & <- & Hin) & Hne). exists (k', v').
    split; [reflexivity|]. apply filter_In. split; [assumption|].
    cbn [fst] in *. destruct (Z.eqb_spec k' k); [congruence | reflexivity].
Qed.

Lemma keys_set_item d k v m :
  In m (map fst (PyDict.set_item d k v)) <-> m = k \/ In m (map fst d).
Proof.
  induction d as [|[k' v'] d IH]; cbn [PyDict.set_item map fst In].
  - intuition.
  - destruct (Z.eqb_spec k k') as [->|Hne]; cbn [map fst In].
    + intuition.
    + rewrite IH. intuition.
Qed.

Lemma nodup_remove d k :
  NoDup (map fst d) -> NoDup (map fst (PyDict.remove d k)).
Proof.
  induction d as [|[k' v'] d IH]; [intros; constructor|].
  cbn [map fst]. intros Hnd. inversion Hnd as [|x l Hnot Hnd' Heq]; subst.
  change (PyDict.remove ((k', v') :: d) k)
    with (if negb (k' =? k) then (k', v') :: PyDict.remove d k
          else PyDict.remove d k).
  destruct (negb (k' =? k)); [|now apply IH].
  cbn [map fst]. constructor; [|now apply IH].
  rewrite keys_remove. tauto.
Qed.

Lemma nodup_set_item d k v :
  NoDup (map fst d) -> NoDup (map fst (PyDict.set_item d k v)).
Proof.
  induction d as [|[k' v'] d IH]; cbn [PyDict.set_item map fst].
  - intros _. constructor; [intros [] | constructor].
  - intros Hnd. inversion Hnd as [|x l Hnot Hnd' Heq]; subst.
    destruct (Z.eqb_spec k k') as [->|Hne]; cbn [map fst].
    + now constructor.
    + constructor; [|now apply IH].
      rewrite keys_set_item. intros [->|Hin]; [congruence | contradiction].
Qed.

Lemma get_In d k v :
  NoDup (map fst d) -> (PyDict.get d k = Some v <-> In (k, v) d).
Proof.
  induction d as [|[k' v'] d IH]; cbn [map fst PyDict.get In].
  - intros _. split; [discriminate | intros []].
  - intros Hnd. inversion Hnd as [|x l Hnot Hnd' Heq]; subst.
    destruct (Z.eqb_spec k k') as [->|Hne].
    + split.
      * intros [= ->]. now left.
      * intros [[= ->]|Hin]; [reflexivity|].
        exfalso. apply Hnot. apply in_map_iff. now exists (k', v).
    + rewrite (IH Hnd'). split; [now right|].
      intros [[= -> ->]|Hin]; [congruence | assumption].
Qed.

Lemma get_key d k :
  In k (map fst d) <-> exists v, PyDict.get d k = Some v.
Proof.
  induction d as [|[k' v'] d IH]; cbn [map fst PyDict.get In].
  - split; [intros [] | intros (v & Hv); discriminate].
  - destruct (Z.eqb_spec k k') as [->|Hne].
    + split; [intros _; now exists v' | intros _; now left].
    + rewrite <- IH. split; [intros [->|Hin]; [congruence|assumption]|].
      intros Hin. now right.
Qed.

End DictLemmas.

Lemma insert_In {A : Type} (leb : A -> A -> bool) (x y : A) (l : list A) :
  In y (PyDict.insert leb x l) <-> y = x \/ In y l.
Proof.
  induction l as [|z l IH]; cbn [PyDict.insert In].
  - intuition.
  - destruct (leb x z); cbn [In]; [intuition|].
    rewrite IH. intuition.
Qed.

Lemma sorted_In {A : Type} (leb : A -> A -> bool) (y : A) (l : list A) :
  In y (PyDict.sorted leb l) <-> In y l.
Proof.
  induction l as [|x l IH]; [reflexivity|].
  unfold PyDict.sorted in *. cbn [fold_right In].
  rewrite insert_In, IH. intuition.
Qed.

Lemma insert_increasing (x : Z) (l : list Z) :
  StronglySorted Z.lt l -> ~ In x l ->
  StronglySorted Z.lt (PyDict.insert Z.leb x l).
Proof.
  induction l as [|y l IH]; intros Hs Hx; cbn [PyDict.insert].
  - repeat constructor.
  - inversion Hs as [|a l' Hs' Hall]; subst.
    assert (Hne : x <> y) by (intros ->; apply Hx; now left).
    destruct (Z.leb_spec x y).
    + constructor; [assumption|].
      constructor; [lia|].
      eapply Forall_impl; [|exact Hall]. cbn. intros; lia.
    + constructor.
      * apply IH; [assumption|]. intros Hin; apply Hx; now right.
      * apply Forall_forall. intros z Hz. apply insert_In in Hz.
        destruct Hz as [->|Hz]; [lia|].
        rewrite Forall_forall in Hall. now apply Hall.
Qed.

Lemma sorted_increasing (l : list Z) :
  NoDup l -> StronglySorted Z.lt (PyDict.sorted Z.leb l).
Proof.
  induction 1 as [|x l Hx Hnd IH]; [constructor|].
  unfold PyDict.sorted in *. cbn [fold_right].
  apply insert_increasing; [assumption|].
  intros Hin. apply Hx. apply (sorted_In Z.leb x l). exact Hin.
Qed.

Lemma insert_tuple_fst (x : Z * bool) (l : list (Z * bool)) :
  ~ In (fst x) (map fst l) ->
  map fst (PyDict.insert PyDict.tuple_leb x l)
  = PyDict.insert Z.leb (fst x) (map fst l).
Proof.
  induction l as [|y l IH]; intros Hx; [reflexivity|].
  cbn [PyDict.insert map].
  assert (Hne : fst x <> fst y) by (intros He; apply Hx; now left).
  assert (Hleb : PyDict.tuple_leb x y = (fst x <=? fst y)).
  { unfold PyDict.tuple_leb.
    destruct (Z.ltb_spec (fst x) (fst y)), (Z.eqb_spec (fst x) (fst y)),
      (Z.leb_spec (fst x) (fst y)); cbn [orb andb]; try reflexivity; lia. }
  rewrite Hleb. destruct (fst x <=? fst y); [reflexivity|].
  cbn [map]. rewrite IH; [reflexivity|].
  intros Hin; apply Hx; now right.
Qed.

Lemma sorted_tuple_fst (l : list (Z * bool)) :
  NoDup (map fst l) ->
  map fst (PyDict.sorted PyDict.tuple_leb l)
  = PyDict.sorted Z.leb (map fst l).
Proof.
  induction l as [|x l IH]; [reflexivity|].
  cbn [map]. intros Hnd. inversion Hnd as [|a l' Hx Hnd' Heq]; subst.
  unfold PyDict.sorted in *. cbn [fold_right].
  rewrite insert_tuple_fst, IH; [reflexivity | assumption |].
  rewrite IH by assumption.
  intros Hin. apply Hx. apply (sorted_In Z.leb _ _). exact Hin.
Qed.

Lemma is_dict_toggle self linenr triState :
  is_dict self ->
  is_dict (fst (BreakPoints.toggleBreakpoint self linenr triState)).
Proof.
  unfold is_dict, lines, BreakPoints.toggleBreakpoint. intros Hnd.
  cbn [fst].
  set (n := match linenr with Some n => n | None => _ end).
  destruct (PyDict.get (BreakPoints._breakPoints self) n)
    as [[[[enabled b] bPrev] bNext]|];
    [destruct (triState && enabled)|];
    cbn [BreakPoints._breakPoints];
    try apply nodup_set_item; now apply nodup_remove.
Qed.

(** X18: the three states of a breakpoint.  On a line without a
    breakpoint, [toggleBreakpoint] sets an enabled one; a second call
    disables it, keeping its blocks; a third call removes it.  With
    [triState=False] the second call removes it at once. *)
Theorem toggle_cycles (self : BreakPoints.t) (linenr : Z) :
  enabled_at self linenr = None ->
  let on := fst (BreakPoints.toggleBreakpoint self (Some linenr) true) in
  let half := fst (BreakPoints.toggleBreakpoint on (Some linenr) true) in
  let off := fst (BreakPoints.toggleBreakpoint half (Some linenr) true) in
  enabled_at on linenr = Some true /\
  enabled_at half linenr = Some false /\
  (forall enabled b bPrev bNext,
      PyDict.get (BreakPoints._breakPoints on) linenr
      = Some (enabled, b, bPrev, bNext) ->
      PyDict.get (BreakPoints._breakPoints half) linenr
      = Some (false, b, bPrev, bNext)) /\
  enabled_at off linenr = None /\
  enabled_at (fst (BreakPoints.toggleBreakpoint on (Some linenr) false))
             linenr = None.
Proof.
  intros Hnone on half off.
  assert (Hget : PyDict.get (BreakPoints._breakPoints self) linenr = None).
  { unfold enabled_at in Hnone.
    destruct (PyDict.get _ linenr); [discriminate | reflexivity]. }
  assert (Hon : exists b bPrev bNext,
             PyDict.get (BreakPoints._breakPoints on) linenr
             = Some (true, b, bPrev, bNext)).
  { subst on. unfold BreakPoints.toggleBreakpoint. rewrite Hget.
    cbn [fst BreakPoints._breakPoints].
    eexists _, _, _. apply get_set_item_same. }
  destruct Hon as (b & bPrev & bNext & Hon).
  assert (Hhalf : PyDict.get (BreakPoints._breakPoints half) linenr
                  = Some (false, b, bPrev, bNext)).
  { subst half. unfold BreakPoints.toggleBreakpoint at 1. rewrite Hon.
    cbn [andb fst BreakPoints._breakPoints]. apply get_set_item_same. }
  assert (Hoff : PyDict.get (BreakPoints._breakPoints off) linenr = None).
  { subst off. unfold BreakPoints.toggleBreakpoint at 1. rewrite Hhalf.
    cbn [andb fst BreakPoints._breakPoints]. apply get_remove_same. }
  unfold enabled_at. rewrite Hon, Hhalf, Hoff. cbn [option_map fst].
  split; [reflexivity|]. split; [reflexivity|].
  split; [intros enabled b' p' q' [= <- <- <- <-]; reflexivity|].
  split; [reflexivity|].
  unfold BreakPoints.toggleBreakpoint at 1. rewrite Hon.
  cbn [andb fst BreakPoints._breakPoints]. now rewrite get_remove_same.
Qed.

Lemma toggle_cycles_witness :
  let on := fst (BreakPoints.toggleBreakpoint two_breakpoints (Some 2) true) in
  let half := fst (BreakPoints.toggleBreakpoint on (Some 2) true) in
  let off := fst (BreakPoints.toggleBreakpoint half (Some 2) true) in
  enabled_at on 2 = Some true /\
  enabled_at half 2 = Some false /\
  (forall enabled b bPrev bNext,
      PyDict.get (BreakPoints._breakPoints on) 2
      = Some (enabled, b, bPrev, bNext) ->
      PyDict.get (BreakPoints._breakPoints half) 2
      = Some (false, b, bPrev, bNext)) /\
  enabled_at off 2 = None /\
  enabled_at (fst (BreakPoints.toggleBreakpoint on (Some 2) false)) 2 = None.
Proof.
  exact (toggle_cycles two_breakpoints 2 eq_refl).
Defined.

(** X19: [toggleBreakpoint] touches the breakpoint of its line only: the
    entry of every other line is as before. *)
Theorem toggle_leaves_other_lines (self : BreakPoints.t) (linenr other : Z)
    (triState : bool) :
  other <> linenr ->
  PyDict.get
    (BreakPoints._breakPoints
       (fst (BreakPoints.toggleBreakpoint self (Some linenr) triState)))
    other
  = PyDict.get (BreakPoints._breakPoints self) other.
Proof.
  intros Hne. unfold BreakPoints.toggleBreakpoint. cbn [fst].
  destruct (PyDict.get (BreakPoints._breakPoints self) linenr)
    as [[[[enabled b] bPrev] bNext]|];
    [destruct (triState && enabled)|];
    cbn [BreakPoints._breakPoints];
    rewrite ?get_set_item_other by assumption;
    now apply get_remove_other.
Qed.

Lemma toggle_leaves_other_lines_witness :
  PyDict.get
    (BreakPoints._breakPoints
       (fst (BreakPoints.toggleBreakpoint two_breakpoints (Some 3) true)))
    1
  = Some (false, 0, -1, 1).
Proof.
  apply (toggle_leaves_other_lines two_breakpoints 3 1 true).
  discriminate.
Defined.

Lemma enabled_lines_spec (self : BreakPoints.t) :
  is_dict self ->
  StronglySorted Z.lt (BreakPoints.breakPoints self) /\
  forall linenr,
    In linenr (BreakPoints.breakPoints self)
    <-> enabled_at self linenr = Some true.
Proof.
  intros Hnd. unfold is_dict, lines in Hnd. unfold BreakPoints.breakPoints.
  split.
  - apply sorted_increasing.
    revert Hnd. generalize (BreakPoints._breakPoints self).
    induction d as [|[k v] d IH]; [constructor|].
    cbn [map fst filter snd]. intros Hnd.
    inversion Hnd as [|a l Hx Hnd' Heq]; subst.
    destruct (fst (fst (fst v))); [|now apply IH].
    cbn [map fst]. constructor; [|now apply IH].
    intros Hin. apply Hx. apply in_map_iff in Hin.
    destruct Hin as (kv & <- & Hin). apply filter_In in Hin.
    apply in_map. tauto.
  - intros linenr. rewrite sorted_In, in_map_iff. unfold enabled_at.
    split.
    + intros ([k [[[enabled b] bPrev] bNext]] & <- & Hin).
      apply filter_In in Hin. destruct Hin as [Hin Hen].
      cbn [fst snd] in *. subst enabled.
      apply (get_In _ _ _ Hnd) in Hin. now rewrite Hin.
    + destruct (PyDict.get (BreakPoints._breakPoints self) linenr)
        as [[[[enabled b] bPrev] bNext]|] eqn:Hg; [|discriminate].
      cbn [option_map fst]. intros [= ->].
      apply (get_In _ _ _ Hnd) in Hg.
      exists (linenr, (true, b, bPrev, bNext)). split; [reflexivity|].
      apply filter_In. now split.
Qed.

(** X20: [breakPoints()] is the list of the lines with an enabled
    breakpoint, each once, in increasing order; a disabled breakpoint is
    not in it. *)
Theorem breakPoints_are_the_enabled_lines (self : BreakPoints.t) :
  is_dict self ->
  StronglySorted Z.lt (BreakPoints.breakPoints self) /\
  forall linenr,
    In linenr (BreakPoints.breakPoints self)
    <-> enabled_at self linenr = Some true.
Proof.
  exact (enabled_lines_spec self).
Qed.

Lemma breakPoints_are_the_enabled_lines_witness :
  StronglySorted Z.lt (BreakPoints.breakPoints two_breakpoints) /\
  forall linenr,
    In linenr (BreakPoints.breakPoints two_breakpoints)
    <-> enabled_at two_breakpoints linenr = Some true.
Proof.
  apply (breakPoints_are_the_enabled_lines two_breakpoints).
  repeat constructor; cbn; intuition discriminate.
Defined.

(** X21: [breakPoints(triState=True)] lists every breakpoint, the disabled
    ones too, as the pair of its line and its enabled flag, in the
    increasing order of the lines. *)
Theorem breakPoints_triState_lists_all (self : BreakPoints.t) :
  is_dict self ->
  StronglySorted Z.lt (map fst (BreakPoints.breakPoints_triState self)) /\
  forall linenr enabled,
    In (linenr, enabled) (BreakPoints.breakPoints_triState self)
    <-> enabled_at self linenr = Some enabled.
Proof.
  intros Hnd. unfold is_dict, lines in Hnd.
  unfold BreakPoints.breakPoints_triState.
  match goal with
  | |- context [PyDict.sorted _ ?l] => set (pairs := l)
  end.
  assert (Hkeys : map fst pairs = map fst (BreakPoints._breakPoints self))
    by (subst pairs; rewrite map_map; reflexivity).
  split.
  - rewrite sorted_tuple_fst by (rewrite Hkeys; exact Hnd).
    apply sorted_increasing. rewrite Hkeys. exact Hnd.
  - intros linenr enabled. subst pairs.
    rewrite sorted_In, in_map_iff. unfold enabled_at.
    split.
    + intros ([k [[[en b] bPrev] bNext]] & [= <- <-] & Hin).
      cbn [fst snd] in *.
      apply (get_In _ _ _ Hnd) in Hin. now rewrite Hin.
    + destruct (PyDict.get (BreakPoints._breakPoints self) linenr)
        as [[[[en b] bPrev] bNext]|] eqn:Hg; [|discriminate].
      cbn [option_map fst]. intros [= ->].
      apply (get_In _ _ _ Hnd) in Hg.
      now exists (linenr, (enabled, b, bPrev, bNext)).
Qed.

Lemma breakPoints_triState_lists_all_witness :
  StronglySorted Z.lt
    (map fst (BreakPoints.breakPoints_triState two_breakpoints)) /\
  forall linenr enabled,
    In (linenr, enabled) (BreakPoints.breakPoints_triState two_breakpoints)
    <-> enabled_at two_breakpoints linenr = Some enabled.
Proof.
  apply (breakPoints_triState_lists_all two_breakpoints).
  repeat constructor; cbn; intuition discriminate.
Defined.

Lemma toggle_off self n enabled b bPrev bNext :
  PyDict.get (BreakPoints._breakPoints self) n
  = Some (enabled, b, bPrev, bNext) ->
  BreakPoints.toggleBreakpoint self (Some n) false
  = (BreakPoints.mk (PyDict.remove (BreakPoints._breakPoints self) n)
       (BreakPoints.document self) (BreakPoints.blockNumber self)
       (BreakPoints._debugLineIndicator self)
       (BreakPoints._debugLineIndicators self),
     [BreakPoints.breakPointsChanged; BreakPoints.areaUpdate]).
Proof.
  intros Hg. unfold BreakPoints.toggleBreakpoint. now rewrite Hg.
Qed.

Lemma clear_fold (L : list Z) :
  forall self signals,
    NoDup L ->
    (forall n, In n L -> In n (lines self)) ->
    let r :=
      fold_left
        (fun acc linenr =>
           let '(self', signals) :=
             BreakPoints.toggleBreakpoint (fst acc) (Some linenr) false in
           (self', snd acc ++ signals))
        L (self, signals) in
    (forall m,
        PyDict.get (BreakPoints._breakPoints (fst r)) m
        = if existsb (Z.eqb m) L then None
          else PyDict.get (BreakPoints._breakPoints self) m) /\
    BreakPoints.document (fst r) = BreakPoints.document self /\
    (is_dict self -> is_dict (fst r)) /\
    snd r
    = signals
      ++ flat_map (fun _ => [BreakPoints.breakPointsChanged;
                             BreakPoints.areaUpdate]) L.
Proof.
  induction L as [|n L IH]; intros self signals Hnd Hin.
  - cbn. rewrite app_nil_r. auto.
  - inversion Hnd as [|a l Hn Hnd' Heq]; subst.
    cbn [fold_left fst snd].
    assert (Hkey : In n (lines self)) by (apply Hin; now left).
    apply get_key in Hkey. destruct Hkey as ([[[enabled b] bPrev] bNext] & Hg).
    rewrite (toggle_off _ _ _ _ _ _ Hg).
    set (self' := BreakPoints.mk _ _ _ _ _).
    destruct (IH self' (signals ++ [BreakPoints.breakPointsChanged;
                                    BreakPoints.areaUpdate]) Hnd')
      as (Hget & Hdoc & Hdict & Hsig).
    { intros m Hm. unfold lines. subst self'. cbn [BreakPoints._breakPoints].
      apply keys_remove. split; [apply Hin; now right|].
      intros ->. contradiction. }
    cbv zeta. split; [|split; [|split]].
    + intros m. rewrite Hget. cbn [existsb].
      subst self'. cbn [BreakPoints._breakPoints].
      destruct (Z.eqb_spec m n) as [->|Hne]; cbn [orb].
      * rewrite get_remove_same. now destruct (existsb _ L).
      * now rewrite get_remove_other.
    + rewrite Hdoc. reflexivity.
    + intros Hd. apply Hdict. unfold is_dict, lines. subst self'.
      cbn [BreakPoints._breakPoints]. now apply nodup_remove.
    + rewrite Hsig, <- app_assoc. reflexivity.
Qed.

(** X22: [clearBreakPoints] removes the enabled breakpoints only.  It
    toggles the lines of [breakPoints()], which are the enabled ones: after
    it no enabled breakpoint is left, every disabled breakpoint is as it
    was, the document is untouched, and the two signals were sent once for
    each breakpoint removed. *)
Theorem clearBreakPoints_keeps_disabled (self : BreakPoints.t) :
  is_dict self ->
  let cleared := fst (BreakPoints.clearBreakPoints self) in
  BreakPoints.breakPoints cleared = [] /\
  (forall linenr,
      enabled_at self linenr = Some true ->
      enabled_at cleared linenr = None) /\
  (forall linenr,
      enabled_at self linenr <> Some true ->
      PyDict.get (BreakPoints._breakPoints cleared) linenr
      = PyDict.get (BreakPoints._breakPoints self) linenr) /\
  BreakPoints.document cleared = BreakPoints.document self /\
  snd (BreakPoints.clearBreakPoints self)
  = flat_map (fun _ => [BreakPoints.breakPointsChanged;
                        BreakPoints.areaUpdate])
             (BreakPoints.breakPoints self).
Proof.
  intros Hd cleared.
  destruct (enabled_lines_spec self Hd) as [Hs Hin].
  destruct (clear_fold (BreakPoints.breakPoints self) self [])
    as (Hget & Hdoc & Hdict & Hsig).
  { clear -Hs. induction Hs as [|x l Hs IH Hall]; constructor; [|assumption].
    intros Hx. rewrite Forall_forall in Hall. specialize (Hall x Hx). lia. }
  { intros n Hn. apply Hin in Hn. apply get_key. unfold enabled_at in Hn.
    destruct (PyDict.get (BreakPoints._breakPoints self) n);
      [now eexists | discriminate]. }
  fold (BreakPoints.clearBreakPoints self) in Hget, Hdoc, Hdict, Hsig.
  fold cleared in Hget, Hdoc, Hdict.
  assert (Hmem : forall n,
             existsb (Z.eqb n) (BreakPoints.breakPoints self) = true
             <-> enabled_at self n = Some true).
  { intros n. rewrite <- Hin, existsb_exists. split.
    - intros (x & Hx & He). apply Z.eqb_eq in He. now subst.
    - intros Hn. exists n. split; [assumption | apply Z.eqb_refl]. }
  split; [|split; [|split; [|split]]].
  - destruct (enabled_lines_spec cleared (Hdict Hd))
      as [_ Hin'].
    destruct (BreakPoints.breakPoints cleared) as [|x l] eqn:Hl;
      [reflexivity|].
    exfalso. assert (Hx : enabled_at cleared x = Some true)
      by (apply Hin'; now left).
    unfold enabled_at in Hx. rewrite Hget in Hx.
    destruct (existsb (Z.eqb x) (BreakPoints.breakPoints self)) eqn:He;
      [discriminate|].
    apply Hmem in Hx. congruence.
  - intros n Hn. unfold enabled_at. rewrite Hget.
    apply Hmem in Hn. now rewrite Hn.
  - intros n Hn. rewrite Hget.
    destruct (existsb (Z.eqb n) (BreakPoints.breakPoints self)) eqn:He;
      [|reflexivity].
    apply Hmem in He. contradiction.
  - exact Hdoc.
  - exact Hsig.
Qed.

Lemma clearBreakPoints_keeps_disabled_witness :
  let cleared := fst (BreakPoints.clearBreakPoints two_breakpoints) in
  BreakPoints.breakPoints cleared = [] /\
  (forall linenr,
      enabled_at two_breakpoints linenr = Some true ->
      enabled_at cleared linenr = None) /\
  (forall linenr,
      enabled_at two_breakpoints linenr <> Some true ->
      PyDict.get (BreakPoints._breakPoints cleared) linenr
      = PyDict.get (BreakPoints._breakPoints two_breakpoints) linenr) /\
  BreakPoints.document cleared = BreakPoints.document two_breakpoints /\
  snd (BreakPoints.clearBreakPoints two_breakpoints)
  = flat_map (fun _ => [BreakPoints.breakPointsChanged;
                        BreakPoints.areaUpdate])
             (BreakPoints.breakPoints two_breakpoints).
Proof.
  apply (clearBreakPoints_keeps_disabled two_breakpoints).
  repeat constructor; cbn; intuition discriminate.
Defined.

Lemma fold_min (l : list Z) :
  forall x,
    In (fold_left Z.min l x) (x :: l) /\
    Forall (fun m => fold_left Z.min l x <= m) (x :: l).
Proof.
  induction l as [|y l IH]; intros x; cbn [fold_left].
  - split; [now left | repeat constructor; lia].
  - destruct (IH (Z.min x y)) as [Hin Hall].
    inversion Hall as [|a l' Hmin Hall' Heq]; subst. split.
    + destruct Hin as [He|Hin]; [|now right; right].
      rewrite <- He. destruct (Z.min_spec x y) as [[_ ->]|[_ ->]];
        [now left | now right; left].
    + repeat constructor; try assumption; lia.
Qed.

Lemma fold_max (l : list Z) :
  forall x,
    In (fold_left Z.max l x) (x :: l) /\
    Forall (fun m => m <= fold_left Z.max l x) (x :: l).
Proof.
  induction l as [|y l IH]; intros x; cbn [fold_left].
  - split; [now left | repeat constructor; lia].
  - destruct (IH (Z.max x y)) as [Hin Hall].
    inversion Hall as [|a l' Hmax Hall' Heq]; subst. split.
    + destruct Hin as [He|Hin]; [|now right; right].
      rewrite <- He. destruct (Z.max_spec x y) as [[_ ->]|[_ ->]];
        [now right; left | now left].
    + repeat constructor; try assumption; lia.
Qed.

(** X23: the jumps go to the nearest breakpoint, enabled or not.
    [jumpNextBreakpoint] goes to the least line with a breakpoint that is
    greater than the line of the cursor, [jumpPreviousBreakpoint] to the
    greatest one that is less; they go nowhere exactly when there is no
    such line. *)
Theorem jumps_go_to_the_nearest (self : BreakPoints.t) :
  match BreakPoints.jumpNextBreakpoint self with
  | Some n =>
      In n (lines self) /\ BreakPoints.blockNumber self + 1 < n /\
      forall m, In m (lines self) ->
                BreakPoints.blockNumber self + 1 < m -> n <= m
  | None =>
      forall m, In m (lines self) -> m <= BreakPoints.blockNumber self + 1
  end /\
  match BreakPoints.jumpPreviousBreakpoint self with
  | Some n =>
      In n (lines self) /\ n < BreakPoints.blockNumber self + 1 /\
      forall m, In m (lines self) ->
                m < BreakPoints.blockNumber self + 1 -> m <= n
  | None =>
      forall m, In m (lines self) -> BreakPoints.blockNumber self + 1 <= m
  end.
Proof.
  unfold BreakPoints.jumpNextBreakpoint, BreakPoints.jumpPreviousBreakpoint.
  fold (lines self). set (cur := BreakPoints.blockNumber self + 1).
  split.
  - destruct (filter (fun linenr => cur <? linenr) (lines self))
      as [|x l] eqn:Hf; cbn [PyDict.min_default].
    + intros m Hm. destruct (Z.ltb_spec cur m) as [Hlt|]; [|lia].
      assert (Hin : In m (filter (fun linenr => cur <? linenr) (lines self)))
        by (apply filter_In; split; [assumption | now apply Z.ltb_lt]).
      rewrite Hf in Hin. destruct Hin.
    + destruct (fold_min l x) as [Hin Hall]. rewrite <- Hf in Hin, Hall.
      apply filter_In in Hin. destruct Hin as [Hin Hlt].
      apply Z.ltb_lt in Hlt.
      split; [assumption|]. split; [assumption|].
      intros m Hm Hcur. rewrite Forall_forall in Hall. apply Hall.
      apply filter_In. split; [assumption | now apply Z.ltb_lt].
  - destruct (filter (fun linenr => linenr <? cur) (lines self))
      as [|x l] eqn:Hf; cbn [PyDict.max_default].
    + intros m Hm. destruct (Z.ltb_spec m cur) as [Hlt|]; [|lia].
      assert (Hin : In m (filter (fun linenr => linenr <? cur) (lines self)))
        by (apply filter_In; split; [assumption | now apply Z.ltb_lt]).
      rewrite Hf in Hin. destruct Hin.
    + destruct (fold_max l x) as [Hin Hall]. rewrite <- Hf in Hin, Hall.
      apply filter_In in Hin. destruct Hin as [Hin Hlt].
      apply Z.ltb_lt in Hlt.
      split; [assumption|]. split; [assumption|].
      intros m Hm Hcur. rewrite Forall_forall in Hall. apply Hall.
      apply filter_In. split; [assumption | now apply Z.ltb_lt].
Qed.

Lemma set_mem_add x s :
  BreakPoints.set_mem x (BreakPoints.set_add x s) = true.
Proof.
  unfold BreakPoints.set_add.
  destruct (BreakPoints.set_mem x s) eqn:Hm; [exact Hm|].
  unfold BreakPoints.set_mem. cbn [existsb]. now rewrite Z.eqb_refl.
Qed.

Lemma cons_neq {A : Type} (x : A) (l : list A) : x :: l <> l.
Proof.
  intros H. apply (f_equal (@length A)) in H. cbn [length] in H. lia.
Qed.

Ltac simp_bp :=
  cbn [fst snd negb orb andb BreakPoints._breakPoints BreakPoints.document
       BreakPoints.blockNumber BreakPoints._debugLineIndicator
       BreakPoints._debugLineIndicators].

(** X24: [setDebugLineIndicator] repaints the breakpoint area exactly when
    it changes the indicators, and a second call with the same arguments
    changes nothing and repaints nothing. *)
Theorem setDebugLineIndicator_repaints_on_change (self : BreakPoints.t)
    (linenr : option Z) (active : bool) :
  let r := BreakPoints.setDebugLineIndicator self linenr active in
  (snd r = [] <-> fst r = self) /\
  (snd r = [] \/ snd r = [BreakPoints.areaUpdate]) /\
  BreakPoints.setDebugLineIndicator (fst r) linenr active = (fst r, []).
Proof.
  destruct self as [bp doc bn ind inds].
  unfold BreakPoints.setDebugLineIndicator; simp_bp.
  set (n := match linenr with Some n => n | None => 0 end).
  destruct (n =? 0) eqn:Hn.
  - destruct (ind =? 0) eqn:Hind; simp_bp.
    + apply Z.eqb_eq in Hind; subst ind.
      destruct inds as [|x inds]; simp_bp; rewrite ?Z.eqb_refl; simp_bp.
      * intuition.
      * split; [split; [discriminate | intros [=]]|]. auto.
    + rewrite ?Z.eqb_refl; simp_bp.
      split; [split; [discriminate|]|auto].
      intros H. apply (f_equal BreakPoints._debugLineIndicator) in H.
      simp_bp. cbn [BreakPoints._debugLineIndicator] in H.
      subst ind. discriminate.
  - destruct active.
    + destruct (n =? ind) eqn:He; simp_bp.
      * rewrite ?He. simp_bp. intuition.
      * rewrite Z.eqb_refl. simp_bp.
        split; [split; [discriminate|]|auto].
        intros H. apply (f_equal BreakPoints._debugLineIndicator) in H.
        cbn [BreakPoints._debugLineIndicator] in H.
        rewrite H, Z.eqb_refl in He. discriminate.
    + destruct (BreakPoints.set_mem n inds) eqn:Hm; simp_bp.
      * rewrite ?Hm. simp_bp. intuition.
      * rewrite set_mem_add. simp_bp.
        split; [split; [discriminate|]|auto].
        unfold BreakPoints.set_add. rewrite Hm. intros H.
        apply (f_equal BreakPoints._debugLineIndicators) in H.
        cbn [BreakPoints._debugLineIndicators] in H.
        now apply cons_neq in H.
Qed.

Lemma update_block_length d :
  forall n, length (BreakPoints.update_block d n) = length d.
Proof.
  induction d as [|blk d IH]; intros [|n]; cbn [BreakPoints.update_block length];
    try reflexivity.
  now rewrite IH.
Qed.

Lemma update_block_text d :
  forall n, map Qt.text (BreakPoints.update_block d n) = map Qt.text d.
Proof.
  induction d as [|blk d IH]; intros [|n]; cbn [BreakPoints.update_block map];
    try reflexivity.
  - unfold BreakPoints.ensure_user_data. now destruct (Qt.userData blk).
  - now rewrite IH.
Qed.

Lemma update_block_nth d :
  forall n k,
    nth_error (BreakPoints.update_block d n) k
    = if Nat.eqb k n
      then option_map BreakPoints.ensure_user_data (nth_error d k)
      else nth_error d k.
Proof.
  induction d as [|blk d IH]; intros [|n] [|k];
    cbn [BreakPoints.update_block nth_error Nat.eqb option_map];
    try reflexivity.
  - now destruct (Nat.eqb k n).
  - apply IH.
Qed.

Lemma mark_block_valid d b k :
  Qt.isValid (BreakPoints.mark_block d b) k = Qt.isValid d k.
Proof.
  unfold BreakPoints.mark_block, Qt.isValid, len.
  destruct ((0 <=? b) && (b <? Z.of_nat (length d))); [|reflexivity].
  now rewrite update_block_length.
Qed.

Lemma mark_block_text d b :
  map Qt.text (BreakPoints.mark_block d b) = map Qt.text d.
Proof.
  unfold BreakPoints.mark_block.
  destruct (Qt.isValid d b); [apply update_block_text | reflexivity].
Qed.

Lemma mark_block_keeps d b k :
  has_user_data d k -> has_user_data (BreakPoints.mark_block d b) k.
Proof.
  intros (blk & tokens & Hat & Hud).
  unfold has_user_data, Qt.block_at in *. rewrite mark_block_valid.
  destruct (Qt.isValid d k); [|discriminate].
  unfold BreakPoints.mark_block.
  destruct (Qt.isValid d b); [|now exists blk, tokens].
  rewrite update_block_nth, Hat. cbn [option_map].
  destruct (Nat.eqb (Z.to_nat k) (Z.to_nat b)); [|now exists blk, tokens].
  exists (BreakPoints.ensure_user_data blk), tokens.
  split; [reflexivity|].
  unfold BreakPoints.ensure_user_data. now rewrite Hud.
Qed.

Lemma mark_block_marks d b :
  Qt.isValid d b = true -> has_user_data (BreakPoints.mark_block d b) b.
Proof.
  intros Hv. unfold has_user_data, Qt.block_at.
  rewrite mark_block_valid, Hv.
  unfold BreakPoints.mark_block. rewrite Hv.
  rewrite update_block_nth, Nat.eqb_refl.
  destruct (nth_error d (Z.to_nat b)) as [blk|] eqn:Hn.
  - cbn [option_map]. unfold BreakPoints.ensure_user_data.
    destruct (Qt.userData blk) as [tokens|] eqn:Hud.
    + now exists blk, tokens.
    + now eexists _, _.
  - exfalso. apply nth_error_None in Hn.
    unfold Qt.isValid, len in Hv. apply andb_true_iff in Hv.
    destruct Hv as [H0 H1]. apply Z.leb_le in H0. apply Z.ltb_lt in H1. lia.
Qed.

(** X25: [toggleBreakpoint] keeps the blocks of the breakpoints marked.
    When every valid block stored with a breakpoint has user data, this is
    so after a call too: the block of a new breakpoint gets user data when
    it has none.  The texts of the lines are never touched. *)
Theorem toggle_keeps_blocks_marked (self : BreakPoints.t)
    (linenr : option Z) (triState : bool) :
  blocks_marked self ->
  blocks_marked (fst (BreakPoints.toggleBreakpoint self linenr triState)) /\
  map Qt.text
    (BreakPoints.document
       (fst (BreakPoints.toggleBreakpoint self linenr triState)))
  = map Qt.text (BreakPoints.document self).
Proof.
  intros Hmark. unfold BreakPoints.toggleBreakpoint. cbn [fst].
  set (n := match linenr with Some n => n | None => _ end).
  assert (Hadd : forall enabled b bPrev bNext,
             blocks_marked
               (BreakPoints.mk
                  (PyDict.set_item
                     (PyDict.remove (BreakPoints._breakPoints self) n) n
                     (enabled, b, bPrev, bNext))
                  (BreakPoints.mark_block (BreakPoints.document self) b)
                  (BreakPoints.blockNumber self)
                  (BreakPoints._debugLineIndicator self)
                  (BreakPoints._debugLineIndicators self))).
  { intros enabled b bPrev bNext m en' b' p' q'.
    cbn [BreakPoints._breakPoints BreakPoints.document].
    rewrite mark_block_valid.
    destruct (Z.eq_dec m n) as [->|Hne].
    - rewrite get_set_item_same. intros [= <- <- <- <-] Hv.
      now apply mark_block_marks.
    - rewrite get_set_item_other, get_remove_other by assumption.
      intros Hg Hv. apply mark_block_keeps. eapply Hmark; eassumption. }
  destruct (PyDict.get (BreakPoints._breakPoints self) n)
    as [[[[enabled b] bPrev] bNext]|] eqn:Hg;
    [destruct (triState && enabled)|].
  - split; [apply Hadd|]. cbn [BreakPoints.document]. apply mark_block_text.
  - split; [|reflexivity].
    intros m en' b' p' q'. cbn [BreakPoints._breakPoints BreakPoints.document].
    destruct (Z.eq_dec m n) as [->|Hne].
    + rewrite get_remove_same. discriminate.
    + rewrite get_remove_other by assumption. apply Hmark.
  - split; [apply Hadd|]. cbn [BreakPoints.document]. apply mark_block_text.
Qed.

Lemma toggle_keeps_blocks_marked_witness :
  blocks_marked (fst (BreakPoints.toggleBreakpoint two_breakpoints None true))
  /\
  map Qt.text
    (BreakPoints.document
       (fst (BreakPoints.toggleBreakpoint two_breakpoints None true)))
  = map Qt.text (BreakPoints.document two_breakpoints).
Proof.
  apply (toggle_keeps_blocks_marked two_breakpoints None true).
  intros linenr enabled b bPrev bNext.
  unfold two_breakpoints; cbn [BreakPoints._breakPoints BreakPoints.document
                              PyDict.get].
  destruct (linenr =? 3); [intros [= <- <- <- <-] _; now eexists _, _|].
  destruct (linenr =? 1); [intros [= <- <- <- <-] _; now eexists _, _|].
  discriminate.
Defined.
